(** * EasyBake: shader-graph classification, probe rewiring and bake sweep

    A shallow embedding of the core of the EasyBake add-on
    ([calculate_atlas_layout], [get_atlas_uv_bounds], the UDIM helpers,
    [analyze_material], the four [temporary_*] context managers and the
    bake loop of [MBNL_OT_bake.execute]) together with the properties
    the design document states about them, and of the code around it:
    the text helpers, the preset files and the preset operators, the
    atlas UV layer and the check of the atlas operator, the colour
    spaces and the resolutions of the sweep, the selection buttons and
    [bake_generic].

    Conventions.
    - Python [int] is [Z]; [%] and [//] are [Z.modulo] and [Z.div]
      (both floor for a positive divisor, as in Python).
    - Python [float] socket values, UV coordinates and paddings are
      rationals [Q] with exact arithmetic.
    - A node tree is a list of nodes and a list of links in creation
      order; a socket is addressed by node id, side and position.
    - A generator-based context manager is a pair: the part that runs
      up to the [yield] and the part that runs after it. *)

From Stdlib Require Import ZArith NArith QArith Qabs Lia Lqa Bool List String Ascii
  Sorted Permutation.
From stdpp Require Import gmap strings list fin_maps.
Import ListNotations.

Local Open Scope Z_scope.

(* ===================================================================== *)
(** * Atlas layout *)
(* ===================================================================== *)

(** [math.ceil(math.sqrt(n))] on a material count.  The square root of
    a small integer is exact when it is an integer and is strictly
    between two integers otherwise, so the float result is the integer
    ceiling of the real square root. *)
Definition ceil_sqrt (n : Z) : Z :=
  let r := Z.sqrt n in
  if r * r =? n then r else r + 1.

Definition calculate_atlas_layout (material_count : Z) : Z * Z :=
  if material_count <=? 1 then (1, 1)
  else if material_count <=? 2 then (2, 1)
  else if material_count <=? 4 then (2, 2)
  else if material_count <=? 6 then (3, 2)
  else if material_count <=? 9 then (3, 3)
  else if material_count <=? 12 then (4, 3)
  else if material_count <=? 16 then (4, 4)
  else
    let sqrt_count := ceil_sqrt material_count in
    (sqrt_count, sqrt_count).

(** A rectangle [(u_min, v_min, u_max, v_max)]. *)
Record rect : Type := Rect {
  u_min : Q;
  v_min : Q;
  u_max : Q;
  v_max : Q
}.

Definition get_atlas_uv_bounds (material_index cols rows : Z) (padding : Q) : rect :=
  let col := material_index mod cols in
  let row := material_index / cols in
  let u_size := (1 / inject_Z cols)%Q in
  let v_size := (1 / inject_Z rows)%Q in
  let u_min0 := (inject_Z col * u_size)%Q in
  let v_min0 := (inject_Z row * v_size)%Q in
  let u_max0 := (u_min0 + u_size)%Q in
  let v_max0 := (v_min0 + v_size)%Q in
  let padding_u := (padding / inject_Z cols)%Q in
  let padding_v := (padding / inject_Z rows)%Q in
  Rect (u_min0 + padding_u) (v_min0 + padding_v)
       (u_max0 - padding_u) (v_max0 - padding_v).

(** The rectangle lies in the unit square (and is not inverted). *)
Definition in_unit_square (r : rect) : Prop :=
  (0 <= u_min r /\ u_min r <= u_max r /\ u_max r <= 1 /\
   0 <= v_min r /\ v_min r <= v_max r /\ v_max r <= 1)%Q.

(** Two rectangles share no interior point: one of them ends, in [u] or
    in [v], where the other begins. *)
Definition non_overlapping (r s : rect) : Prop :=
  (u_max r <= u_min s \/ u_max s <= u_min r \/
   v_max r <= v_min s \/ v_max s <= v_min r)%Q.

(** One axis of a cell: lower and upper end after padding, as the code
    computes them for cell position [k] out of [n]. *)
Definition axis_lo (k n : Z) (padding : Q) : Q :=
  (inject_Z k * (1 / inject_Z n) + padding / inject_Z n)%Q.

Definition axis_hi (k n : Z) (padding : Q) : Q :=
  (inject_Z k * (1 / inject_Z n) + 1 / inject_Z n - padding / inject_Z n)%Q.

(* ===================================================================== *)
(** * UDIM tile arithmetic *)
(* ===================================================================== *)

(** The integer part of [get_udim_tile_bounds]: [(tile_u, tile_v)]. *)
Definition get_udim_tile_coords (udim_number : Z) : Z * Z :=
  let tile_index := udim_number - 1001 in
  let tile_u := tile_index mod 10 in
  let tile_v := tile_index / 10 in
  (tile_u, tile_v).

Record tile_bounds : Type := TileBounds {
  tb_u_min : Q;
  tb_v_min : Q;
  tb_u_max : Q;
  tb_v_max : Q;
  tb_tile_u : Z;
  tb_tile_v : Z
}.

Definition get_udim_tile_bounds (udim_number : Z) : tile_bounds :=
  let '(tile_u, tile_v) := get_udim_tile_coords udim_number in
  TileBounds (inject_Z tile_u) (inject_Z tile_v)
             (inject_Z (tile_u + 1)) (inject_Z (tile_v + 1))
             tile_u tile_v.

(** The tile number [detect_udim_tiles] computes from the tile
    coordinates of a UV sample. *)
Definition udim_number_of (tile_u tile_v : Z) : Z :=
  1001 + tile_u + (tile_v * 10).

(** [int(x)] on a float: truncation towards zero. *)
Definition py_int (x : Q) : Z := Z.quot (Qnum x) (Z.pos (Qden x)).

(** Insertion into a sorted list without duplicates: the
    [tiles.add] / [sorted(list(tiles))] pair of [detect_udim_tiles]. *)
Fixpoint sorted_add (x : Z) (l : list Z) : list Z :=
  match l with
  | [] => [x]
  | y :: l' =>
      if x <? y then x :: l
      else if x =? y then l
      else y :: sorted_add x l'
  end.

(** [detect_udim_tiles] over the UV samples of all polygon loops. *)
Definition detect_udim_tiles (uvs : list (Q * Q)) : list Z :=
  fold_left
    (fun tiles uv =>
       let tile_u := py_int (fst uv) in
       let tile_v := py_int (snd uv) in
       let udim_number := udim_number_of tile_u tile_v in
       if (1001 <=? udim_number) && (udim_number <=? 1100)
       then sorted_add udim_number tiles
       else tiles)
    uvs [].

(* ===================================================================== *)
(** * Shader graphs *)
(* ===================================================================== *)

Local Open Scope string_scope.
Local Open Scope Z_scope.
Local Open Scope list_scope.

(** What a socket's [default_value] holds: a float, an RGBA colour, a
    3-vector, or nothing (shader sockets have no [default_value]). *)
Inductive socket_value : Type :=
| VFloat (x : Q)
| VColor (r g b a : Q)
| VVector (x y z : Q)
| VNoValue.

Record in_socket : Type := InSocket {
  in_name : string;
  default_value : socket_value
}.

Record out_socket : Type := OutSocket {
  out_name : string;
  out_default_value : socket_value
}.

(** A node.  [node_id] is its identity (Python object identity);
    [image] tells whether an image-texture node has an image. *)
Record node : Type := Node {
  node_id : nat;
  bl_idname : string;
  name : string;
  label : string;
  inputs : list in_socket;
  outputs : list out_socket;
  image : bool
}.

(** A socket is addressed by its node and its position in the node's
    [inputs] or [outputs]. *)
Definition socket_ref : Type := nat * nat.

Record link : Type := Link {
  from_node : nat;
  from_socket : nat;
  to_node : nat;
  to_socket : nat
}.

(** A node tree: nodes and links in creation order, and the identity
    the next created node receives. *)
Record node_tree : Type := NodeTree {
  nodes : list node;
  links : list link;
  next_id : nat
}.

Record material : Type := Material {
  use_nodes : bool;
  mat_node_tree : option node_tree
}.

Definition link_eqb (a b : link) : bool :=
  Nat.eqb (from_node a) (from_node b) && Nat.eqb (from_socket a) (from_socket b) &&
  Nat.eqb (to_node a) (to_node b) && Nat.eqb (to_socket a) (to_socket b).

Definition link_from (l : link) : socket_ref := (from_node l, from_socket l).
Definition link_to (l : link) : socket_ref := (to_node l, to_socket l).

(** [x in [a; b; ...]] on strings. *)
Definition mem_string (x : string) (l : list string) : bool :=
  existsb (String.eqb x) l.

Definition get_node (nt : node_tree) (id : nat) : option node :=
  find (fun n => Nat.eqb (node_id n) id) (nodes nt).

(** [next((n for n in nt.nodes if n.bl_idname == idname), None)]. *)
Definition first_node_of_type (nt : node_tree) (idname : string) : option node :=
  find (fun n => String.eqb (bl_idname n) idname) (nodes nt).

(** Position of the first socket called [nm]: [node.inputs[nm]]. *)
Fixpoint index_of_input (nm : string) (l : list in_socket) : option nat :=
  match l with
  | [] => None
  | s :: l' =>
      if String.eqb (in_name s) nm then Some 0%nat
      else option_map S (index_of_input nm l')
  end.

Fixpoint index_of_output (nm : string) (l : list out_socket) : option nat :=
  match l with
  | [] => None
  | s :: l' =>
      if String.eqb (out_name s) nm then Some 0%nat
      else option_map S (index_of_output nm l')
  end.

(** [socket.links] of an input socket and of an output socket: the
    links of the tree that touch the socket, in tree order. *)
Definition input_links (nt : node_tree) (s : socket_ref) : list link :=
  List.filter (fun l => Nat.eqb (to_node l) (fst s) && Nat.eqb (to_socket l) (snd s))
         (links nt).

Definition output_links (nt : node_tree) (s : socket_ref) : list link :=
  List.filter (fun l => Nat.eqb (from_node l) (fst s) && Nat.eqb (from_socket l) (snd s))
         (links nt).

(** [socket.is_linked] of an input socket. *)
Definition is_linked (nt : node_tree) (s : socket_ref) : bool :=
  match input_links nt s with
  | [] => false
  | _ :: _ => true
  end.

(** [link.from_node.bl_idname]; a link whose source is not in the tree
    does not occur in a host tree, its type matches no name. *)
Definition from_node_idname (nt : node_tree) (l : link) : string :=
  match get_node nt (from_node l) with
  | Some n => bl_idname n
  | None => ""
  end.

(* ===================================================================== *)
(** * Exceptions and state *)
(* ===================================================================== *)

(** The exception classes the code meets. *)
Inductive exn : Type :=
| KeyError
| AttributeError
| TypeError
| ValueError
| RuntimeError
| ReferenceError.

(** The outcome of a Python statement: a value, or a raised exception. *)
Inductive result (A : Type) : Type :=
| Ok (a : A)
| Raise (e : exn).

Arguments Ok {A} a.
Arguments Raise {A} e.

(** Stateful, fallible code over a mutable store [S]. *)
Definition M (S A : Type) : Type := S -> result A * S.

Definition ret {S A : Type} (a : A) : M S A := fun s => (Ok a, s).

Definition bind {S A B : Type} (m : M S A) (f : A -> M S B) : M S B :=
  fun s =>
    match m s with
    | (Ok a, s') => f a s'
    | (Raise e, s') => (Raise e, s')
    end.

Definition raise {S A : Type} (e : exn) : M S A := fun s => (Raise e, s).

Definition get_state {S : Type} : M S S := fun s => (Ok s, s).

Definition put_state {S : Type} (s : S) : M S unit := fun _ => (Ok tt, s).

(** [try: m  except Exception: handler]. *)
Definition try_except {S A : Type} (m : M S A) (handler : M S A) : M S A :=
  fun s =>
    match m s with
    | (Ok a, s') => (Ok a, s')
    | (Raise _, s') => handler s'
    end.

(** [try: m  except (E1, E2, ...): handler]. *)
Definition try_except_of {S A : Type} (caught : exn -> bool)
  (m : M S A) (handler : M S A) : M S A :=
  fun s =>
    match m s with
    | (Ok a, s') => (Ok a, s')
    | (Raise e, s') => if caught e then handler s' else (Raise e, s')
    end.

(** [try: m  finally: fin]: [fin] runs on both paths; the exception of
    [m] propagates after it. *)
Definition try_finally {S A : Type} (m : M S A) (fin : M S unit) : M S A :=
  fun s =>
    match m s with
    | (r, s') =>
        match fin s' with
        | (Ok _, s'') => (r, s'')
        | (Raise e, s'') => (Raise e, s'')
        end
    end.

(** Whether a statement ran without raising: [try: m; ok = True
    except Exception: pass]. *)
Definition attempt {S : Type} (m : M S unit) : M S bool :=
  fun s =>
    match m s with
    | (Ok _, s') => (Ok true, s')
    | (Raise _, s') => (Ok false, s')
    end.

Notation "x <- m ;; k" := (bind m (fun x => k))
  (at level 100, m at next level, right associativity).
Notation "m ;;; k" := (bind m (fun _ => k))
  (at level 100, right associativity).

(** [for x in xs: body x]. *)
Fixpoint for_each {S A : Type} (xs : list A) (body : A -> M S unit) : M S unit :=
  match xs with
  | [] => ret tt
  | x :: xs' => body x ;;; for_each xs' body
  end.

(* ===================================================================== *)
(** * Material analysis *)
(* ===================================================================== *)

Record custom_shader_entry : Type := CustomShaderEntry {
  cs_node : nat;
  cs_type : string;
  cs_name : string;
  cs_label : string
}.

Record mix_shader_entry : Type := MixShaderEntry {
  ms_node : nat;
  ms_type : string;
  ms_name : string
}.

Record shader_network_info : Type := ShaderNetwork {
  mix_node : nat;
  has_principled : bool;
  has_custom : bool
}.

(** The dictionary [analyze_material] returns.  Nodes are held by
    identity; the keys ['pure_color_inputs'] and ['connected_inputs'],
    which the early returns leave unset, read as the empty list (their
    readers use [.get(key, [])]); an empty ['shader_network'] is [None]. *)
Record analysis : Type := Analysis {
  has_image_textures : bool;
  has_pure_colors : bool;
  texture_nodes : list nat;
  principled_node : option nat;
  material_type : string;
  custom_shaders : list custom_shader_entry;
  output_node : option nat;
  has_custom_shaders : bool;
  mix_shaders : list mix_shader_entry;
  shader_network : option shader_network_info;
  principled_connected_to_output : bool;
  custom_connected_to_output : bool;
  pure_color_inputs : list string;
  connected_inputs : list string
}.

Definition initial_analysis : analysis :=
  {| has_image_textures := false;
     has_pure_colors := false;
     texture_nodes := [];
     principled_node := None;
     material_type := "unknown";
     custom_shaders := [];
     output_node := None;
     has_custom_shaders := false;
     mix_shaders := [];
     shader_network := None;
     principled_connected_to_output := false;
     custom_connected_to_output := false;
     pure_color_inputs := [];
     connected_inputs := [] |}.

Definition shader_types : list string :=
  [ "ShaderNodeBsdfDiffuse"; "ShaderNodeBsdfGlossy"; "ShaderNodeBsdfTransparent";
    "ShaderNodeBsdfTranslucent"; "ShaderNodeBsdfGlass"; "ShaderNodeBsdfRefraction";
    "ShaderNodeBsdfAnisotropic"; "ShaderNodeBsdfVelvet"; "ShaderNodeBsdfToon";
    "ShaderNodeSubsurfaceScattering"; "ShaderNodeEmission"; "ShaderNodeBsdfHair";
    "ShaderNodeBsdfHairPrincipled"; "ShaderNodeBsdfSheen"; "ShaderNodeMixShader";
    "ShaderNodeAddShader"; "ShaderNodeNodeGroup" ].

(** The list the connection checks compare against: simple shaders and
    node groups, without the combiners. *)
Definition direct_shader_types : list string :=
  [ "ShaderNodeBsdfDiffuse"; "ShaderNodeBsdfGlossy"; "ShaderNodeBsdfTransparent";
    "ShaderNodeBsdfTranslucent"; "ShaderNodeBsdfGlass"; "ShaderNodeBsdfRefraction";
    "ShaderNodeBsdfAnisotropic"; "ShaderNodeBsdfVelvet"; "ShaderNodeBsdfToon";
    "ShaderNodeSubsurfaceScattering"; "ShaderNodeEmission"; "ShaderNodeBsdfHair";
    "ShaderNodeBsdfHairPrincipled"; "ShaderNodeBsdfSheen"; "ShaderNodeNodeGroup" ].

Definition combiner_types : list string :=
  [ "ShaderNodeMixShader"; "ShaderNodeAddShader" ].

Definition Qlt_bool (x y : Q) : bool :=
  (Qnum x * QDen y <? Qnum y * QDen x)%Z.

(** The body of the loop over the inputs of the combiner feeding the
    sink, on [(principled_in_mix, custom_in_mix)]. *)
Definition mix_step (nt : node_tree) (id : nat) (acc : bool * bool) (i : nat) : bool * bool :=
  match input_links nt (id, i) with
  | [] => acc
  | l0 :: _ =>
      let t := from_node_idname nt l0 in
      if String.eqb t "ShaderNodeBsdfPrincipled" then (true, snd acc)
      else if mem_string t direct_shader_types then (fst acc, true)
      else acc
  end.

Definition mix_input_flags (nt : node_tree) (connected_node : node) : bool * bool :=
  fold_left (mix_step nt (node_id connected_node))
            (seq 0 (length (inputs connected_node)))
            (false, false).

(** "Analyze shader network connections":
    [(principled_connected_to_output, custom_connected_to_output,
      shader_network)].  [output_node.inputs['Surface']] raises when the
    sink has no such socket. *)
Definition analyze_network (nt : node_tree) (output_node : option node)
  : result (bool * bool * option shader_network_info) :=
  match output_node with
  | None => Ok (false, false, None)
  | Some out =>
      match index_of_input "Surface" (inputs out) with
      | None => Raise KeyError
      | Some si =>
          match input_links nt (node_id out, si) with
          | [] => Ok (false, false, None)
          | l0 :: _ =>
              match get_node nt (from_node l0) with
              | None => Ok (false, false, None)
              | Some connected_node =>
                  if String.eqb (bl_idname connected_node) "ShaderNodeBsdfPrincipled"
                  then Ok (true, false, None)
                  else if mem_string (bl_idname connected_node) direct_shader_types
                  then Ok (false, true, None)
                  else if mem_string (bl_idname connected_node) combiner_types
                  then
                    let '(principled_in_mix, custom_in_mix) :=
                      mix_input_flags nt connected_node in
                    Ok (principled_in_mix, custom_in_mix,
                        Some (ShaderNetwork (node_id connected_node)
                                            principled_in_mix custom_in_mix))
                  else Ok (false, false, None)
              end
          end
      end
  end.

(** [principled.inputs[input_name].is_linked] for every key. *)
Definition linked_input_names (nt : node_tree) (principled : node) : list string :=
  List.filter
    (fun input_name =>
       match index_of_input input_name (inputs principled) with
       | Some i => is_linked nt (node_id principled, i)
       | None => false
       end)
    (map in_name (inputs principled)).

(** Whether an unlinked input holds a non-default value, for the three
    inputs the analysis looks at. *)
Definition is_pure_color (input_name : string) (default_val : socket_value) : bool :=
  match default_val with
  | VColor r g b _ | VVector r g b =>
      if String.eqb input_name "Base Color"
      then negb (Qlt_bool (Qabs (r - (8 # 10))) (1 # 100) &&
                 Qlt_bool (Qabs (g - (8 # 10))) (1 # 100) &&
                 Qlt_bool (Qabs (b - (8 # 10))) (1 # 100))
      else false
  | VFloat x =>
      if String.eqb input_name "Base Color" then false
      else if mem_string input_name ["Metallic"; "Roughness"]
      then (String.eqb input_name "Metallic" && Qlt_bool (1 # 100) (Qabs x)) ||
           (String.eqb input_name "Roughness" && Qlt_bool (1 # 100) (Qabs (x - (1 # 2))))
      else false
  | VNoValue => false
  end.

Definition pure_color_input_names (nt : node_tree) (principled : node) : list string :=
  List.filter
    (fun input_name =>
       match index_of_input input_name (inputs principled) with
       | Some i =>
           match nth_error (inputs principled) i with
           | Some input_socket =>
               negb (is_linked nt (node_id principled, i)) &&
               is_pure_color input_name (default_value input_socket)
           | None => false
           end
       | None => false
       end)
    (map in_name (inputs principled)).

(** "Determine material type". *)
Definition determine_material_type
  (principled : option node) (has_custom_shaders : bool)
  (principled_connected custom_connected : bool)
  (has_image_textures has_pure_colors : bool) (connected_inputs : list string)
  : string :=
  match principled with
  | Some _ =>
      if has_custom_shaders then
        if principled_connected && custom_connected then "mixed_shader_network"
        else if principled_connected then "principled_with_custom"
        else if custom_connected then "custom_with_principled"
        else "mixed_shader"
      else
        if has_image_textures && has_pure_colors then "mixed"
        else if has_image_textures then "textured"
        else if has_pure_colors || negb (Nat.eqb (length connected_inputs) 0) then "procedural"
        else "default"
  | None =>
      if has_custom_shaders then "custom_shader" else "unknown"
  end.

(** The body of [analyze_material] once the node tree is at hand. *)
Definition analyze_tree (nt : node_tree) : analysis :=
  let output_node := first_node_of_type nt "ShaderNodeOutputMaterial" in
  let principled := first_node_of_type nt "ShaderNodeBsdfPrincipled" in
  let custom_shaders :=
    map (fun n => CustomShaderEntry (node_id n) (bl_idname n) (name n)
                    (if String.eqb (label n) "" then name n else label n))
        (List.filter (fun n => mem_string (bl_idname n) shader_types) (nodes nt)) in
  let has_custom_shaders := negb (Nat.eqb (length custom_shaders) 0) in
  let mix_shaders :=
    map (fun n => MixShaderEntry (node_id n) (bl_idname n) (name n))
        (List.filter (fun n => mem_string (bl_idname n) combiner_types) (nodes nt)) in
  let found :=
    {| has_image_textures := false;
       has_pure_colors := false;
       texture_nodes := [];
       principled_node := option_map node_id principled;
       material_type := "unknown";
       custom_shaders := custom_shaders;
       output_node := option_map node_id output_node;
       has_custom_shaders := has_custom_shaders;
       mix_shaders := mix_shaders;
       shader_network := None;
       principled_connected_to_output := false;
       custom_connected_to_output := false;
       pure_color_inputs := [];
       connected_inputs := [] |} in
  match analyze_network nt output_node with
  | Raise _ => found
  | Ok (principled_connected, custom_connected, network) =>
      match principled with
      | None =>
          {| has_image_textures := false;
             has_pure_colors := false;
             texture_nodes := [];
             principled_node := None;
             material_type := if has_custom_shaders then "custom_shader" else "unknown";
             custom_shaders := custom_shaders;
             output_node := option_map node_id output_node;
             has_custom_shaders := has_custom_shaders;
             mix_shaders := mix_shaders;
             shader_network := network;
             principled_connected_to_output := principled_connected;
             custom_connected_to_output := custom_connected;
             pure_color_inputs := [];
             connected_inputs := [] |}
      | Some p =>
          let image_textures :=
            List.filter (fun n => String.eqb (bl_idname n) "ShaderNodeTexImage" && image n)
                   (nodes nt) in
          let has_image_textures := negb (Nat.eqb (length image_textures) 0) in
          let connected_inputs := linked_input_names nt p in
          let pure_color_inputs := pure_color_input_names nt p in
          let has_pure_colors := negb (Nat.eqb (length pure_color_inputs) 0) in
          {| has_image_textures := has_image_textures;
             has_pure_colors := has_pure_colors;
             texture_nodes := map node_id image_textures;
             principled_node := Some (node_id p);
             material_type :=
               determine_material_type principled has_custom_shaders
                 principled_connected custom_connected
                 has_image_textures has_pure_colors connected_inputs;
             custom_shaders := custom_shaders;
             output_node := option_map node_id output_node;
             has_custom_shaders := has_custom_shaders;
             mix_shaders := mix_shaders;
             shader_network := network;
             principled_connected_to_output := principled_connected;
             custom_connected_to_output := custom_connected;
             pure_color_inputs := pure_color_inputs;
             connected_inputs := connected_inputs |}
      end
  end.

Definition analyze_material (material : option material) : analysis :=
  match material with
  | None => initial_analysis
  | Some m =>
      if negb (use_nodes m) then initial_analysis
      else
        match mat_node_tree m with
        | None => initial_analysis
        | Some nt => analyze_tree nt
        end
  end.


(* ===================================================================== *)
(** * The host's node-tree operations *)
(* ===================================================================== *)

(** Sockets of the node types this code creates. *)
Definition new_node_sockets (idname : string) : list in_socket * list out_socket :=
  if String.eqb idname "ShaderNodeEmission" then
    ([InSocket "Color" (VColor 1 1 1 1); InSocket "Strength" (VFloat 1)],
     [OutSocket "Emission" VNoValue])
  else if String.eqb idname "ShaderNodeRGB" then
    ([], [OutSocket "Color" (VColor (1 # 2) (1 # 2) (1 # 2) 1)])
  else if String.eqb idname "ShaderNodeTexImage" then
    ([InSocket "Vector" (VVector 0 0 0)],
     [OutSocket "Color" (VColor 0 0 0 1); OutSocket "Alpha" (VFloat 1)])
  else ([], []).

(** [nt.nodes.new(idname)]: the new node goes last and gets a fresh
    identity. *)
Definition nodes_new (idname : string) : M node_tree nat :=
  fun nt =>
    let id := next_id nt in
    let '(ins, outs) := new_node_sockets idname in
    (Ok id,
     NodeTree (nodes nt ++ [Node id idname idname "" ins outs false])
              (links nt) (S id)).

Definition update_node (id : nat) (f : node -> node) : M node_tree unit :=
  fun nt =>
    (Ok tt,
     NodeTree (map (fun n => if Nat.eqb (node_id n) id then f n else n) (nodes nt))
              (links nt) (next_id nt)).

(** [node.label = lbl]. *)
Definition set_label (id : nat) (lbl : string) : M node_tree unit :=
  update_node id
    (fun n => Node (node_id n) (bl_idname n) (name n) lbl (inputs n) (outputs n) (image n)).

(** [node.outputs[0].default_value = v] on a node with one output. *)
Definition set_output_default (id : nat) (v : socket_value) : M node_tree unit :=
  update_node id
    (fun n => Node (node_id n) (bl_idname n) (name n) (label n) (inputs n)
                   (map (fun o => OutSocket (out_name o) v) (outputs n)) (image n)).

Definition has_output (nt : node_tree) (s : socket_ref) : bool :=
  match get_node nt (fst s) with
  | Some n => Nat.ltb (snd s) (length (outputs n))
  | None => false
  end.

Definition has_input (nt : node_tree) (s : socket_ref) : bool :=
  match get_node nt (fst s) with
  | Some n => Nat.ltb (snd s) (length (inputs n))
  | None => false
  end.

Definition into (s : socket_ref) (l : link) : bool :=
  Nat.eqb (to_node l) (fst s) && Nat.eqb (to_socket l) (snd s).

Definition touches (id : nat) (l : link) : bool :=
  Nat.eqb (from_node l) id || Nat.eqb (to_node l) id.

(** [nt.links.new(frm, to)].  It raises when a socket is not in the
    tree.  An input socket holds one link: the link already there is
    dropped; the new link goes last. *)
Definition links_new (frm to : socket_ref) : M node_tree unit :=
  fun nt =>
    if has_output nt frm && has_input nt to then
      (Ok tt,
       NodeTree (nodes nt)
                (List.filter (fun l => negb (into to l)) (links nt)
                 ++ [Link (fst frm) (snd frm) (fst to) (snd to)])
                (next_id nt))
    else (Raise RuntimeError, nt).

(** [nt.links.remove(l)]. *)
Definition links_remove (l : link) : M node_tree unit :=
  fun nt =>
    (Ok tt,
     NodeTree (nodes nt) (List.filter (fun l' => negb (link_eqb l l')) (links nt))
              (next_id nt)).

(** [nt.nodes.remove(node)]: the node goes, and every link at it. *)
Definition nodes_remove (id : nat) : M node_tree unit :=
  fun nt =>
    (Ok tt,
     NodeTree (List.filter (fun n => negb (Nat.eqb (node_id n) id)) (nodes nt))
              (List.filter (fun l => negb (touches id l)) (links nt))
              (next_id nt)).

(** [nt.nodes.clear()]. *)
Definition nodes_clear : M node_tree unit :=
  fun nt => (Ok tt, NodeTree [] [] (next_id nt)).

(** [try: before; yield y  finally: fin] inside a generator-based
    context manager: what is yielded, and the rest of the generator.
    When [before] raises, [fin] runs and the exception leaves the
    generator. *)
Definition yield_in_try {S Y : Type} (before : M S Y) (fin : M S unit)
  : M S (Y * M S unit) :=
  fun s =>
    match before s with
    | (Ok y, s') => (Ok (y, fin), s')
    | (Raise e, s') =>
        match fin s' with
        | (Ok _, s'') => (Raise e, s'')
        | (Raise e', s'') => (Raise e', s'')
        end
    end.

(** [with cm as y: body y].  The rest of the generator runs whether
    [body] returns or raises; the exception of [body] propagates. *)
Definition with_ {S Y A : Type} (cm : M S (Y * M S unit)) (body : Y -> M S A) : M S A :=
  fun s =>
    match cm s with
    | (Raise e, s1) => (Raise e, s1)
    | (Ok (y, rest), s1) =>
        match body y s1 with
        | (r, s2) =>
            match rest s2 with
            | (Ok _, s3) => (r, s3)
            | (Raise e, s3) => (Raise e, s3)
            end
        end
    end.

(* ===================================================================== *)
(** * The probe context managers *)
(* ===================================================================== *)

(** The sockets of a freshly created Emission node. *)
Definition emit_color (emit : nat) : socket_ref := (emit, 0%nat).
Definition emit_emission (emit : nat) : socket_ref := (emit, 0%nat).

Definition node_outputs (nt : node_tree) (id : nat) : list out_socket :=
  match get_node nt id with
  | Some n => outputs n
  | None => []
  end.

Definition shader_output_names : list string :=
  ["Shader"; "BSDF"; "Surface"; "Color"; "Output"].

Definition bsdf_shader_types : list string :=
  [ "ShaderNodeBsdfDiffuse"; "ShaderNodeBsdfGlossy"; "ShaderNodeBsdfTransparent";
    "ShaderNodeBsdfTranslucent"; "ShaderNodeBsdfGlass"; "ShaderNodeBsdfRefraction";
    "ShaderNodeBsdfAnisotropic"; "ShaderNodeBsdfVelvet"; "ShaderNodeBsdfToon";
    "ShaderNodeSubsurfaceScattering"; "ShaderNodeBsdfHair"; "ShaderNodeBsdfHairPrincipled";
    "ShaderNodeBsdfSheen" ].

(** The loop over [shader_output_names]: connect the first named output
    that exists and accepts the link ([break]); go on otherwise. *)
Fixpoint connect_named_output (src : nat) (outs : list out_socket)
  (names : list string) (target : socket_ref) : M node_tree bool :=
  match names with
  | [] => ret false
  | output_name :: rest =>
      match index_of_output output_name outs with
      | Some i =>
          ok <- attempt (links_new (src, i) target) ;;
          if ok then ret true else connect_named_output src outs rest target
      | None => connect_named_output src outs rest target
      end
  end.

(** [if nm in node.outputs: try: links.new(node.outputs[nm], target)]. *)
Definition connect_output_if_present (src : nat) (outs : list out_socket)
  (nm : string) (target : socket_ref) : M node_tree bool :=
  match index_of_output nm outs with
  | Some i => attempt (links_new (src, i) target)
  | None => ret false
  end.

(** The clean-up all three surface managers start with: drop the links
    at the Emission node's output and at its Color input. *)
Definition remove_emit_links (emit : nat) : M node_tree unit :=
  nt1 <- get_state ;;
  for_each (output_links nt1 (emit_emission emit)) links_remove ;;;
  nt2 <- get_state ;;
  for_each (input_links nt2 (emit_color emit)) links_remove.

Definition restore_links (original_links : list (socket_ref * socket_ref))
  : M node_tree unit :=
  for_each original_links (fun ft => links_new (fst ft) (snd ft)).

Definition temporary_emission_surface : M node_tree (option nat * M node_tree unit) :=
  nt <- get_state ;;
  match first_node_of_type nt "ShaderNodeOutputMaterial" with
  | None => ret (None, ret tt)
  | Some output =>
      match index_of_input "Surface" (inputs output) with
      | None => raise KeyError
      | Some si =>
          let surface := (node_id output, si) in
          match input_links nt surface with
          | [] => ret (None, ret tt)
          | original_surface_link :: _ =>
              let original_from_socket := link_from original_surface_link in
              let original_to_socket := link_to original_surface_link in
              let original_from_node := from_node original_surface_link in
              let idname := from_node_idname nt original_surface_link in
              let outs := node_outputs nt original_from_node in
              links_remove original_surface_link ;;;
              emit <- nodes_new "ShaderNodeEmission" ;;
              set_label emit "Custom Shader Bake" ;;;
              yield_in_try
                (connection_made <-
                   (if String.eqb idname "ShaderNodeNodeGroup" then
                      made <- connect_named_output original_from_node outs
                                shader_output_names (emit_color emit) ;;
                      if negb made && Nat.ltb 0 (length outs)
                      then attempt (links_new (original_from_node, 0%nat) (emit_color emit))
                      else ret made
                    else if mem_string idname bsdf_shader_types then
                      connect_output_if_present original_from_node outs "BSDF" (emit_color emit)
                    else if String.eqb idname "ShaderNodeEmission" then
                      connect_output_if_present original_from_node outs "Emission" (emit_color emit)
                    else if mem_string idname combiner_types then
                      connect_output_if_present original_from_node outs "Shader" (emit_color emit)
                    else ret false) ;;
                 (if negb connection_made then
                    try_except
                      (links_new original_from_socket (emit_color emit))
                      (rgb <- nodes_new "ShaderNodeRGB" ;;
                       set_label rgb "Temp RGB for Custom Shader" ;;;
                       set_output_default rgb (VColor (8 # 10) (8 # 10) (8 # 10) 1) ;;;
                       links_new (rgb, 0%nat) (emit_color emit))
                  else ret tt) ;;;
                 links_new (emit_emission emit) surface ;;;
                 ret (Some emit))
                (remove_emit_links emit ;;;
                 nt3 <- get_state ;;
                 for_each
                   (List.filter (fun n => String.eqb (label n) "Temp RGB for Custom Shader")
                                (nodes nt3))
                   (fun temp_node => nodes_remove (node_id temp_node)) ;;;
                 nodes_remove emit ;;;
                 links_new original_from_socket original_to_socket)
          end
      end
  end.

(** The part the two restricted-subgraph managers share: save and drop
    the links into the sink's Surface input. *)
Definition detach_surface (surface : socket_ref)
  : M node_tree (list (socket_ref * socket_ref)) :=
  nt <- get_state ;;
  let surface_links := input_links nt surface in
  for_each surface_links links_remove ;;;
  ret (map (fun l => (link_from l, link_to l)) surface_links).

Definition temporary_principled_only_surface (principled_node : option nat)
  : M node_tree (option nat * M node_tree unit) :=
  nt <- get_state ;;
  match first_node_of_type nt "ShaderNodeOutputMaterial", principled_node with
  | None, _ | _, None => ret (None, ret tt)
  | Some output, Some principled =>
      match index_of_input "Surface" (inputs output) with
      | None => raise KeyError
      | Some si =>
          let surface := (node_id output, si) in
          original_links <- detach_surface surface ;;
          emit <- nodes_new "ShaderNodeEmission" ;;
          set_label emit "Principled Only Bake" ;;;
          yield_in_try
            (nt1 <- get_state ;;
             match get_node nt1 principled with
             | None => raise ReferenceError
             | Some p =>
                 (match index_of_output "BSDF" (outputs p) with
                  | Some i => links_new (principled, i) (emit_color emit)
                  | None =>
                      if Nat.ltb 0 (length (outputs p))
                      then links_new (principled, 0%nat) (emit_color emit)
                      else ret tt
                  end) ;;;
                 links_new (emit_emission emit) surface ;;;
                 ret (Some emit)
             end)
            (remove_emit_links emit ;;;
             nodes_remove emit ;;;
             restore_links original_links)
      end
  end.

Definition temporary_custom_shader_only_surface (custom_shader_node : option nat)
  : M node_tree (option nat * M node_tree unit) :=
  nt <- get_state ;;
  match first_node_of_type nt "ShaderNodeOutputMaterial", custom_shader_node with
  | None, _ | _, None => ret (None, ret tt)
  | Some output, Some custom =>
      match index_of_input "Surface" (inputs output) with
      | None => raise KeyError
      | Some si =>
          let surface := (node_id output, si) in
          original_links <- detach_surface surface ;;
          emit <- nodes_new "ShaderNodeEmission" ;;
          set_label emit "Custom Shader Only Bake" ;;;
          yield_in_try
            (nt1 <- get_state ;;
             match get_node nt1 custom with
             | None => raise ReferenceError
             | Some c =>
                 connection_made <-
                   (if String.eqb (bl_idname c) "ShaderNodeNodeGroup" then
                      connect_named_output custom (outputs c) shader_output_names
                                           (emit_color emit)
                    else if String.eqb (bl_idname c) "ShaderNodeEmission" then
                      match index_of_output "Emission" (outputs c) with
                      | Some i => links_new (custom, i) (emit_color emit) ;;; ret true
                      | None => ret false
                      end
                    else
                      match index_of_output "BSDF" (outputs c) with
                      | Some i => links_new (custom, i) (emit_color emit) ;;; ret true
                      | None => ret false
                      end) ;;
                 connection_made <-
                   (if negb connection_made && Nat.ltb 0 (length (outputs c))
                    then links_new (custom, 0%nat) (emit_color emit) ;;; ret true
                    else ret connection_made) ;;
                 if connection_made
                 then links_new (emit_emission emit) surface ;;; ret (Some emit)
                 else ret None
             end)
            (remove_emit_links emit ;;;
             nodes_remove emit ;;;
             restore_links original_links)
      end
  end.

(** [for frm, to in orig_links: if frm.links: nt.links.remove(frm.links[0])]. *)
Definition remove_first_link_of_sources (orig_links : list (socket_ref * socket_ref))
  : M node_tree unit :=
  for_each orig_links
    (fun ft =>
       nt <- get_state ;;
       match output_links nt (fst ft) with
       | first :: _ => links_remove first
       | [] => ret tt
       end).

(** [for n in tmp_nodes: if n.outputs[0].links: remove the first;
    nt.nodes.remove(n)]. *)
Definition remove_tmp_nodes (tmp_nodes : list nat) : M node_tree unit :=
  for_each tmp_nodes
    (fun n =>
       nt <- get_state ;;
       (match output_links nt (n, 0%nat) with
        | first :: _ => links_remove first
        | [] => ret tt
        end) ;;;
       nodes_remove n).

(** [temporary_emission_input(nt, input_name, default_value)].  The
    first [try] catches [KeyError], [AttributeError] and [TypeError]: a
    socket without [default_value] raises the second; assigning three
    floats to the RGBA output raises [ValueError], which is not caught. *)
Definition temporary_emission_input (input_name : string) (default : Q)
  : M node_tree (option (list nat) * M node_tree unit) :=
  nt <- get_state ;;
  match first_node_of_type nt "ShaderNodeOutputMaterial",
        first_node_of_type nt "ShaderNodeBsdfPrincipled" with
  | None, _ | _, None => ret (None, ret tt)
  | Some output, Some principled =>
      match index_of_input input_name (inputs principled) with
      | None => ret (None, ret tt)
      | Some ti =>
          match index_of_input "Surface" (inputs output) with
          | None => raise KeyError
          | Some si =>
              let surface := (node_id output, si) in
              let orig_links :=
                map (fun l => (link_from l, link_to l)) (input_links nt surface) in
              remove_first_link_of_sources orig_links ;;;
              emit <- nodes_new "ShaderNodeEmission" ;;
              tmp_nodes <-
                try_except_of
                  (fun e => match e with
                            | KeyError | AttributeError | TypeError => true
                            | _ => false
                            end)
                  (nt1 <- get_state ;;
                   match input_links nt1 (node_id principled, ti) with
                   | l0 :: _ =>
                       links_new (link_from l0) (emit_color emit) ;;;
                       ret [emit]
                   | [] =>
                       rgb <- nodes_new "ShaderNodeRGB" ;;
                       match option_map default_value (nth_error (inputs principled) ti) with
                       | Some (VColor r g b a) =>
                           set_output_default rgb (VColor r g b a) ;;;
                           links_new (rgb, 0%nat) (emit_color emit) ;;;
                           ret [emit; rgb]
                       | Some (VFloat val) =>
                           set_output_default rgb (VColor val val val 1) ;;;
                           links_new (rgb, 0%nat) (emit_color emit) ;;;
                           ret [emit; rgb]
                       | Some (VVector _ _ _) => raise ValueError
                       | Some VNoValue | None => raise AttributeError
                       end
                   end)
                  (rgb <- nodes_new "ShaderNodeRGB" ;;
                   set_output_default rgb (VColor default default default 1) ;;;
                   links_new (rgb, 0%nat) (emit_color emit) ;;;
                   ret [emit; rgb]) ;;
              links_new (emit_emission emit) surface ;;;
              ret (Some tmp_nodes,
                   remove_tmp_nodes tmp_nodes ;;;
                   restore_links orig_links)
          end
      end
  end.

Definition temporary_emission_metallic
  : M node_tree (option (list nat) * M node_tree unit) :=
  temporary_emission_input "Metallic" 0.

(* ===================================================================== *)
(** * UV storage and UDIM renormalisation *)
(* ===================================================================== *)

(** A face loop of the mesh with its UV coordinate; a face is the list
    of its loops, the mesh the list of its faces.  The [bmesh] the
    functions below walk is taken to be the UV storage of the object: an
    assignment to [loop[uv_layer].uv] followed by [update_edit_mesh] is
    a write to that storage, and the active UV layer exists. *)
Record bm_loop : Type := BMLoop {
  loop_index : nat;
  uv : Q * Q
}.

Definition bm_face : Type := list bm_loop.
Definition bmesh : Type := list bm_face.

(** [bounds['u_min'] <= uv.x < bounds['u_max'] and
     bounds['v_min'] <= uv.y < bounds['v_max']]. *)
Definition in_tile (bounds : tile_bounds) (p : Q * Q) : bool :=
  Qle_bool (tb_u_min bounds) (fst p) && Qlt_bool (fst p) (tb_u_max bounds) &&
  Qle_bool (tb_v_min bounds) (snd p) && Qlt_bool (snd p) (tb_v_max bounds).

Definition normalize_loop (bounds : tile_bounds) (l : bm_loop) : bm_loop :=
  if in_tile bounds (uv l)
  then BMLoop (loop_index l)
              ((fst (uv l) - inject_Z (tb_tile_u bounds))%Q,
               (snd (uv l) - inject_Z (tb_tile_v bounds))%Q)
  else l.

(** [normalize_udim_uvs_for_baking]: the saved coordinates of every
    loop, keyed by loop index, and the mesh with the loops of the tile
    moved into the 0-1 window. *)
Definition normalize_udim_uvs_for_baking (udim_number : Z) (bm : bmesh)
  : gmap nat (Q * Q) * bmesh :=
  let bounds := get_udim_tile_bounds udim_number in
  (fold_left (fun (original_uvs : gmap nat (Q * Q)) l =>
                <[loop_index l := uv l]> original_uvs)
             (concat bm) ∅,
   map (map (normalize_loop bounds)) bm).

Definition restore_loop (original_uvs : gmap nat (Q * Q)) (l : bm_loop) : bm_loop :=
  match original_uvs !! loop_index l with
  | Some p => BMLoop (loop_index l) p
  | None => l
  end.

(** [restore_udim_uvs]. *)
Definition restore_udim_uvs (original_uvs : gmap nat (Q * Q)) (bm : bmesh) : bmesh :=
  if bool_decide (original_uvs = ∅) then bm
  else map (map (restore_loop original_uvs)) bm.

(** The UV samples [detect_udim_tiles] walks over. *)
Definition mesh_uvs (bm : bmesh) : list (Q * Q) := map uv (concat bm).

(* ===================================================================== *)
(** * The bake sweep of [MBNL_OT_bake.execute] *)
(* ===================================================================== *)

(** The operator properties the sweep branches on. *)
Record settings : Type := Settings {
  replace_nodes : bool;
  include_lighting : bool;
  include_basecolor : bool;
  include_roughness : bool;
  include_metallic : bool;
  include_normal : bool;
  include_subsurface : bool;
  include_transmission : bool;
  include_emission : bool;
  include_alpha : bool;
  include_specular : bool;
  include_clearcoat : bool;
  include_clearcoat_roughness : bool;
  include_sheen : bool;
  include_displacement : bool;
  include_ambient_occlusion : bool;
  include_custom_shader : bool;
  mixed_shader_strategy : string;
  enable_udim : bool
}.

(** One entry of [passes]:
    [(suffix, btype, pfilter, alpha, emission_input)]. *)
Record bake_pass : Type := BakePass {
  suffix : string;
  btype : string;
  pfilter : option string;
  alpha : bool;
  emission_input : option string
}.

(** What a persisted buffer holds: pixels computed by the evaluation
    engine, or one RGBA value repeated for every pixel. *)
Inductive buffer_content : Type :=
| Rendered
| Uniform (r g b a : Q).

(** One [img.save()]. *)
Record saved_buffer : Type := SavedBuffer {
  sb_image : nat;
  sb_resolution : Z * Z;
  sb_tile : Z;
  sb_suffix : string;
  sb_content : buffer_content
}.

(** One call of the evaluation engine ([bpy.ops.object.bake]), with the
    wiring and the UV coordinates it sees. *)
Record bake_call : Type := BakeCall {
  bc_type : string;
  bc_use_lighting : bool;
  bc_links : list link;
  bc_uvs : bmesh
}.

(** One run of the "Rebuild material" block: the primary resolution and
    the channels whose buffers it wires. *)
Record rebuild_event : Type := RebuildEvent {
  rb_resolution : Z * Z;
  rb_channels : gmap string nat
}.

(** What the sweep of one material reads and writes. *)
Record bake_state : Type := BakeState {
  tree : node_tree;
  uvs : bmesh;
  images_created : nat;
  saved : list saved_buffer;
  bakes : list bake_call;
  all_baked_images : gmap (Z * Z) (gmap string nat);
  rebuilds : list rebuild_event
}.

Definition set_tree (s : bake_state) (t : node_tree) : bake_state :=
  BakeState t (uvs s) (images_created s) (saved s) (bakes s)
            (all_baked_images s) (rebuilds s).

Definition set_uvs (s : bake_state) (u : bmesh) : bake_state :=
  BakeState (tree s) u (images_created s) (saved s) (bakes s)
            (all_baked_images s) (rebuilds s).

(** Code on the node tree, run on the tree of the material. *)
Definition on_tree {A : Type} (m : M node_tree A) : M bake_state A :=
  fun s =>
    match m (tree s) with
    | (r, t) => (r, set_tree s t)
    end.

(** A context manager on the node tree, for a [with] statement of the
    sweep. *)
Definition cm_on_tree {Y : Type} (cm : M node_tree (Y * M node_tree unit))
  : M bake_state (Y * M bake_state unit) :=
  fun s =>
    match cm (tree s) with
    | (Ok (y, rest), t) => (Ok (y, on_tree rest), set_tree s t)
    | (Raise e, t) => (Raise e, set_tree s t)
    end.

(** [create_input_mapping]: for every key the first candidate among the
    available input names, or the first candidate. *)
Definition mapping_candidates : list (string * list string) :=
  [ ("BaseColor", ["Base Color"; "BaseColor"]);
    ("Metallic", ["Metallic"]);
    ("Roughness", ["Roughness"]);
    ("Subsurface", ["Subsurface"; "Subsurface Weight"; "Subsurface Radius"]);
    ("Transmission", ["Transmission"; "Transmission Weight"]);
    ("Emission", ["Emission"; "Emission Color"]);
    ("Alpha", ["Alpha"]);
    ("Specular", ["Specular"; "Specular IOR"; "IOR"]);
    ("Clearcoat", ["Clearcoat"; "Clearcoat Weight"]);
    ("ClearcoatRoughness", ["Clearcoat Roughness"]);
    ("Sheen", ["Sheen"; "Sheen Weight"]) ].

Definition create_input_mapping (available_inputs : list string)
  : list (string * string) :=
  map (fun kc =>
         (fst kc,
          match find (fun candidate => mem_string candidate available_inputs) (snd kc) with
          | Some candidate => candidate
          | None => hd "" (snd kc)
          end))
      mapping_candidates.

(** [input_mapping.get(key)]. *)
Definition mapping_get (input_mapping : list (string * string)) (key : string)
  : option string :=
  option_map snd (find (fun kv => String.eqb (fst kv) key) input_mapping).

(** [max(resolutions, key=lambda x: x[0] * x[1])]: the first resolution
    of the largest area. *)
Definition primary_resolution_of (resolutions : list (Z * Z)) : Z * Z :=
  match resolutions with
  | [] => (0, 0)
  | r :: rest =>
      fold_left (fun best x => if fst best * snd best <? fst x * snd x then x else best)
                rest r
  end.

(** The skip test on an unlinked constant: within 0.01 of the default
    of the channel.  A colour makes [abs] raise [TypeError], a socket
    without value raises [AttributeError]; both are caught and the
    channel is baked. *)
Definition is_default_constant (suffix : string) (default_val : socket_value) : bool :=
  match default_val with
  | VFloat x =>
      if String.eqb suffix "Metallic" then Qlt_bool (Qabs x) (1 # 100)
      else if String.eqb suffix "Roughness" then Qlt_bool (Qabs (x - (1 # 2))) (1 # 100)
      else if mem_string suffix
                ["Subsurface"; "Transmission"; "Specular"; "Clearcoat"; "Sheen"]
      then Qlt_bool (Qabs x) (1 # 100)
      else false
  | _ => false
  end.

Definition set_input_default (id i : nat) (v : socket_value) : M node_tree unit :=
  update_node id
    (fun n =>
       Node (node_id n) (bl_idname n) (name n) (label n)
            (map (fun ks => if Nat.eqb (fst ks) i
                            then InSocket (in_name (snd ks)) v else snd ks)
                 (combine (seq 0 (length (inputs n))) (inputs n)))
            (outputs n) (image n)).

(** A node with an image assigned. *)
Definition with_image (n : node) : node :=
  Node (node_id n) (bl_idname n) (name n) (label n) (inputs n) (outputs n) true.

Section BakeLoop.

(** The host enters the sweep through four things the source does not
    define: whether the evaluation engine returns or raises on a call,
    the input names of the host's principled node
    ([get_principled_bsdf_inputs]), and the node networks the "Rebuild
    material" block and its fallback create once the tree is cleared
    (their socket lists are those of the host version). *)
Variable render : bake_call -> bool.
Variable available_inputs : list string.
Variable rebuild_nodes : gmap string nat -> M node_tree unit.
Variable restore_basic_nodes : M node_tree unit.

(** [bake_generic]: one call of the evaluation engine on the tree and
    the UV coordinates as they are. *)
Definition bake_generic (bake_type : string) (use_lighting : bool) : M bake_state unit :=
  fun s =>
    let call := BakeCall bake_type use_lighting (links (tree s)) (uvs s) in
    let s' := BakeState (tree s) (uvs s) (images_created s) (saved s)
                        (bakes s ++ [call]) (all_baked_images s) (rebuilds s) in
    if render call then (Ok tt, s') else (Raise RuntimeError, s').

(** [bpy.data.images.new(...)]. *)
Definition images_new : M bake_state nat :=
  fun s =>
    (Ok (images_created s),
     BakeState (tree s) (uvs s) (S (images_created s)) (saved s) (bakes s)
               (all_baked_images s) (rebuilds s)).

(** [bake_node.image = img]: a reference to a node that left the tree
    raises [ReferenceError]. *)
Definition set_bake_node_image (bake_node : nat) : M bake_state unit :=
  s <- get_state ;;
  match get_node (tree s) bake_node with
  | None => raise ReferenceError
  | Some _ => on_tree (update_node bake_node with_image)
  end.

(** [img.save()] and [all_baked_images[resolution_key][suffix] = img]. *)
Definition save_image (img : nat) (resolution_key : Z * Z) (udim_tile : Z)
  (sfx : string) (content : buffer_content) : M bake_state unit :=
  fun s =>
    let saved' := saved s ++ [SavedBuffer img resolution_key udim_tile sfx content] in
    match all_baked_images s !! resolution_key with
    | Some images =>
        (Ok tt,
         BakeState (tree s) (uvs s) (images_created s) saved' (bakes s)
                   (<[resolution_key := <[sfx := img]> images]> (all_baked_images s))
                   (rebuilds s))
    | None =>
        (Raise KeyError,
         BakeState (tree s) (uvs s) (images_created s) saved' (bakes s)
                   (all_baked_images s) (rebuilds s))
    end.

(** A node held by reference, read in the current tree. *)
Definition deref (id : nat) : M bake_state node :=
  s <- get_state ;;
  match get_node (tree s) id with
  | Some n => ret n
  | None => raise ReferenceError
  end.

(** [if emission_input:]: a name that is not empty. *)
Definition truthy_name (o : option string) : option string :=
  match o with
  | Some nm => if String.eqb nm "" then None else Some nm
  | None => None
  end.

(** The pass list of one material. *)
Definition build_passes (st : settings) (a : analysis)
  (input_mapping : list (string * string)) : M bake_state (list bake_pass) :=
  let get := mapping_get input_mapping in
  let basic :=
    (if include_basecolor st then
       if include_lighting st
       then [BakePass "BaseColor" "COMBINED" None true None]
       else [BakePass "BaseColor" "EMIT" None true (get "BaseColor")]
     else []) ++
    (if include_roughness st then
       if mem_string (material_type a) ["procedural"; "default"] &&
          negb (has_image_textures a)
       then [BakePass "Roughness" "EMIT" None false (get "Roughness")]
       else [BakePass "Roughness" "ROUGHNESS" None false None]
     else []) ++
    (if include_metallic st
     then [BakePass "Metallic" "EMIT" None false (get "Metallic")] else []) ++
    (if include_normal st
     then [BakePass "Normal" "NORMAL" None false None] else []) ++
    (if include_subsurface st
     then [BakePass "Subsurface" "EMIT" None false (get "Subsurface")] else []) ++
    (if include_transmission st
     then [BakePass "Transmission" "EMIT" None false (get "Transmission")] else []) ++
    (if include_emission st
     then [BakePass "Emission" "EMIT" None false (get "Emission")] else []) ++
    (if include_alpha st
     then [BakePass "Alpha" "EMIT" None false (get "Alpha")] else []) ++
    (if include_specular st
     then [BakePass "Specular" "EMIT" None false (get "Specular")] else []) ++
    (if include_clearcoat st
     then [BakePass "Clearcoat" "EMIT" None false (get "Clearcoat")] else []) ++
    (if include_clearcoat_roughness st
     then [BakePass "ClearcoatRoughness" "EMIT" None false (get "ClearcoatRoughness")]
     else []) ++
    (if include_sheen st
     then [BakePass "Sheen" "EMIT" None false (get "Sheen")] else []) ++
    (if include_displacement st
     then [BakePass "Displacement" "EMIT" None false None] else []) ++
    (if include_ambient_occlusion st
     then [BakePass "AO" "AO" None false None] else []) in
  if include_custom_shader st then
    match output_node a with
    | Some oid =>
        out <- deref oid ;;
        match index_of_input "Surface" (inputs out) with
        | None => raise KeyError
        | Some si =>
            s <- get_state ;;
            if is_linked (tree s) (oid, si)
            then ret (basic ++ [BakePass "CustomShader" "EMIT" None true None])
            else ret basic
        end
    | None => ret basic
    end
  else ret basic.

(** "Adjust baking strategy based on material type": [should_bake]. *)
Definition should_bake (a : analysis) (p : bake_pass) : M bake_state bool :=
  if mem_string (material_type a) ["procedural"; "default"] &&
     negb (has_image_textures a)
  then
    match truthy_name (emission_input p), principled_node a with
    | Some nm, Some pid =>
        principled <- deref pid ;;
        match index_of_input nm (inputs principled) with
        | Some i =>
            s <- get_state ;;
            if is_linked (tree s) (pid, i) then ret true
            else
              match nth_error (inputs principled) i with
              | Some input_socket =>
                  ret (negb (is_default_constant (suffix p) (default_value input_socket)))
              | None => ret true
              end
        | None => ret true
        end
    | _, _ => ret true
    end
  else ret true.

(** [with temporary_emission_surface(nt) as temp_emit:
       if temp_emit: self.bake_generic(...)]. *)
Definition bake_full_surface (p : bake_pass) : M bake_state unit :=
  with_ (cm_on_tree temporary_emission_surface)
    (fun temp_emit =>
       match temp_emit with
       | Some _ => bake_generic (btype p) false
       | None => ret tt
       end).

(** The custom-shader channel. *)
Definition bake_custom_shader (st : settings) (a : analysis) (p : bake_pass)
  : M bake_state unit :=
  if mem_string (material_type a)
       ["mixed_shader_network"; "principled_with_custom"; "custom_with_principled"]
  then
    if String.eqb (mixed_shader_strategy st) "PRINCIPLED_ONLY" then
      match principled_node a with
      | Some principled =>
          with_ (cm_on_tree (temporary_principled_only_surface (Some principled)))
            (fun temp_emit =>
               match temp_emit with
               | Some _ => bake_generic (btype p) false
               | None => bake_full_surface p
               end)
      | None => bake_full_surface p
      end
    else if String.eqb (mixed_shader_strategy st) "CUSTOM_ONLY" then
      match custom_shaders a with
      | first_custom :: _ =>
          with_ (cm_on_tree (temporary_custom_shader_only_surface (Some (cs_node first_custom))))
            (fun temp_emit =>
               match temp_emit with
               | Some _ => bake_generic (btype p) false
               | None => bake_full_surface p
               end)
      | [] => bake_full_surface p
      end
    else bake_full_surface p
  else
    (match output_node a with
     | Some oid =>
         out <- deref oid ;;
         match index_of_input "Surface" (inputs out) with
         | None => raise KeyError
         | Some _ => ret tt
         end
     | None => ret tt
     end) ;;;
    bake_full_surface p.

(** The base-colour channel with lighting: a high constant Metallic is
    lowered for the bake and put back afterwards. *)
Definition bake_lighting_basecolor (a : analysis) (p : bake_pass) : M bake_state unit :=
  match principled_node a with
  | Some pid =>
      principled <- deref pid ;;
      s <- get_state ;;
      let metallic :=
        match index_of_input "Metallic" (inputs principled) with
        | Some i =>
            if is_linked (tree s) (pid, i) then None
            else option_map (fun sock => (i, default_value sock))
                            (nth_error (inputs principled) i)
        | None => None
        end in
      try_finally
        ((match metallic with
          | Some (i, VFloat original_metallic) =>
              if Qlt_bool (8 # 10) original_metallic
              then on_tree (set_input_default pid i (VFloat (2 # 10)))
              else ret tt
          | Some (_, VNoValue) => raise AttributeError
          | Some (_, _) => raise TypeError
          | None => ret tt
          end) ;;;
         bake_generic (btype p) true)
        (match metallic with
         | Some (i, original_metallic) =>
             on_tree (set_input_default pid i original_metallic)
         | None => ret tt
         end)
  | None => bake_generic (btype p) true
  end.

(** The [if should_bake:] branch: evaluate, save, record; a failure is
    reported and the channel is given up. *)
Definition bake_channel (st : settings) (a : analysis) (resolution_key : Z * Z)
  (udim_tile : Z) (p : bake_pass) (img : nat) : M bake_state unit :=
  try_except
    (let is_lighting_basecolor := String.eqb (suffix p) "BaseColor" && include_lighting st in
     let is_custom_shader := String.eqb (suffix p) "CustomShader" in
     (if is_custom_shader then bake_custom_shader st a p
      else
        match truthy_name (emission_input p) with
        | Some nm =>
            if negb is_lighting_basecolor
            then with_ (cm_on_tree (temporary_emission_input nm 0))
                       (fun _ => bake_generic (btype p) false)
            else bake_lighting_basecolor a p
        | None =>
            if is_lighting_basecolor then bake_lighting_basecolor a p
            else bake_generic (btype p) false
        end) ;;;
     save_image img resolution_key udim_tile (suffix p) Rendered)
    (ret tt).

(** The [else:] branch: "for skipped channels, create a solid colour
    image" from the unlinked constant of the input. *)
Definition fill_channel (a : analysis) (resolution_key : Z * Z)
  (udim_tile : Z) (p : bake_pass) (img : nat) : M bake_state unit :=
  try_except
    (match principled_node a, truthy_name (emission_input p) with
     | Some pid, Some nm =>
         principled <- deref pid ;;
         match index_of_input nm (inputs principled) with
         | Some i =>
             s <- get_state ;;
             if is_linked (tree s) (pid, i) then ret tt
             else
               match option_map default_value (nth_error (inputs principled) i) with
               | Some (VColor r g b _) | Some (VVector r g b) =>
                   save_image img resolution_key udim_tile (suffix p) (Uniform r g b 1)
               | Some (VFloat x) =>
                   save_image img resolution_key udim_tile (suffix p) (Uniform x x x 1)
               | Some VNoValue | None => raise AttributeError
               end
         | None => ret tt
         end
     | _, _ => ret tt
     end)
    (ret tt).

(** The body of [for suffix, btype, pfilter, alpha, emission_input in
    passes].  File names and colour spaces do not enter the control
    flow and are left out. *)
Definition channel_step (st : settings) (a : analysis) (bake_node : nat)
  (resolution_key : Z * Z) (udim_tile : Z) (p : bake_pass) : M bake_state unit :=
  img <- images_new ;;
  set_bake_node_image bake_node ;;;
  sb <- should_bake a p ;;
  if sb then bake_channel st a resolution_key udim_tile p img
  else fill_channel a resolution_key udim_tile p img.

(** The body of [for udim_tile in udim_tiles]. *)
Definition tile_block (st : settings) (a : analysis) (bake_node : nat)
  (passes : list bake_pass) (udim_tiles : list Z)
  (resolution_key : Z * Z) (udim_tile : Z) : M bake_state unit :=
  original_uvs <-
    (if enable_udim st && Nat.ltb 1 (length udim_tiles) then
       if negb (udim_tile =? 1001) then
         fun s =>
           let '(original_uvs, bm) := normalize_udim_uvs_for_baking udim_tile (uvs s) in
           (Ok original_uvs, set_uvs s bm)
       else ret ∅
     else ret ∅) ;;
  try_finally
    (try_except
       (for_each passes (channel_step st a bake_node resolution_key udim_tile))
       (ret tt))
    (fun s => (Ok tt, set_uvs s (restore_udim_uvs original_uvs (uvs s)))).

(** The "Rebuild material if requested" block. *)
Definition rebuild_material (st : settings) (primary_resolution : Z * Z)
  : M bake_state unit :=
  s <- get_state ;;
  let primary_baked_images :=
    default ∅ (all_baked_images s !! primary_resolution) in
  if replace_nodes st && negb (bool_decide (primary_baked_images = ∅)) then
    (fun s' =>
       (Ok tt,
        BakeState (tree s') (uvs s') (images_created s') (saved s') (bakes s')
                  (all_baked_images s')
                  (rebuilds s' ++ [RebuildEvent primary_resolution primary_baked_images]))) ;;;
    try_except
      (on_tree (nodes_clear ;;; rebuild_nodes primary_baked_images))
      (try_except (on_tree (nodes_clear ;;; restore_basic_nodes)) (ret tt))
  else ret tt.

(** "Clean up bake node". *)
Definition cleanup_bake_node (bake_node : nat) : M bake_state unit :=
  s <- get_state ;;
  match get_node (tree s) bake_node with
  | Some n =>
      if String.eqb (bl_idname n) "ShaderNodeTexImage"
      then on_tree (nodes_remove bake_node)
      else ret tt
  | None => ret tt
  end.

(** The body of [for res_idx, (width, height) in enumerate(resolutions)]:
    the bake of every tile and channel, then the rebuild block and the
    clean-up of the bake node, both of which stand inside the loop. *)
Definition resolution_block (st : settings) (a : analysis) (bake_node : nat)
  (passes : list bake_pass) (udim_tiles : list Z) (primary_resolution : Z * Z)
  (resolution_key : Z * Z) : M bake_state unit :=
  try_except
    ((fun s =>
        match all_baked_images s !! resolution_key with
        | Some _ => (Ok tt, s)
        | None =>
            (Ok tt,
             BakeState (tree s) (uvs s) (images_created s) (saved s) (bakes s)
                       (<[resolution_key := ∅]> (all_baked_images s)) (rebuilds s))
        end) ;;;
     for_each udim_tiles (tile_block st a bake_node passes udim_tiles resolution_key))
    (ret tt) ;;;
  rebuild_material st primary_resolution ;;;
  cleanup_bake_node bake_node.

(** The sweep of one material slot, from the analysis on. *)
Definition bake_material (st : settings) (udim_tiles : list Z)
  (resolutions : list (Z * Z)) : M bake_state unit :=
  s0 <- get_state ;;
  let a := analyze_material (Some (Material true (Some (tree s0)))) in
  bake_node <- on_tree (nodes_new "ShaderNodeTexImage") ;;
  (fun s =>
     (Ok tt,
      BakeState (tree s) (uvs s) (images_created s) (saved s) (bakes s) ∅ (rebuilds s))) ;;;
  let primary_resolution := primary_resolution_of resolutions in
  let input_mapping := create_input_mapping available_inputs in
  passes <- build_passes st a input_mapping ;;
  for_each resolutions
    (resolution_block st a bake_node passes udim_tiles primary_resolution).

End BakeLoop.

(* ===================================================================== *)
(** * Sample graphs *)
(* ===================================================================== *)

Definition principled_bsdf (id : nat) (base_color : socket_value)
  (metallic roughness specular : Q) : node :=
  Node id "ShaderNodeBsdfPrincipled" "Principled BSDF" ""
       [ InSocket "Base Color" base_color;
         InSocket "Metallic" (VFloat metallic);
         InSocket "Roughness" (VFloat roughness);
         InSocket "Specular" (VFloat specular);
         InSocket "Normal" (VVector 0 0 0) ]
       [ OutSocket "BSDF" VNoValue ] false.

Definition default_base_color : socket_value := VColor (8 # 10) (8 # 10) (8 # 10) 1.

Definition material_output (id : nat) : node :=
  Node id "ShaderNodeOutputMaterial" "Material Output" ""
       [ InSocket "Surface" VNoValue; InSocket "Volume" VNoValue;
         InSocket "Displacement" (VVector 0 0 0) ]
       [] false.

Definition mix_shader (id : nat) : node :=
  Node id "ShaderNodeMixShader" "Mix Shader" ""
       [ InSocket "Fac" (VFloat (1 # 2)); InSocket "Shader" VNoValue;
         InSocket "Shader" VNoValue ]
       [ OutSocket "Shader" VNoValue ] false.

Definition emission_shader (id : nat) : node :=
  Node id "ShaderNodeEmission" "Emission" ""
       [ InSocket "Color" (VColor 1 1 1 1); InSocket "Strength" (VFloat 1) ]
       [ OutSocket "Emission" VNoValue ] false.

Definition image_texture (id : nat) : node :=
  Node id "ShaderNodeTexImage" "Image Texture" ""
       [ InSocket "Vector" (VVector 0 0 0) ]
       [ OutSocket "Color" (VColor 0 0 0 1); OutSocket "Alpha" (VFloat 1) ] true.



(** sink <- mix <- {principled, emission}. *)
Definition mixed_network_graph : node_tree :=
  NodeTree [material_output 0; mix_shader 1;
            principled_bsdf 2 default_base_color 0 (1 # 2) (1 # 2); emission_shader 3]
           [Link 2 0 1 1; Link 3 0 1 2; Link 1 0 0 0] 4.

(** An image texture on Base Color, the principled node on the sink. *)
Definition textured_graph : node_tree :=
  NodeTree [material_output 0; principled_bsdf 1 default_base_color 0 (1 # 2) (1 # 2);
            image_texture 2]
           [Link 2 0 1 0; Link 1 0 0 0] 3.

(** Constants only: red Base Color, Metallic 0.0, Roughness 0.5 and a
    Specular of 0.8. *)
Definition procedural_graph : node_tree :=
  NodeTree [material_output 0; principled_bsdf 1 (VColor 1 0 0 1) 0 (1 # 2) (8 # 10)]
           [Link 1 0 0 0] 2.

(** The principled node's BSDF output feeds a mix shader (the older
    link) and the sink. *)
Definition shared_output_graph : node_tree :=
  NodeTree [material_output 0; mix_shader 1;
            principled_bsdf 2 default_base_color 0 (1 # 2) (1 # 2)]
           [Link 2 0 1 1; Link 2 0 0 0] 3.

(** The input names of the sample principled node. *)
Definition sample_inputs : list string :=
  ["Base Color"; "Metallic"; "Roughness"; "Specular"; "Normal"].

(** An evaluation engine that always returns. *)
Definition render_ok (call : bake_call) : bool := true.

(** A rebuilt network reduced to a principled node on a sink. *)
Definition basic_nodes : M node_tree unit :=
  fun nt =>
    let p := next_id nt in
    let o := S p in
    (Ok tt,
     NodeTree (nodes nt ++ [principled_bsdf p default_base_color 0 (1 # 2) (1 # 2);
                            material_output o])
              (links nt ++ [Link p 0 o 0]) (S o)).

Definition initial_bake_state (nt : node_tree) (bm : bmesh) : bake_state :=
  BakeState nt bm 0 [] [] ∅ [].

(** Base colour and roughness, node replacement on. *)
Definition two_channel_settings : settings :=
  {| replace_nodes := true; include_lighting := false;
     include_basecolor := true; include_roughness := true;
     include_metallic := false; include_normal := false;
     include_subsurface := false; include_transmission := false;
     include_emission := false; include_alpha := false;
     include_specular := false; include_clearcoat := false;
     include_clearcoat_roughness := false; include_sheen := false;
     include_displacement := false; include_ambient_occlusion := false;
     include_custom_shader := false; mixed_shader_strategy := "SURFACE_OUTPUT";
     enable_udim := false |}.


(** A mesh of one triangle lying in tile 1002. *)
Definition tile_1002_mesh : bmesh :=
  [[BMLoop 0 (3 # 2, 1 # 2); BMLoop 1 (7 # 4, 1 # 2); BMLoop 2 (3 # 2, 3 # 4)]].

(** The run of the sweep on a sample graph. *)
Definition sample_run (st : settings) (udim_tiles : list Z)
  (resolutions : list (Z * Z)) (nt : node_tree) (bm : bmesh) : bake_state :=
  snd (bake_material render_ok sample_inputs (fun _ => basic_nodes) basic_nodes
         st udim_tiles resolutions (initial_bake_state nt bm)).

(* ===================================================================== *)
(** * Predicates the statements use *)
(* ===================================================================== *)

(** The graph has no sink, or its sink's Surface input has no link. *)
Definition sink_missing_or_unlinked (nt : node_tree) : Prop :=
  first_node_of_type nt "ShaderNodeOutputMaterial" = None \/
  exists out si,
    first_node_of_type nt "ShaderNodeOutputMaterial" = Some out /\
    index_of_input "Surface" (inputs out) = Some si /\
    input_links nt (node_id out, si) = [].


(** The probe kinds of a probe transaction. *)
Inductive probe_spec : Type :=
| FullSurface
| SingleInput (input_name : string) (default : Q)
| PrincipledOnly (principled_node : option nat)
| CustomShaderOnly (custom_shader_node : option nat).

Definition map_yield {S Y Z : Type} (f : Y -> Z) (cm : M S (Y * M S unit))
  : M S (Z * M S unit) :=
  yr <- cm ;;
  ret (f (fst yr), snd yr).

(** The context manager of a probe kind; what it yields is the list of
    the synthetic nodes it hands to the body, or [None]. *)
Definition open_probe (p : probe_spec)
  : M node_tree (option (list nat) * M node_tree unit) :=
  match p with
  | FullSurface =>
      map_yield (option_map (fun emit => [emit])) temporary_emission_surface
  | SingleInput input_name default =>
      temporary_emission_input input_name default
  | PrincipledOnly principled_node =>
      map_yield (option_map (fun emit => [emit]))
                (temporary_principled_only_surface principled_node)
  | CustomShaderOnly custom_shader_node =>
      map_yield (option_map (fun emit => [emit]))
                (temporary_custom_shader_only_surface custom_shader_node)
  end.

(** The target of a probe is missing. *)
Definition target_missing (p : probe_spec) (nt : node_tree) : Prop :=
  match p with
  | FullSurface => sink_missing_or_unlinked nt
  | SingleInput input_name _ =>
      first_node_of_type nt "ShaderNodeOutputMaterial" = None \/
      first_node_of_type nt "ShaderNodeBsdfPrincipled" = None \/
      exists principled,
        first_node_of_type nt "ShaderNodeBsdfPrincipled" = Some principled /\
        index_of_input input_name (inputs principled) = None
  | PrincipledOnly node_ref | CustomShaderOnly node_ref =>
      first_node_of_type nt "ShaderNodeOutputMaterial" = None \/ node_ref = None
  end.

(** The three resolutions of the multi-resolution scenario, in the
    order [execute] sorts them (by area). *)
Definition three_resolutions : list (Z * Z) :=
  [(512, 512); (1024, 1024); (2048, 2048)].

(** What was persisted: resolution and channel of every saved buffer. *)
Definition persisted (s : bake_state) : list ((Z * Z) * string) :=
  map (fun b => (sb_resolution b, sb_suffix b)) (saved s).


(** The step from [s] to [s'] leaves the UV storage alone and calls the
    engine only on the UV storage of [s]. *)
Definition uv_frame (s s' : bake_state) : Prop :=
  uvs s' = uvs s /\
  exists calls, bakes s' = bakes s ++ calls /\
                Forall (fun c => bc_uvs c = uvs s) calls.

Definition keeps_uvs {A : Type} (m : M bake_state A) : Prop :=
  forall s, uv_frame s (snd (m s)).






(** ** Well-formed trees and the probe invariant *)

(** Every link joins sockets of the tree. *)
Definition links_resolved (nt : node_tree) : Prop :=
  forall l, In l (links nt) ->
    has_output nt (link_from l) = true /\ has_input nt (link_to l) = true.

(** Node identities are below the next identity. *)
Definition ids_below (nt : node_tree) : Prop :=
  forall n, In n (nodes nt) -> (node_id n < next_id nt)%nat.

(** An input socket takes one link at most. *)
Definition link_limit (nt : node_tree) : Prop :=
  forall s, (length (input_links nt s) <= 1)%nat.

(** The trees the host builds. *)
Definition well_formed (nt : node_tree) : Prop :=
  links_resolved nt /\ ids_below nt /\ link_limit nt.

(** The same, as a test. *)
Definition check_well_formed (nt : node_tree) : bool :=
  forallb (fun l => has_output nt (link_from l) && has_input nt (link_to l) &&
                    Nat.leb (length (input_links nt (link_to l))) 1)
          (links nt) &&
  forallb (fun n => Nat.ltb (node_id n) (next_id nt)) (nodes nt).

(** Partial correctness of code on the tree: from a state of [P] the
    code ends in [Q] when it returns and in [E] when it raises. *)
Definition hoare {A : Type} (P : node_tree -> Prop) (m : M node_tree A)
  (Q : A -> node_tree -> Prop) (E : node_tree -> Prop) : Prop :=
  forall s, P s ->
    match m s with
    | (Ok a, s') => Q a s'
    | (Raise _, s') => E s'
    end.

(** The links of [nt] that do not go into [surface]. *)
Definition detached (surface : socket_ref) (nt : node_tree) : list link :=
  List.filter (fun l => negb (into surface l)) (links nt).

(** The invariant of a probe between its set-up and its clean-up: the
    nodes of [nt] followed by synthetic nodes, the links [base] followed
    by links that all touch the Emission node, whose identity is the
    first fresh one. *)
Definition synthetic (nt : node_tree) (base : list link) (s : node_tree) : Prop :=
  (next_id nt < next_id s)%nat /\
  (exists added, nodes s = nodes nt ++ added /\
                 Forall (fun n => (next_id nt <= node_id n)%nat) added) /\
  (exists extra, links s = base ++ extra /\
                 Forall (fun l => touches (next_id nt) l = true) extra).

(** Two trees have the same set of links. *)
Definition same_links (a b : node_tree) : Prop :=
  forall l, In l (links a) <-> In l (links b).

(** The body of a [with] statement leaves the tree as it is (the
    evaluation engine reads the graph). *)
Definition keeps_tree {Y A : Type} (body : Y -> M node_tree A) : Prop :=
  forall y s, snd (body y s) = s.

(* ===================================================================== *)
(** * Text and preset files *)
(* ===================================================================== *)

(** A Python [str] that holds text of the user: a sequence of code
    points. *)
Definition pystr : Type := list N.

(** A string literal of the source as a [str]. *)
Definition str (s : string) : pystr := map N_of_ascii (list_ascii_of_string s).

(** What a preset file holds for one key: the values [json.dump] writes
    and [json.load] reads back as they were. *)
Inductive json_value : Type :=
| JBool (b : bool)
| JInt (z : Z)
| JStr (s : pystr).

(** The registered properties of the scene, by name. *)
Definition scene_props : Type := string -> json_value.

Definition set_prop (name : string) (v : json_value) (scene : scene_props) : scene_props :=
  fun n => if String.eqb n name then v else scene n.

(** The scene property behind a key of the settings dictionary. *)
Definition prop_of (key : string) : string := "mbnl_" ++ key.

(** The JSON files of the presets folder, by file name. *)
Definition preset_files : Type := gmap pystr (gmap string json_value).

Inductive operator_result : Type :=
| FINISHED
| CANCELLED.

(** The keys [MBNL_OT_save_preset.execute] collects and the keys
    [MBNL_OT_load_preset.execute] applies, in the order of the source
    ([src/__init__.py]). *)
Definition saved_keys : list string :=
  [ "resolution"; "replace_nodes"; "include_lighting"; "lighting_shadow_mode";
    "organize_folders"; "use_custom_directory"; "custom_directory";
    "enable_multi_resolution"; "res_512"; "res_1024"; "res_2048"; "res_4096"; "res_8192";
    "enable_custom_resolution"; "custom_width_1"; "custom_height_1"; "custom_width_2";
    "custom_height_2"; "custom_width_3"; "custom_height_3"; "use_custom_1"; "use_custom_2";
    "use_custom_3"; "include_basecolor"; "include_roughness"; "include_metallic";
    "include_normal"; "include_subsurface"; "include_transmission"; "include_emission";
    "include_alpha"; "include_specular"; "include_clearcoat";
    "include_clearcoat_roughness"; "include_sheen"; "include_displacement";
    "include_ambient_occlusion"; "include_custom_shader"; "mixed_shader_strategy";
    "colorspace_mode"; "colorspace_basecolor"; "colorspace_normal";
    "colorspace_roughness"; "colorspace_emission"; "colorspace_manual_override" ].

Definition loaded_keys : list string :=
  [ "resolution"; "replace_nodes"; "include_lighting"; "lighting_shadow_mode";
    "organize_folders"; "use_custom_directory"; "custom_directory";
    "enable_multi_resolution"; "res_512"; "res_1024"; "res_2048"; "res_4096"; "res_8192";
    "enable_custom_resolution"; "custom_width_1"; "custom_height_1"; "custom_width_2";
    "custom_height_2"; "custom_width_3"; "custom_height_3"; "use_custom_1"; "use_custom_2";
    "use_custom_3"; "include_basecolor"; "include_roughness"; "include_metallic";
    "include_normal"; "include_subsurface"; "include_transmission"; "include_emission";
    "include_alpha"; "include_specular"; "include_clearcoat";
    "include_clearcoat_roughness"; "include_sheen"; "include_displacement";
    "include_ambient_occlusion"; "include_custom_shader"; "mixed_shader_strategy";
    "colorspace_mode"; "colorspace_basecolor"; "colorspace_normal";
    "colorspace_roughness"; "colorspace_emission"; "colorspace_manual_override" ].

(** The same two lists in [src/unnamed/part_000]: the shadow mode is
    not collected, the colour-space settings are not applied. *)
Definition saved_keys_part_000 : list string :=
  [ "resolution"; "replace_nodes"; "include_lighting";
    "organize_folders"; "use_custom_directory"; "custom_directory";
    "enable_multi_resolution"; "res_512"; "res_1024"; "res_2048"; "res_4096"; "res_8192";
    "enable_custom_resolution"; "custom_width_1"; "custom_height_1"; "custom_width_2";
    "custom_height_2"; "custom_width_3"; "custom_height_3"; "use_custom_1"; "use_custom_2";
    "use_custom_3"; "include_basecolor"; "include_roughness"; "include_metallic";
    "include_normal"; "include_subsurface"; "include_transmission"; "include_emission";
    "include_alpha"; "include_specular"; "include_clearcoat";
    "include_clearcoat_roughness"; "include_sheen"; "include_displacement";
    "include_ambient_occlusion"; "include_custom_shader"; "mixed_shader_strategy";
    "colorspace_mode"; "colorspace_basecolor"; "colorspace_normal";
    "colorspace_roughness"; "colorspace_emission"; "colorspace_manual_override" ].

Definition loaded_keys_part_000 : list string :=
  [ "resolution"; "replace_nodes"; "include_lighting"; "lighting_shadow_mode";
    "organize_folders"; "use_custom_directory"; "custom_directory";
    "enable_multi_resolution"; "res_512"; "res_1024"; "res_2048"; "res_4096"; "res_8192";
    "enable_custom_resolution"; "custom_width_1"; "custom_height_1"; "custom_width_2";
    "custom_height_2"; "custom_width_3"; "custom_height_3"; "use_custom_1"; "use_custom_2";
    "use_custom_3"; "include_basecolor"; "include_roughness"; "include_metallic";
    "include_normal"; "include_subsurface"; "include_transmission"; "include_emission";
    "include_alpha"; "include_specular"; "include_clearcoat";
    "include_clearcoat_roughness"; "include_sheen"; "include_displacement";
    "include_ambient_occlusion"; "include_custom_shader"; "mixed_shader_strategy" ].

(** [s.lstrip()] and [s.strip()] for a whitespace test [isspace]. *)
Fixpoint lstrip (isspace : N -> bool) (s : pystr) : pystr :=
  match s with
  | [] => []
  | c :: s' => if isspace c then lstrip isspace s' else s
  end.

Definition strip (isspace : N -> bool) (s : pystr) : pystr :=
  rev (lstrip isspace (rev (lstrip isspace s))).


Section Presets.

(** The host enters through the character classes of [str.isalnum] and
    [str.isspace], through whether a preset file can be opened for
    writing, and through whether a scene property accepts a value. *)
Variable isalnum : N -> bool.
Variable isspace : N -> bool.
Variable writable : pystr -> bool.
Variable accepts : string -> json_value -> bool.

(** "Clean preset name": [c.isalnum() or c in (' ', '-', '_')], then
    [strip()]. *)
Definition safe_preset_name (preset_name : pystr) : pystr :=
  strip isspace
    (List.filter (fun c => isalnum c || existsb (N.eqb c) [32%N; 45%N; 95%N]) preset_name).

(** [get_preset_filepath], inside the presets folder. *)
Definition get_preset_filepath (preset_name : pystr) : pystr :=
  preset_name ++ str ".json".

Definition save_preset_to_file (preset_name : pystr) (settings : gmap string json_value)
  (files : preset_files) : bool * preset_files :=
  let filepath := get_preset_filepath preset_name in
  if writable filepath then (true, <[filepath := settings]> files) else (false, files).

Definition load_preset_from_file (preset_name : pystr) (files : preset_files)
  : option (gmap string json_value) :=
  files !! get_preset_filepath preset_name.



(** The dictionary literal of [MBNL_OT_save_preset.execute]. *)
Definition collect_settings (keys : list string) (scene : scene_props)
  : gmap string json_value :=
  list_to_map (map (fun key => (key, scene (prop_of key))) keys).

Definition save_preset_execute (keys : list string) (preset_name : pystr)
  (scene : scene_props) (files : preset_files)
  : operator_result * scene_props * preset_files :=
  match strip isspace preset_name with
  | [] => (CANCELLED, scene, files)
  | _ :: _ =>
      let safe_name := safe_preset_name preset_name in
      match safe_name with
      | [] => (CANCELLED, scene, files)
      | _ :: _ =>
          let settings := collect_settings keys scene in
          let '(saved, files') := save_preset_to_file safe_name settings files in
          if saved
          then (FINISHED, set_prop "mbnl_preset_list" (JStr safe_name) scene, files')
          else (CANCELLED, scene, files')
      end
  end.

(** The chain of [if key in settings: scene.mbnl_key = settings[key]];
    an assignment the property refuses raises, and the operator is
    cancelled with the assignments made so far. *)
Fixpoint apply_settings (keys : list string) (settings : gmap string json_value)
  (scene : scene_props) : operator_result * scene_props :=
  match keys with
  | [] => (FINISHED, scene)
  | key :: keys' =>
      match settings !! key with
      | Some v =>
          if accepts (prop_of key) v
          then apply_settings keys' settings (set_prop (prop_of key) v scene)
          else (CANCELLED, scene)
      | None => apply_settings keys' settings scene
      end
  end.

Definition load_preset_execute (keys : list string) (scene : scene_props)
  (files : preset_files) : operator_result * scene_props :=
  match scene "mbnl_preset_list" with
  | JStr preset_list =>
      if bool_decide (preset_list = str "NONE") then (CANCELLED, scene)
      else
        match load_preset_from_file preset_list files with
        | None => (CANCELLED, scene)
        | Some settings =>
            if bool_decide (settings = ∅) then (CANCELLED, scene)
            else apply_settings keys settings scene
        end
  | _ => (CANCELLED, scene)
  end.

End Presets.

(** A host for the examples: ASCII letters and digits, the ASCII
    whitespace, a folder that can be written, properties that accept
    what they are given. *)
Definition ascii_isalnum (c : N) : bool :=
  ((48 <=? c) && (c <=? 57) || (65 <=? c) && (c <=? 90) || (97 <=? c) && (c <=? 122))%N.

Definition ascii_isspace (c : N) : bool :=
  ((c =? 32) || (9 <=? c) && (c <=? 13))%N.

Definition sample_scene : scene_props :=
  fun name =>
    if String.eqb name "mbnl_resolution" then JInt 4096
    else if String.eqb name "mbnl_colorspace_mode" then JStr (str "CUSTOM")
    else if String.eqb name "mbnl_preset_list" then JStr (str "NONE")
    else JBool true.

(* ===================================================================== *)
(** * Path display and the render settings of [bake_generic] *)
(* ===================================================================== *)

(** [str(text).encode('utf-8', errors='ignore').decode('utf-8')]: the
    code points UTF-8 cannot encode, the surrogates, are dropped. *)
Definition is_surrogate (c : N) : bool := ((55296 <=? c) && (c <=? 57343))%N.

(** [safe_encode_text] on a [str]. *)
Definition safe_encode_text (text fallback : pystr) : pystr :=
  match text with
  | [] => fallback
  | _ :: _ => List.filter (fun c => negb (is_surrogate c)) text
  end.

(** [s[start:]]. *)
Definition slice_from (start : Z) (s : pystr) : pystr :=
  if start <? 0
  then drop (Z.to_nat (Z.max 0 (Z.of_nat (length s) + start))) s
  else drop (Z.to_nat start) s.

(** [safe_path_display] on a [str]. *)
Definition safe_path_display (path : pystr) (max_length : Z) : pystr :=
  match path with
  | [] => str "No path set"
  | _ :: _ =>
      let safe_path := safe_encode_text path (str "Unknown") in
      if max_length <? Z.of_nat (length safe_path)
      then str "..." ++ slice_from (- (max_length - 3)) safe_path
      else safe_path
  end.

Module RenderScene.

(** An object of the scene: its type and the data block it uses. *)
Record scene_object : Type := SceneObject {
  obj_type : string;
  obj_data : option nat
}.

(** The part of the scene [bake_generic] reads and writes.  Light data
    blocks are held by identity, and objects may share one;
    [light_data] gives [use_shadow] of a block, [None] for a block
    without that attribute. *)
Record scene : Type := Scene {
  cycles_bake_type : string;
  use_pass_direct : bool;
  use_pass_indirect : bool;
  use_pass_color : bool;
  normal_space : string;
  normal_r : string;
  normal_g : string;
  normal_b : string;
  max_bounces : Z;
  objects : list scene_object;
  light_data : gmap nat (option bool)
}.

Definition set_light_data (sc : scene) (d : gmap nat (option bool)) : scene :=
  Scene (cycles_bake_type sc) (use_pass_direct sc) (use_pass_indirect sc) (use_pass_color sc)
        (normal_space sc) (normal_r sc) (normal_g sc) (normal_b sc) (max_bounces sc)
        (objects sc) d.

(** The data blocks of the lights, in the order of [scene.objects]. *)
Definition lights (sc : scene) : list nat :=
  omap (fun o => if String.eqb (obj_type o) "LIGHT" then obj_data o else None) (objects sc).

(** "No shadows mode": the shadow flag of every light is recorded and
    switched off. *)
Definition disable_shadows (ds : list nat) (data : gmap nat (option bool))
  : gmap nat (option bool) * list (nat * bool) :=
  fold_left
    (fun '(data, original_light_settings) d =>
       match data !! d with
       | Some (Some use_shadow) =>
           (<[d := Some false]> data, original_light_settings ++ [(d, use_shadow)])
       | _ => (data, original_light_settings ++ [(d, true)])
       end)
    ds (data, []).

(** "Restore original light settings". *)
Definition restore_shadows (original_light_settings : list (nat * bool))
  (data : gmap nat (option bool)) : gmap nat (option bool) :=
  fold_left
    (fun data '(d, cast_shadow) =>
       match data !! d with
       | Some (Some _) => <[d := Some cast_shadow]> data
       | _ => data
       end)
    original_light_settings data.

(** [bake_generic] on the render settings of the scene (the
    [bake_generic] of the bake loop is the same call seen from the node
    tree).  [engine] tells whether [bpy.ops.object.bake] returns on the
    scene it is called on.  The pass filter goes to the engine alone
    and is left out. *)
Definition bake_generic (engine : scene -> bool) (bake_type : string)
  (use_lighting : bool) (shadow_mode : string) (sc0 : scene) : result unit * scene :=
  let original_use_pass_direct := use_pass_direct sc0 in
  let original_use_pass_indirect := use_pass_indirect sc0 in
  let original_use_pass_color := use_pass_color sc0 in
  let original_normal_space := normal_space sc0 in
  let original_normal_r := normal_r sc0 in
  let original_normal_g := normal_g sc0 in
  let original_normal_b := normal_b sc0 in
  let is_normal := String.eqb bake_type "NORMAL" in
  let sc1 :=
    if is_normal
    then Scene bake_type (use_pass_direct sc0) (use_pass_indirect sc0) (use_pass_color sc0)
               "TANGENT" "POS_X" "POS_Y" "POS_Z" (max_bounces sc0) (objects sc0)
               (light_data sc0)
    else Scene bake_type (use_pass_direct sc0) (use_pass_indirect sc0) (use_pass_color sc0)
               (normal_space sc0) (normal_r sc0) (normal_g sc0) (normal_b sc0)
               (max_bounces sc0) (objects sc0) (light_data sc0) in
  let '(sc2, original_light_settings) :=
    if use_lighting && String.eqb bake_type "COMBINED" then
      let '(data, original_light_settings) :=
        if String.eqb shadow_mode "NO_SHADOWS"
        then disable_shadows (lights sc1) (light_data sc1)
        else (light_data sc1, []) in
      (Scene (cycles_bake_type sc1) true true true
             (normal_space sc1) (normal_r sc1) (normal_g sc1) (normal_b sc1)
             (if max_bounces sc1 <? 4 then 4 else max_bounces sc1)
             (objects sc1) data,
       original_light_settings)
    else (sc1, []) in
  let outcome := if engine sc2 then Ok tt else Raise RuntimeError in
  let sc3 :=
    if is_normal
    then Scene (cycles_bake_type sc2) original_use_pass_direct original_use_pass_indirect
               original_use_pass_color
               original_normal_space original_normal_r original_normal_g original_normal_b
               (max_bounces sc2) (objects sc2) (light_data sc2)
    else Scene (cycles_bake_type sc2) original_use_pass_direct original_use_pass_indirect
               original_use_pass_color
               (normal_space sc2) (normal_r sc2) (normal_g sc2) (normal_b sc2)
               (max_bounces sc2) (objects sc2) (light_data sc2) in
  (outcome, set_light_data sc3 (restore_shadows original_light_settings (light_data sc3))).

End RenderScene.

(* ===================================================================== *)
(** * Atlas UV layer, atlas operator and UDIM tile selection *)
(* ===================================================================== *)







(** [list(range(a, b))]. *)
Definition py_range (a b : Z) : list Z :=
  map (fun k => a + Z.of_nat k) (seq 0 (Z.to_nat (b - a))).

(** "UDIM detection and setup" of [MBNL_OT_bake.execute]. *)
Definition select_udim_tiles (enable_udim udim_auto_detect : bool)
  (udim_range_start udim_range_end : Z) (uvs : list (Q * Q)) : list Z :=
  if enable_udim then
    if udim_auto_detect then
      match detect_udim_tiles uvs with
      | [] => [1001]
      | udim_tiles => udim_tiles
      end
    else py_range udim_range_start (udim_range_end + 1)
  else [1001].

(** [setup_udim_baking_area]: the selection flag of every face and
    [selected_faces > 0]. *)
Definition setup_udim_baking_area (udim_number : Z) (bm : bmesh) : bool * list bool :=
  let bounds := get_udim_tile_bounds udim_number in
  let selection := map (existsb (fun l => in_tile bounds (uv l))) bm in
  (Nat.ltb 0 (length (List.filter (fun b => b) selection)), selection).

Definition sample_number (p : Q * Q) : Z :=
  udim_number_of (py_int (fst p)) (py_int (snd p)).


(* ===================================================================== *)
(** * Colour spaces and resolutions *)
(* ===================================================================== *)

(** The colour-space properties of the bake operator. *)
Record colorspace_settings : Type := ColorspaceSettings {
  colorspace_mode : string;
  colorspace_basecolor : string;
  colorspace_normal : string;
  colorspace_roughness : string;
  colorspace_emission : string;
  colorspace_manual_override : string
}.

Definition auto_colorspace_mapping : list (string * string) :=
  [ ("BaseColor", "sRGB"); ("Diffuse", "sRGB"); ("Albedo", "sRGB"); ("Color", "sRGB");
    ("Emission", "sRGB"); ("EmissionColor", "sRGB");
    ("Normal", "Non-Color"); ("NormalMap", "Non-Color"); ("Bump", "Non-Color");
    ("Height", "Non-Color"); ("Displacement", "Non-Color"); ("Roughness", "Non-Color");
    ("Metallic", "Non-Color"); ("Specular", "Non-Color"); ("Glossiness", "Non-Color");
    ("Alpha", "Non-Color"); ("Opacity", "Non-Color"); ("Transmission", "Non-Color");
    ("Subsurface", "Non-Color"); ("SubsurfaceColor", "sRGB"); ("Clearcoat", "Non-Color");
    ("ClearcoatRoughness", "Non-Color"); ("Sheen", "Non-Color"); ("SheenTint", "sRGB");
    ("AO", "Non-Color"); ("AmbientOcclusion", "Non-Color"); ("CustomShader", "sRGB") ].

(** [d.get(key, default)] on a dictionary written as a literal. *)
Definition dict_get (d : list (string * string)) (key default : string) : string :=
  match find (fun kv => String.eqb key (fst kv)) d with
  | Some kv => snd kv
  | None => default
  end.

Definition get_colorspace_for_channel (self : colorspace_settings)
  (channel_suffix : string) : string :=
  if String.eqb (colorspace_mode self) "MANUAL" then colorspace_manual_override self
  else if String.eqb (colorspace_mode self) "AUTO"
  then dict_get auto_colorspace_mapping channel_suffix "Non-Color"
  else if String.eqb (colorspace_mode self) "CUSTOM" then
    if mem_string channel_suffix ["BaseColor"; "Diffuse"; "Albedo"; "Color"]
    then colorspace_basecolor self
    else if mem_string channel_suffix ["Normal"; "NormalMap"; "Bump"]
    then colorspace_normal self
    else if mem_string channel_suffix
              ["Roughness"; "Metallic"; "Specular"; "Glossiness"; "Alpha"; "Opacity";
               "Transmission"; "Subsurface"; "Clearcoat"; "ClearcoatRoughness"; "Sheen";
               "AO"; "AmbientOcclusion"; "Height"; "Displacement"]
    then colorspace_roughness self
    else if mem_string channel_suffix ["Emission"; "EmissionColor"]
    then colorspace_emission self
    else colorspace_roughness self
  else "Non-Color".




(** The resolution properties of the bake operator; the panel copies
    them from the scene properties of the same names. *)
Record resolution_settings : Type := ResolutionSettings {
  resolution : Z;
  enable_multi_resolution : bool;
  res_512 : bool;
  res_1024 : bool;
  res_2048 : bool;
  res_4096 : bool;
  res_8192 : bool;
  enable_custom_resolution : bool;
  custom_width_1 : Z;
  custom_height_1 : Z;
  custom_width_2 : Z;
  custom_height_2 : Z;
  custom_width_3 : Z;
  custom_height_3 : Z;
  use_custom_1 : bool;
  use_custom_2 : bool;
  use_custom_3 : bool
}.

Definition resolution_eqb (a b : Z * Z) : bool :=
  (fst a =? fst b) && (snd a =? snd b).

(** [if res not in l: l.append(res)]. *)
Definition append_if_new (l : list (Z * Z)) (res : Z * Z) : list (Z * Z) :=
  if existsb (resolution_eqb res) l then l else l ++ [res].

Definition area (res : Z * Z) : Z := fst res * snd res.

(** [sorted(l, key=lambda x: x[0] * x[1])]: the sort is stable, an
    element goes behind the elements of the same area that precede
    it. *)
Fixpoint insert_by_area (res : Z * Z) (l : list (Z * Z)) : list (Z * Z) :=
  match l with
  | [] => [res]
  | y :: l' => if area res <? area y then res :: l else y :: insert_by_area res l'
  end.

Definition sorted_by_area (l : list (Z * Z)) : list (Z * Z) :=
  fold_left (fun acc res => insert_by_area res acc) l [].

(** "Determine resolutions to bake" of [MBNL_OT_bake.execute]. *)
Definition determine_resolutions (self : resolution_settings) : list (Z * Z) :=
  if enable_multi_resolution self then
    let resolutions :=
      (if res_512 self then [512] else []) ++
      (if res_1024 self then [1024] else []) ++
      (if res_2048 self then [2048] else []) ++
      (if res_4096 self then [4096] else []) ++
      (if res_8192 self then [8192] else []) in
    let custom_resolutions :=
      if enable_custom_resolution self then
        fold_left append_if_new
          ((if use_custom_1 self then [(custom_width_1 self, custom_height_1 self)] else []) ++
           (if use_custom_2 self then [(custom_width_2 self, custom_height_2 self)] else []) ++
           (if use_custom_3 self then [(custom_width_3 self, custom_height_3 self)] else []))
          []
      else [] in
    let square_resolutions := map (fun res => (res, res)) resolutions in
    let all_resolutions := square_resolutions ++ custom_resolutions in
    let unique_resolutions := fold_left append_if_new all_resolutions [] in
    match sorted_by_area unique_resolutions with
    | [] => [(resolution self, resolution self)]
    | resolutions => resolutions
    end
  else [(resolution self, resolution self)].

(** The operators [MBNL_OT_set_custom_1920x1080], [.._1280x720],
    [.._2560x1440] and [.._3840x2160]: the size goes into the first
    custom slot that is not in use; when all three are in use it
    replaces the size of one slot, which differs between the four. *)
Definition set_custom_size (width height : Z) (replaced : nat)
  (scene : resolution_settings) : resolution_settings :=
  let '(ResolutionSettings r m a b c d e ec w1 h1 w2 h2 w3 h3 u1 u2 u3) := scene in
  if negb u1 then ResolutionSettings r m a b c d e ec width height w2 h2 w3 h3 true u2 u3
  else if negb u2 then ResolutionSettings r m a b c d e ec w1 h1 width height w3 h3 u1 true u3
  else if negb u3 then ResolutionSettings r m a b c d e ec w1 h1 w2 h2 width height u1 u2 true
  else
    match replaced with
    | 1%nat => ResolutionSettings r m a b c d e ec width height w2 h2 w3 h3 u1 u2 u3
    | 2%nat => ResolutionSettings r m a b c d e ec w1 h1 width height w3 h3 u1 u2 u3
    | _ => ResolutionSettings r m a b c d e ec w1 h1 w2 h2 width height u1 u2 u3
    end.

Definition set_custom_1920x1080 : resolution_settings -> resolution_settings :=
  set_custom_size 1920 1080 1.
Definition set_custom_1280x720 : resolution_settings -> resolution_settings :=
  set_custom_size 1280 720 2.
Definition set_custom_2560x1440 : resolution_settings -> resolution_settings :=
  set_custom_size 2560 1440 3.
Definition set_custom_3840x2160 : resolution_settings -> resolution_settings :=
  set_custom_size 3840 2160 1.

(** [MBNL_OT_select_res_none] and [MBNL_OT_clear_custom_res]. *)
Definition select_res_none (scene : resolution_settings) : resolution_settings :=
  let '(ResolutionSettings r m _ _ _ _ _ ec w1 h1 w2 h2 w3 h3 u1 u2 u3) := scene in
  ResolutionSettings r m false false false false false ec w1 h1 w2 h2 w3 h3 u1 u2 u3.

Definition clear_custom_res (scene : resolution_settings) : resolution_settings :=
  let '(ResolutionSettings r m a b c d e ec _ _ _ _ _ _ _ _ _) := scene in
  ResolutionSettings r m a b c d e ec 1536 1536 1920 1080 1280 720 false false false.

Definition by_area (a b : Z * Z) : Prop := area a <= area b.

(** What the settings ask for: a preset whose flag is set, or a custom
    size that is in use while custom resolutions are enabled. *)
Definition requested (self : resolution_settings) (r : Z * Z) : Prop :=
  (res_512 self = true /\ r = (512, 512)) \/
  (res_1024 self = true /\ r = (1024, 1024)) \/
  (res_2048 self = true /\ r = (2048, 2048)) \/
  (res_4096 self = true /\ r = (4096, 4096)) \/
  (res_8192 self = true /\ r = (8192, 8192)) \/
  (enable_custom_resolution self = true /\
   ((use_custom_1 self = true /\ r = (custom_width_1 self, custom_height_1 self)) \/
    (use_custom_2 self = true /\ r = (custom_width_2 self, custom_height_2 self)) \/
    (use_custom_3 self = true /\ r = (custom_width_3 self, custom_height_3 self)))).

(* ===================================================================== *)
(** * Selection buttons and outcomes of the sweep *)
(* ===================================================================== *)



Definition select_none (scene : settings) : settings :=
  Settings (replace_nodes scene) (include_lighting scene)
           false false false false
           false false false false false false false false
           false false
           false
           (mixed_shader_strategy scene) (enable_udim scene).


(** The channel names a pass list can hold, in the order of the list. *)
Definition pass_suffixes : list string :=
  [ "BaseColor"; "Roughness"; "Metallic"; "Normal"; "Subsurface"; "Transmission";
    "Emission"; "Alpha"; "Specular"; "Clearcoat"; "ClearcoatRoughness"; "Sheen";
    "Displacement"; "AO"; "CustomShader" ].


(** The state but for the UV storage and the table of baked images. *)
Definition same_outcome (s s' : bake_state) : Prop :=
  tree s' = tree s /\ saved s' = saved s /\ bakes s' = bakes s /\ rebuilds s' = rebuilds s.

Definition no_images (s : bake_state) : Prop :=
  forall k imgs, all_baked_images s !! k = Some imgs -> imgs = ∅.

(** What the clean-up of the bake node leaves of a tree. *)
Definition without_bake_node (bake_node : nat) (t : node_tree) : node_tree :=
  match get_node t bake_node with
  | Some n =>
      if String.eqb (bl_idname n) "ShaderNodeTexImage"
      then snd (nodes_remove bake_node t)
      else t
  | None => t
  end.

(* ===================================================================== *)
(** * The single-input probe between set-up and clean-up *)
(* ===================================================================== *)

(** [output.inputs['Surface'].links] of the first Material Output node:
    the links the single-input probe saves. *)
Definition surface_links (nt : node_tree) : list link :=
  match first_node_of_type nt "ShaderNodeOutputMaterial" with
  | Some output =>
      match index_of_input "Surface" (inputs output) with
      | Some si => input_links nt (node_id output, si)
      | None => []
      end
  | None => []
  end.

(** The state of a single-input probe between its set-up and its
    clean-up: the probe invariant, with node identities below the next
    one and the sockets of the Emission node in place. *)
Definition probing (nt : node_tree) (base : list link) (s : node_tree) : Prop :=
  synthetic nt base s /\ ids_below s /\
  has_input s (emit_color (next_id nt)) = true /\
  has_output s (emit_emission (next_id nt)) = true.

(** What a single-input probe yields: the Emission node first, then
    the nodes it created as well. *)
Definition yields_tmp_nodes (nt : node_tree) (base : list link)
  (tmp_nodes : list nat) (s : node_tree) : Prop :=
  probing nt base s /\
  exists rest, tmp_nodes = next_id nt :: rest /\
               Forall (fun n => (next_id nt <= n)%nat) rest.

(* ===================================================================== *)
(** * Properties of the layout and tile arithmetic *)
(* ===================================================================== *)

Section AtlasFacts.

Lemma ceil_sqrt_sq (n : Z) : 0 <= n -> n <= ceil_sqrt n * ceil_sqrt n.
Proof.
  intros Hn. unfold ceil_sqrt.
  pose proof (Z.sqrt_spec n Hn) as [Hlo Hhi]. cbv zeta.
  unfold Z.succ in Hhi.
  destruct (Z.eqb_spec (Z.sqrt n * Z.sqrt n) n) as [E | E]; lia.
Qed.

Lemma ceil_sqrt_pos (n : Z) : 0 < n -> 0 < ceil_sqrt n.
Proof.
  intros Hn. unfold ceil_sqrt. cbv zeta.
  pose proof (proj2 (Z.sqrt_pos n) Hn).
  destruct (Z.sqrt n * Z.sqrt n =? n); lia.
Qed.

(** The grid is never empty and always holds every material. *)
Lemma layout_covers (n : Z) :
  let '(cols, rows) := calculate_atlas_layout n in
  0 < cols /\ 0 < rows /\ (1 <= n -> n <= cols * rows).
Proof.
  unfold calculate_atlas_layout.
  repeat match goal with
         | |- context [?a <=? ?b] => destruct (Z.leb_spec a b)
         end; try (repeat split; lia).
  cbv zeta.
  pose proof (ceil_sqrt_sq n ltac:(lia)).
  pose proof (ceil_sqrt_pos n ltac:(lia)).
  repeat split; lia.
Qed.

End AtlasFacts.

Section AtlasRectangles.

Local Open Scope Q_scope.

Lemma Qdiv_le_mono (a b c : Q) : 0 < c -> a <= b -> a / c <= b / c.
Proof.
  intros Hc Hab. unfold Qdiv. apply Qmult_le_compat_r; [exact Hab |].
  apply Qinv_le_0_compat. apply Qlt_le_weak. exact Hc.
Qed.

Lemma inject_Z_pos (n : Z) : (0 < n)%Z -> 0 < inject_Z n.
Proof. intros H. change 0 with (inject_Z 0). rewrite <- Zlt_Qlt. exact H. Qed.

Lemma inject_Z_nonzero (n : Z) : (0 < n)%Z -> ~ inject_Z n == 0.
Proof. intros H E. pose proof (inject_Z_pos n H) as L. rewrite E in L. discriminate L. Qed.

Lemma axis_lo_eq (k n : Z) (p : Q) :
  (0 < n)%Z -> axis_lo k n p == (inject_Z k + p) / inject_Z n.
Proof. intros Hn. unfold axis_lo. field. apply inject_Z_nonzero, Hn. Qed.

Lemma axis_hi_eq (k n : Z) (p : Q) :
  (0 < n)%Z -> axis_hi k n p == (inject_Z k + 1 - p) / inject_Z n.
Proof. intros Hn. unfold axis_hi. field. apply inject_Z_nonzero, Hn. Qed.

(** Consecutive or farther cells on one axis do not cross. *)
Lemma axis_separated (a b n : Z) (p : Q) :
  (0 < n)%Z -> (a < b)%Z -> 0 <= p -> axis_hi a n p <= axis_lo b n p.
Proof.
  intros Hn Hab Hp.
  rewrite axis_hi_eq, axis_lo_eq by exact Hn.
  apply Qdiv_le_mono; [apply inject_Z_pos, Hn |].
  assert (inject_Z (a + 1) <= inject_Z b) as H by (rewrite <- Zle_Qle; lia).
  rewrite inject_Z_plus in H. change (inject_Z 1) with 1 in H. lra.
Qed.

Lemma axis_lo_nonneg (k n : Z) (p : Q) :
  (0 < n)%Z -> (0 <= k)%Z -> 0 <= p -> 0 <= axis_lo k n p.
Proof.
  intros Hn Hk Hp. rewrite axis_lo_eq by exact Hn.
  assert (0 <= inject_Z k) as H by (change 0 with (inject_Z 0); rewrite <- Zle_Qle; lia).
  apply Qle_shift_div_l; [apply inject_Z_pos, Hn | lra].
Qed.

Lemma axis_hi_le_1 (k n : Z) (p : Q) :
  (0 < n)%Z -> (k < n)%Z -> 0 <= p -> axis_hi k n p <= 1.
Proof.
  intros Hn Hk Hp. rewrite axis_hi_eq by exact Hn.
  assert (inject_Z (k + 1) <= inject_Z n) as H by (rewrite <- Zle_Qle; lia).
  rewrite inject_Z_plus in H. change (inject_Z 1) with 1 in H.
  apply Qle_shift_div_r; [apply inject_Z_pos, Hn | lra].
Qed.

Lemma axis_ordered (k n : Z) (p : Q) :
  (0 < n)%Z -> p <= 1 # 2 -> axis_lo k n p <= axis_hi k n p.
Proof.
  intros Hn Hp. rewrite axis_hi_eq, axis_lo_eq by exact Hn.
  apply Qdiv_le_mono; [apply inject_Z_pos, Hn | lra].
Qed.

Lemma bounds_axes (i cols rows : Z) (p : Q) :
  get_atlas_uv_bounds i cols rows p =
  Rect (axis_lo (i mod cols) cols p) (axis_lo (i / cols) rows p)
       (axis_hi (i mod cols) cols p) (axis_hi (i / cols) rows p).
Proof. reflexivity. Qed.

(** Every cell of a [cols] x [rows] grid lies in the unit square. *)
Lemma bounds_in_unit_square (i cols rows : Z) (p : Q) :
  (0 < cols)%Z -> (0 < rows)%Z -> (0 <= i < cols * rows)%Z ->
  0 <= p -> p <= 1 # 2 ->
  in_unit_square (get_atlas_uv_bounds i cols rows p).
Proof.
  intros Hc Hr Hi Hp0 Hp1. rewrite bounds_axes. unfold in_unit_square. cbn.
  pose proof (Z.mod_pos_bound i cols Hc) as Hm.
  assert (0 <= i / cols < rows)%Z as Hd.
  { split; [apply Z.div_pos; lia |].
    apply Z.div_lt_upper_bound; lia. }
  repeat split.
  - apply axis_lo_nonneg; lia || assumption.
  - apply axis_ordered; assumption.
  - apply axis_hi_le_1; lia || assumption.
  - apply axis_lo_nonneg; lia || assumption.
  - apply axis_ordered; assumption.
  - apply axis_hi_le_1; lia || assumption.
Qed.

(** Cells of distinct indices do not overlap. *)
Lemma bounds_non_overlapping (i j cols rows : Z) (p : Q) :
  (0 < cols)%Z -> (0 < rows)%Z -> i <> j -> 0 <= p ->
  non_overlapping (get_atlas_uv_bounds i cols rows p)
                  (get_atlas_uv_bounds j cols rows p).
Proof.
  intros Hc Hr Hij Hp. rewrite !bounds_axes. unfold non_overlapping. cbn.
  assert (i mod cols < j mod cols \/ j mod cols < i mod cols \/
          i / cols < j / cols \/ j / cols < i / cols)%Z as Hcase.
  { pose proof (Z.div_mod i cols ltac:(lia)).
    pose proof (Z.div_mod j cols ltac:(lia)).
    destruct (Z.lt_total (i mod cols) (j mod cols)) as [H1 | [H1 | H1]]; auto.
    destruct (Z.lt_total (i / cols) (j / cols)) as [H2 | [H2 | H2]]; auto.
    exfalso. apply Hij. congruence. }
  destruct Hcase as [H | [H | [H | H]]].
  - left. apply axis_separated; assumption.
  - right; left. apply axis_separated; assumption.
  - right; right; left. apply axis_separated; assumption.
  - right; right; right. apply axis_separated; assumption.
Qed.

End AtlasRectangles.

(* ===================================================================== *)
(** * Atlas and UDIM theorems *)
(* ===================================================================== *)

(** C7. For every material count [n] in [1, 32] and every padding in
    [0, 0.1), the layout chosen by [calculate_atlas_layout] has at least
    [n] cells, and the rectangles [get_atlas_uv_bounds] returns for the
    indices [0 .. n-1] lie in the unit square and are pairwise
    non-overlapping. *)
Theorem atlas_cells_disjoint (n : Z) (padding : Q) :
  1 <= n <= 32 -> (0 <= padding)%Q -> (padding < 1 # 10)%Q ->
  let '(cols, rows) := calculate_atlas_layout n in
  n <= cols * rows /\
  (forall i, 0 <= i < n ->
     in_unit_square (get_atlas_uv_bounds i cols rows padding)) /\
  (forall i j, 0 <= i < n -> 0 <= j < n -> i <> j ->
     non_overlapping (get_atlas_uv_bounds i cols rows padding)
                     (get_atlas_uv_bounds j cols rows padding)).
Proof.
  intros Hn Hp0 Hp1.
  pose proof (layout_covers n) as Hcov.
  destruct (calculate_atlas_layout n) as [cols rows].
  destruct Hcov as (Hc & Hr & Hsize).
  specialize (Hsize ltac:(lia)).
  split; [exact Hsize |]. split.
  - intros i Hi. apply bounds_in_unit_square; try assumption; try lia.
    apply Qlt_le_weak. apply Qlt_trans with (1 # 10); [exact Hp1 | reflexivity].
  - intros i j _ _ Hij. apply bounds_non_overlapping; assumption.
Qed.

Lemma atlas_cells_disjoint_witness :
  1 <= 5 <= 32 /\ (0 <= 2 # 100)%Q /\ (2 # 100 < 1 # 10)%Q /\
  let '(cols, rows) := calculate_atlas_layout 5 in
  5 <= cols * rows /\
  (forall i, 0 <= i < 5 ->
     in_unit_square (get_atlas_uv_bounds i cols rows (2 # 100))) /\
  (forall i j, 0 <= i < 5 -> 0 <= j < 5 -> i <> j ->
     non_overlapping (get_atlas_uv_bounds i cols rows (2 # 100))
                     (get_atlas_uv_bounds j cols rows (2 # 100))).
Proof.
  split; [lia |]. split; [discriminate |]. split; [reflexivity |].
  apply (atlas_cells_disjoint 5 (2 # 100)); [lia | discriminate | reflexivity].
Defined.

(** C6. For every tile number in [1001, 1100], the tile coordinates of
    [get_udim_tile_bounds] are digits, the tile number
    [detect_udim_tiles] computes from them is the original number, and
    no other pair of digits gives that number: the correspondence is a
    bijection. *)
Theorem udim_tile_bijection (id : Z) :
  1001 <= id <= 1100 ->
  let '(tile_u, tile_v) := get_udim_tile_coords id in
  udim_number_of tile_u tile_v = id /\
  0 <= tile_u < 10 /\ 0 <= tile_v < 10 /\
  (forall u v, 0 <= u < 10 -> 0 <= v < 10 ->
     udim_number_of u v = id -> (u, v) = (tile_u, tile_v)).
Proof.
  intros Hid. unfold get_udim_tile_coords, udim_number_of. cbv zeta.
  pose proof (Z.div_mod (id - 1001) 10 ltac:(lia)) as Hdm.
  pose proof (Z.mod_pos_bound (id - 1001) 10 ltac:(lia)) as Hm.
  assert (0 <= (id - 1001) / 10 < 10) as Hd.
  { split; [apply Z.div_pos; lia | apply Z.div_lt_upper_bound; lia]. }
  repeat split; try lia.
  intros u v Hu Hv E.
  assert (v = (id - 1001) / 10) as Ev by lia.
  assert (u = (id - 1001) mod 10) as Eu by lia.
  subst u v. reflexivity.
Qed.

Lemma udim_tile_bijection_witness :
  1001 <= 1057 <= 1100 /\
  let '(tile_u, tile_v) := get_udim_tile_coords 1057 in
  udim_number_of tile_u tile_v = 1057 /\
  0 <= tile_u < 10 /\ 0 <= tile_v < 10 /\
  (forall u v, 0 <= u < 10 -> 0 <= v < 10 ->
     udim_number_of u v = 1057 -> (u, v) = (tile_u, tile_v)).
Proof.
  split; [lia |]. apply (udim_tile_bijection 1057). lia.
Defined.

(** The tile bounds carry the same coordinates. *)
Lemma tile_bounds_coords (id : Z) :
  (tb_tile_u (get_udim_tile_bounds id), tb_tile_v (get_udim_tile_bounds id)) =
  get_udim_tile_coords id.
Proof. reflexivity. Qed.

(* ===================================================================== *)
(** * Classification *)
(* ===================================================================== *)

Section Classification.

Lemma get_node_some (nt : node_tree) (id : nat) (n : node) :
  get_node nt id = Some n -> In n (nodes nt) /\ node_id n = id.
Proof.
  unfold get_node. intros H. apply find_some in H as [Hin Heq].
  split; [exact Hin | apply Nat.eqb_eq, Heq].
Qed.




















End Classification.

(* ===================================================================== *)
(** * Probes *)
(* ===================================================================== *)

Section Probes.

Lemma with_noop {S Y A : Type} (cm : M S (Y * M S unit)) (body : Y -> M S A)
  (y : Y) (s : S) :
  cm s = (Ok (y, ret tt), s) -> with_ cm body s = body y s.
Proof.
  intros H. unfold with_. rewrite H.
  destruct (body y s) as [r s2]. reflexivity.
Qed.

Lemma map_yield_none {S Y Z : Type} (f : Y -> Z) (cm : M S (option Y * M S unit))
  (s : S) :
  cm s = (Ok (None, ret tt), s) ->
  map_yield (option_map f) cm s = (Ok (None, ret tt), s).
Proof. intros H. unfold map_yield, bind. rewrite H. reflexivity. Qed.

(** C10. When the target of a probe is missing -- no sink, an unlinked
    Surface input for the full-surface probe, no principled node or no
    input of the given name for the single-input probe, no node
    reference for the restricted-subgraph probes -- the context manager
    yields [None] with the graph as it was (no link removed, no node
    created), nothing is left to run after the body, and the whole
    [with] statement acts on the graph exactly as its body does,
    whether the body returns or raises. *)
Theorem probe_missing_target_noop (p : probe_spec) (nt : node_tree) :
  target_missing p nt ->
  open_probe p nt = (Ok (None, ret tt), nt) /\
  forall (A : Type) (body : option (list nat) -> M node_tree A),
    with_ (open_probe p) body nt = body None nt.
Proof.
  intros H.
  assert (open_probe p nt = (Ok (None, ret tt), nt)) as E.
  { destruct p as [| input_name default | node_ref | node_ref]; cbn in H |- *.
    - apply map_yield_none.
      unfold temporary_emission_surface, bind, get_state.
      destruct H as [H | (out & si & H1 & H2 & H3)].
      + rewrite H. reflexivity.
      + rewrite H1, H2, H3. reflexivity.
    - unfold temporary_emission_input, bind, get_state.
      destruct H as [H | [H | (principled & H1 & H2)]].
      + rewrite H. reflexivity.
      + rewrite H. destruct (first_node_of_type nt "ShaderNodeOutputMaterial"); reflexivity.
      + rewrite H1, H2.
        destruct (first_node_of_type nt "ShaderNodeOutputMaterial"); reflexivity.
    - apply map_yield_none.
      unfold temporary_principled_only_surface, bind, get_state.
      destruct H as [H | H].
      + rewrite H. reflexivity.
      + subst node_ref.
        destruct (first_node_of_type nt "ShaderNodeOutputMaterial"); reflexivity.
    - apply map_yield_none.
      unfold temporary_custom_shader_only_surface, bind, get_state.
      destruct H as [H | H].
      + rewrite H. reflexivity.
      + subst node_ref.
        destruct (first_node_of_type nt "ShaderNodeOutputMaterial"); reflexivity. }
  split; [exact E |].
  intros A body. apply with_noop. exact E.
Qed.

Lemma probe_missing_target_noop_witness :
  target_missing (SingleInput "Sheen" 0) procedural_graph /\
  open_probe (SingleInput "Sheen" 0) procedural_graph =
    (Ok (None, ret tt), procedural_graph) /\
  forall (A : Type) (body : option (list nat) -> M node_tree A),
    with_ (open_probe (SingleInput "Sheen" 0)) body procedural_graph =
    body None procedural_graph.
Proof.
  assert (target_missing (SingleInput "Sheen" 0) procedural_graph) as H.
  { right; right.
    exists (principled_bsdf 1 (VColor 1 0 0 1) 0 (1 # 2) (8 # 10)).
    split; reflexivity. }
  split; [exact H |].
  exact (probe_missing_target_noop (SingleInput "Sheen" 0) procedural_graph H).
Defined.

(** C1, at the input where the code departs from it.  The principled
    node's BSDF output feeds a mix shader and, by a younger link, the
    sink.  The single-input probe on Metallic removes the first link of
    that output instead of the link into the sink: after the [with]
    statement the link into the mix shader is gone, whether the body
    returns or raises. *)
Theorem single_input_probe_drops_link :
  links shared_output_graph = [Link 2 0 1 1; Link 2 0 0 0] /\
  links (snd (with_ (temporary_emission_input "Metallic" 0)
                    (fun _ => ret tt) shared_output_graph))
    = [Link 2 0 0 0] /\
  links (snd (with_ (temporary_emission_input "Metallic" 0)
                    (fun _ => raise RuntimeError : M node_tree unit)
                    shared_output_graph))
    = [Link 2 0 0 0].
Proof. repeat split. Qed.

End Probes.

(* ===================================================================== *)
(** * The sweep over resolutions *)
(* ===================================================================== *)

Section Resolutions.

(** With one resolution the sweep does what the design says: both
    channels are persisted and the graph is rebuilt once, from the
    buffers of that resolution. *)
Lemma single_resolution_run :
  let s := sample_run two_channel_settings [1001] [(2048, 2048)] textured_graph [] in
  persisted s = [((2048, 2048), "BaseColor"); ((2048, 2048), "Roughness")] /\
  map rb_resolution (rebuilds s) = [(2048, 2048)] /\
  map (fun e => map fst (map_to_list (rb_channels e))) (rebuilds s)
    = [["Roughness"; "BaseColor"]].
Proof. vm_compute. repeat split. Qed.

(** C3, at the input where the code departs from it.  One textured
    material, base colour and roughness, the resolutions 512, 1024 and
    2048, node replacement on, an engine that never fails.  The
    clean-up of the bake node stands inside the resolution loop: the
    node leaves the tree after the first resolution, every later
    channel raises at [bake_node.image = img], and so only the two
    buffers of 512x512 are persisted, nothing is recorded for
    2048x2048 and the graph is never rebuilt. *)
Theorem three_resolutions_run :
  let s := sample_run two_channel_settings [1001] three_resolutions textured_graph [] in
  primary_resolution_of three_resolutions = (2048, 2048) /\
  material_type (analyze_material (Some (Material true (Some textured_graph))))
    = "textured" /\
  persisted s = [((512, 512), "BaseColor"); ((512, 512), "Roughness")] /\
  all_baked_images s !! (2048, 2048) = Some ∅ /\
  rebuilds s = [].
Proof. vm_compute. repeat split. Qed.

End Resolutions.

(* ===================================================================== *)
(** * The channel plan *)
(* ===================================================================== *)

Section ChannelPlan.

Variable render : bake_call -> bool.






End ChannelPlan.



(* ===================================================================== *)
(** * UV storage across a tile *)
(* ===================================================================== *)

Section UVFrame.

Variable render : bake_call -> bool.

Lemma uv_frame_refl (s : bake_state) : uv_frame s s.
Proof. split; [reflexivity |]. exists []. rewrite app_nil_r. split; [reflexivity | constructor]. Qed.

Lemma uv_frame_trans (s1 s2 s3 : bake_state) :
  uv_frame s1 s2 -> uv_frame s2 s3 -> uv_frame s1 s3.
Proof.
  intros [E1 (c1 & B1 & F1)] [E2 (c2 & B2 & F2)]. split; [congruence |].
  exists (c1 ++ c2). split.
  - rewrite B2, B1, app_assoc. reflexivity.
  - apply Forall_app. split; [exact F1 |]. rewrite E1 in F2. exact F2.
Qed.

Lemma uv_frame_same (s s' : bake_state) :
  uvs s' = uvs s -> bakes s' = bakes s -> uv_frame s s'.
Proof.
  intros E B. split; [exact E |]. exists []. rewrite app_nil_r.
  split; [exact B | constructor].
Qed.

Lemma keeps_ret {A : Type} (a : A) : keeps_uvs (ret a).
Proof. intros s. apply uv_frame_refl. Qed.

Lemma keeps_raise {A : Type} (e : exn) : keeps_uvs (raise e : M bake_state A).
Proof. intros s. apply uv_frame_refl. Qed.

Lemma keeps_get_state : keeps_uvs (get_state : M bake_state bake_state).
Proof. intros s. apply uv_frame_refl. Qed.

Lemma keeps_bind {A B : Type} (m : M bake_state A) (f : A -> M bake_state B) :
  keeps_uvs m -> (forall a, keeps_uvs (f a)) -> keeps_uvs (bind m f).
Proof.
  intros Hm Hf s. unfold bind. specialize (Hm s).
  destruct (m s) as [[a | e] s1]; cbn [snd] in *.
  - eapply uv_frame_trans; [exact Hm | apply Hf].
  - exact Hm.
Qed.

Lemma keeps_try_except {A : Type} (m h : M bake_state A) :
  keeps_uvs m -> keeps_uvs h -> keeps_uvs (try_except m h).
Proof.
  intros Hm Hh s. unfold try_except. specialize (Hm s).
  destruct (m s) as [[a | e] s1]; cbn [snd] in *.
  - exact Hm.
  - eapply uv_frame_trans; [exact Hm | apply Hh].
Qed.

Lemma keeps_try_finally {A : Type} (m : M bake_state A) (fin : M bake_state unit) :
  keeps_uvs m -> keeps_uvs fin -> keeps_uvs (try_finally m fin).
Proof.
  intros Hm Hf s. unfold try_finally. specialize (Hm s).
  destruct (m s) as [r s1]. specialize (Hf s1).
  destruct (fin s1) as [[u | e] s2]; cbn [snd] in *;
    eapply uv_frame_trans; eassumption.
Qed.

Lemma keeps_for_each {A : Type} (xs : list A) (body : A -> M bake_state unit) :
  (forall x, keeps_uvs (body x)) -> keeps_uvs (for_each xs body).
Proof.
  intros Hb. induction xs as [| x xs IH]; cbn [for_each].
  - apply keeps_ret.
  - apply keeps_bind; [apply Hb | intros _; exact IH].
Qed.

Lemma keeps_on_tree {A : Type} (m : M node_tree A) : keeps_uvs (on_tree m).
Proof.
  intros s. unfold on_tree. destruct (m (tree s)) as [r t]. cbn [snd].
  apply uv_frame_same; reflexivity.
Qed.

Lemma keeps_with_on_tree {Y A : Type} (cm : M node_tree (Y * M node_tree unit))
  (body : Y -> M bake_state A) :
  (forall y, keeps_uvs (body y)) -> keeps_uvs (with_ (cm_on_tree cm) body).
Proof.
  intros Hb s. unfold with_, cm_on_tree.
  destruct (cm (tree s)) as [[[y rest] | e] t]; cbn [snd].
  - specialize (Hb y (set_tree s t)).
    destruct (body y (set_tree s t)) as [r s2]. cbn [snd] in Hb.
    pose proof (keeps_on_tree rest s2) as Hr.
    destruct (on_tree rest s2) as [[u | e] s3]; cbn [snd] in *;
      (eapply uv_frame_trans; [| exact Hr]);
      (eapply uv_frame_trans; [| exact Hb]);
      apply uv_frame_same; reflexivity.
  - apply uv_frame_same; reflexivity.
Qed.

Lemma keeps_bake_generic (bake_type : string) (use_lighting : bool) :
  keeps_uvs (bake_generic render bake_type use_lighting).
Proof.
  intros s. unfold bake_generic. cbv zeta.
  destruct (render _); cbn [snd]; (split; [reflexivity |]);
    eexists; (split; [reflexivity |]); repeat constructor.
Qed.

Lemma keeps_images_new : keeps_uvs images_new.
Proof. intros s. apply uv_frame_same; reflexivity. Qed.

Lemma keeps_save_image (img : nat) (key : Z * Z) (tile : Z) (sfx : string)
  (content : buffer_content) : keeps_uvs (save_image img key tile sfx content).
Proof.
  intros s. unfold save_image.
  destruct (all_baked_images s !! key); apply uv_frame_same; reflexivity.
Qed.

Lemma keeps_deref (id : nat) : keeps_uvs (deref id).
Proof.
  intros s. unfold deref, bind, get_state.
  destruct (get_node (tree s) id); apply uv_frame_refl.
Qed.

Create HintDb uvframe.

Hint Resolve keeps_ret keeps_raise keeps_get_state keeps_on_tree
  keeps_bake_generic keeps_images_new keeps_save_image keeps_deref : uvframe.

Ltac keeps_step :=
  match goal with
  | |- keeps_uvs (bind _ _) => apply keeps_bind; [| intros ?]
  | |- keeps_uvs (try_except _ _) => apply keeps_try_except
  | |- keeps_uvs (try_finally _ _) => apply keeps_try_finally
  | |- keeps_uvs (for_each _ _) => apply keeps_for_each; intros ?
  | |- keeps_uvs (with_ (cm_on_tree _) _) => apply keeps_with_on_tree; intros ?
  | |- keeps_uvs (match ?x with _ => _ end) => destruct x
  | |- keeps_uvs (if ?x then _ else _) => destruct x
  | |- keeps_uvs _ => solve [auto with uvframe]
  end.

Ltac keeps := repeat keeps_step.

Lemma keeps_set_bake_node_image (bake_node : nat) :
  keeps_uvs (set_bake_node_image bake_node).
Proof. unfold set_bake_node_image. keeps. Qed.

Lemma keeps_should_bake (a : analysis) (p : bake_pass) : keeps_uvs (should_bake a p).
Proof. unfold should_bake. keeps. Qed.

Lemma keeps_bake_full_surface (p : bake_pass) : keeps_uvs (bake_full_surface render p).
Proof. unfold bake_full_surface. keeps. Qed.

Hint Resolve keeps_set_bake_node_image keeps_should_bake keeps_bake_full_surface : uvframe.

Lemma keeps_bake_custom_shader (st : settings) (a : analysis) (p : bake_pass) :
  keeps_uvs (bake_custom_shader render st a p).
Proof. unfold bake_custom_shader. keeps. Qed.

Lemma keeps_bake_lighting_basecolor (a : analysis) (p : bake_pass) :
  keeps_uvs (bake_lighting_basecolor render a p).
Proof. unfold bake_lighting_basecolor. keeps. Qed.

Hint Resolve keeps_bake_custom_shader keeps_bake_lighting_basecolor : uvframe.

Lemma keeps_bake_channel (st : settings) (a : analysis) (key : Z * Z) (tile : Z)
  (p : bake_pass) (img : nat) : keeps_uvs (bake_channel render st a key tile p img).
Proof. unfold bake_channel. keeps. Qed.

Lemma keeps_fill_channel (a : analysis) (key : Z * Z) (tile : Z)
  (p : bake_pass) (img : nat) : keeps_uvs (fill_channel a key tile p img).
Proof. unfold fill_channel. keeps. Qed.

Hint Resolve keeps_bake_channel keeps_fill_channel : uvframe.



(** ** Renormalisation and its undo *)

Lemma Qlt_bool_iff (x y : Q) : Qlt_bool x y = true <-> (x < y)%Q.
Proof. unfold Qlt_bool, Qlt. apply Z.ltb_lt. Qed.







End UVFrame.



(* ===================================================================== *)
(** * Probes that restore the link set *)
(* ===================================================================== *)

Lemma into_link_to (y : socket_ref) (l : link) : into y l = true <-> link_to l = y.
Proof.
  unfold into, link_to. rewrite andb_true_iff, !Nat.eqb_eq. destruct y as [a b].
  cbn [fst snd]. split; [intros [-> ->]; reflexivity | intros E; inversion E; auto].
Qed.

Lemma check_well_formed_sound (nt : node_tree) :
  check_well_formed nt = true -> well_formed nt.
Proof.
  unfold check_well_formed. intros H. apply andb_true_iff in H as [Hl Hn].
  rewrite forallb_forall in Hl, Hn. repeat split.
  - specialize (Hl l H). apply andb_true_iff in Hl as [Hl _].
    apply andb_true_iff in Hl as [Hl _]. exact Hl.
  - specialize (Hl l H). apply andb_true_iff in Hl as [Hl _].
    apply andb_true_iff in Hl as [_ Hl]. exact Hl.
  - intros n Hin. apply Nat.ltb_lt, Hn, Hin.
  - intros s. destruct (input_links nt s) as [| l0 rest] eqn:E; [cbn; lia |].
    assert (In l0 (input_links nt s)) as Hin by (rewrite E; left; reflexivity).
    apply filter_In in Hin as [Hin Hinto].
    specialize (Hl l0 Hin). apply andb_true_iff in Hl as [_ Hl].
    apply (proj1 (into_link_to s l0)) in Hinto. rewrite Hinto, E in Hl.
    apply Nat.leb_le, Hl.
Qed.


Section HoareRules.

Lemma hoare_ret {A : Type} (P : node_tree -> Prop) (a : A)
  (Q : A -> node_tree -> Prop) (E : node_tree -> Prop) :
  (forall s, P s -> Q a s) -> hoare P (ret a) Q E.
Proof. intros H s Hs. apply H, Hs. Qed.

Lemma hoare_raise {A : Type} (P : node_tree -> Prop) (e : exn)
  (Q : A -> node_tree -> Prop) (E : node_tree -> Prop) :
  (forall s, P s -> E s) -> hoare P (raise e) Q E.
Proof. intros H s Hs. apply H, Hs. Qed.

Lemma hoare_bind {A B : Type} (P : node_tree -> Prop) (m : M node_tree A)
  (f : A -> M node_tree B) (R : A -> node_tree -> Prop)
  (Q : B -> node_tree -> Prop) (E : node_tree -> Prop) :
  hoare P m R E -> (forall a, hoare (R a) (f a) Q E) -> hoare P (bind m f) Q E.
Proof.
  intros Hm Hf s Hs. unfold bind. specialize (Hm s Hs).
  destruct (m s) as [[a | e] s1]; [apply (Hf a s1 Hm) | exact Hm].
Qed.

Lemma hoare_get {B : Type} (P : node_tree -> Prop)
  (f : node_tree -> M node_tree B) (Q : B -> node_tree -> Prop) (E : node_tree -> Prop) :
  (forall s0, P s0 -> hoare P (f s0) Q E) ->
  hoare P (bind get_state f) Q E.
Proof. intros H s Hs. unfold bind, get_state. apply (H s Hs s Hs). Qed.

Lemma hoare_pure {A : Type} (P : node_tree -> Prop) (phi : Prop) (m : M node_tree A)
  (Q : A -> node_tree -> Prop) (E : node_tree -> Prop) :
  (phi -> hoare P m Q E) -> hoare (fun s => P s /\ phi) m Q E.
Proof. intros H s [Hs Hphi]. apply (H Hphi s Hs). Qed.

Lemma hoare_conseq {A : Type} (P P' : node_tree -> Prop) (m : M node_tree A)
  (Q Q' : A -> node_tree -> Prop) (E E' : node_tree -> Prop) :
  hoare P' m Q' E' -> (forall s, P s -> P' s) ->
  (forall a s, Q' a s -> Q a s) -> (forall s, E' s -> E s) ->
  hoare P m Q E.
Proof.
  intros H HP HQ HE s Hs. specialize (H s (HP s Hs)).
  destruct (m s) as [[a | e] s1]; auto.
Qed.

Lemma hoare_try_except {A : Type} (P : node_tree -> Prop) (m h : M node_tree A)
  (R : node_tree -> Prop) (Q : A -> node_tree -> Prop) (E : node_tree -> Prop) :
  hoare P m Q R -> hoare R h Q E -> hoare P (try_except m h) Q E.
Proof.
  intros Hm Hh s Hs. unfold try_except. specialize (Hm s Hs).
  destruct (m s) as [[a | e] s1]; [exact Hm | apply (Hh s1 Hm)].
Qed.

Lemma hoare_try_except_of {A : Type} (caught : exn -> bool) (P : node_tree -> Prop)
  (m h : M node_tree A) (R : node_tree -> Prop)
  (Q : A -> node_tree -> Prop) (E : node_tree -> Prop) :
  hoare P m Q R -> hoare R h Q E -> (forall s, R s -> E s) ->
  hoare P (try_except_of caught m h) Q E.
Proof.
  intros Hm Hh HRE s Hs. unfold try_except_of. specialize (Hm s Hs).
  destruct (m s) as [[a | e] s1]; [exact Hm |].
  destruct (caught e); [apply (Hh s1 Hm) | apply HRE, Hm].
Qed.

Lemma hoare_attempt (P : node_tree -> Prop) (m : M node_tree unit)
  (Q : node_tree -> Prop) (E : node_tree -> Prop) :
  hoare P m (fun _ => Q) Q -> hoare P (attempt m) (fun _ => Q) E.
Proof.
  intros Hm s Hs. unfold attempt. specialize (Hm s Hs).
  destruct (m s) as [r s1]. destruct r; exact Hm.
Qed.

Lemma hoare_for_each {A : Type} (I : node_tree -> Prop) (xs : list A)
  (body : A -> M node_tree unit) (E : node_tree -> Prop) :
  (forall x, In x xs -> hoare I (body x) (fun _ => I) E) ->
  hoare I (for_each xs body) (fun _ => I) E.
Proof.
  induction xs as [| x xs IH]; intros Hb; cbn [for_each].
  - apply hoare_ret. auto.
  - eapply hoare_bind.
    + apply Hb. left. reflexivity.
    + intros u. apply IH. intros y Hy. apply Hb. right. exact Hy.
Qed.

End HoareRules.

Section SyntheticNodes.

Variable nt : node_tree.
Variable base : list link.
Hypothesis Hresolved : links_resolved nt.
Hypothesis Hids : ids_below nt.
Hypothesis Hbase : forall l, In l base -> In l (links nt).

Lemma has_output_node (t : node_tree) (x : socket_ref) :
  has_output t x = true -> exists n, get_node t (fst x) = Some n.
Proof. unfold has_output. destruct (get_node t (fst x)); [eauto | discriminate]. Qed.

Lemma has_input_node (t : node_tree) (x : socket_ref) :
  has_input t x = true -> exists n, get_node t (fst x) = Some n.
Proof. unfold has_input. destruct (get_node t (fst x)); [eauto | discriminate]. Qed.

Lemma old_endpoints (l : link) :
  In l (links nt) -> (from_node l < next_id nt)%nat /\ (to_node l < next_id nt)%nat.
Proof.
  intros Hl. destruct (Hresolved l Hl) as [Ho Hi].
  apply has_output_node in Ho as [n Hn]. apply has_input_node in Hi as [m Hm].
  apply get_node_some in Hn as [Hn1 Hn2]. apply get_node_some in Hm as [Hm1 Hm2].
  cbn [link_from link_to fst] in Hn2, Hm2.
  pose proof (Hids n Hn1). pose proof (Hids m Hm1). lia.
Qed.

Lemma filter_id {A : Type} (f : A -> bool) (l : list A) :
  (forall x, In x l -> f x = true) -> List.filter f l = l.
Proof.
  induction l as [| x l IH]; intros H; [reflexivity |].
  cbn [List.filter]. rewrite (H x (or_introl eq_refl)). f_equal.
  apply IH. intros y Hy. apply H. right. exact Hy.
Qed.

Lemma filter_none {A : Type} (f : A -> bool) (l : list A) :
  (forall x, In x l -> f x = false) -> List.filter f l = [].
Proof.
  induction l as [| x l IH]; intros H; [reflexivity |].
  cbn [List.filter]. rewrite (H x (or_introl eq_refl)).
  apply IH. intros y Hy. apply H. right. exact Hy.
Qed.

Lemma base_not_touched (id : nat) :
  (next_id nt <= id)%nat -> List.filter (fun l => negb (touches id l)) base = base.
Proof.
  intros Hid. apply filter_id. intros l Hl.
  destruct (old_endpoints l (Hbase l Hl)) as [Hf Ht].
  unfold touches. destruct (Nat.eqb_spec (from_node l) id); [lia |].
  destruct (Nat.eqb_spec (to_node l) id); [lia | reflexivity].
Qed.

Lemma base_not_into (y : socket_ref) :
  (next_id nt <= fst y)%nat \/ (forall l, In l base -> into y l = false) ->
  List.filter (fun l => negb (into y l)) base = base.
Proof.
  intros Hy. apply filter_id. intros l Hl. destruct Hy as [Hy | Hy].
  - destruct (old_endpoints l (Hbase l Hl)) as [_ Ht].
    unfold into. destruct (Nat.eqb_spec (to_node l) (fst y)); [lia | reflexivity].
  - rewrite (Hy l Hl). reflexivity.
Qed.

Lemma link_eqb_eq (a b : link) : link_eqb a b = true <-> a = b.
Proof.
  unfold link_eqb. rewrite !andb_true_iff, !Nat.eqb_eq. split.
  - intros [[[H1 H2] H3] H4]. destruct a, b. cbn in *. congruence.
  - intros ->. auto.
Qed.

Lemma base_not_equal (l : link) :
  (next_id nt <= from_node l)%nat \/ (next_id nt <= to_node l)%nat ->
  List.filter (fun l' => negb (link_eqb l l')) base = base.
Proof.
  intros Hl. apply filter_id. intros l' Hl'.
  destruct (old_endpoints l' (Hbase l' Hl')) as [Hf Ht].
  destruct (link_eqb l l') eqn:E; [| reflexivity].
  apply link_eqb_eq in E. subst l'. lia.
Qed.

Lemma find_app_l {A : Type} (f : A -> bool) (l1 l2 : list A) (x : A) :
  find f l1 = Some x -> find f (l1 ++ l2) = Some x.
Proof.
  induction l1 as [| y l1 IH]; [discriminate |].
  cbn [find app]. destruct (f y); [auto | exact IH].
Qed.

Lemma get_node_old (s : node_tree) (id : nat) (n : node) :
  synthetic nt base s -> get_node nt id = Some n -> get_node s id = Some n.
Proof.
  intros (_ & (added & Hn & _) & _) H. unfold get_node in *. rewrite Hn.
  apply find_app_l. exact H.
Qed.

Lemma has_output_old (s : node_tree) (x : socket_ref) :
  synthetic nt base s -> has_output nt x = true -> has_output s x = true.
Proof.
  intros Hs H. unfold has_output in *.
  destruct (get_node nt (fst x)) as [n |] eqn:E; [| discriminate].
  rewrite (get_node_old s _ n Hs E). exact H.
Qed.

Lemma has_input_old (s : node_tree) (x : socket_ref) :
  synthetic nt base s -> has_input nt x = true -> has_input s x = true.
Proof.
  intros Hs H. unfold has_input in *.
  destruct (get_node nt (fst x)) as [n |] eqn:E; [| discriminate].
  rewrite (get_node_old s _ n Hs E). exact H.
Qed.

Lemma Forall_filter {A : Type} (P : A -> Prop) (f : A -> bool) (l : list A) :
  Forall P l -> Forall P (List.filter f l).
Proof.
  intros H. apply List.Forall_forall. intros x Hx. apply filter_In in Hx as [Hx _].
  rewrite List.Forall_forall in H. apply H. exact Hx.
Qed.

Lemma synthetic_nodes_new (t : string) (E : node_tree -> Prop) :
  hoare (synthetic nt base) (nodes_new t)
        (fun id s => synthetic nt base s /\ (next_id nt <= id)%nat) E.
Proof.
  intros s (Hn & (added & Ha & Hf) & Hl). unfold nodes_new.
  destruct (new_node_sockets t) as [ins outs]. split; [| lia].
  split; [cbn [next_id]; lia |]. split; [| exact Hl].
  exists (added ++ [Node (next_id s) t t "" ins outs false]). cbn [nodes]. split.
  - rewrite Ha, app_assoc. reflexivity.
  - apply Forall_app. split; [exact Hf |]. constructor; [cbn; lia | constructor].
Qed.

Lemma map_old_nodes (id : nat) (f : node -> node) :
  (next_id nt <= id)%nat ->
  map (fun n => if Nat.eqb (node_id n) id then f n else n) (nodes nt) = nodes nt.
Proof.
  intros Hid. rewrite <- (map_id (nodes nt)) at 2. apply map_ext_in.
  intros n Hn. pose proof (Hids n Hn).
  destruct (Nat.eqb_spec (node_id n) id); [lia | reflexivity].
Qed.

Lemma synthetic_update_node (id : nat) (f : node -> node) (E : node_tree -> Prop) :
  (next_id nt <= id)%nat -> (forall n, node_id (f n) = node_id n) ->
  hoare (synthetic nt base) (update_node id f) (fun _ => synthetic nt base) E.
Proof.
  intros Hid Hf s (Hn & (added & Ha & Hfa) & Hl). unfold update_node.
  split; [exact Hn |]. split; [| exact Hl]. cbn [nodes].
  exists (map (fun n => if Nat.eqb (node_id n) id then f n else n) added). split.
  - rewrite Ha, map_app, map_old_nodes by exact Hid. reflexivity.
  - apply List.Forall_forall. intros n Hin.
    apply in_map_iff in Hin as (m & <- & Hm).
    rewrite List.Forall_forall in Hfa. specialize (Hfa m Hm).
    destruct (Nat.eqb (node_id m) id); [rewrite Hf |]; exact Hfa.
Qed.

Lemma synthetic_links_new (x y : socket_ref) :
  (next_id nt <= fst y)%nat \/ (forall l, In l base -> into y l = false) ->
  fst x = next_id nt \/ fst y = next_id nt ->
  hoare (synthetic nt base) (links_new x y)
        (fun _ => synthetic nt base) (synthetic nt base).
Proof.
  intros Hy Hxy s Hs. unfold links_new.
  destruct (has_output s x && has_input s y); [| exact Hs].
  destruct Hs as (Hn & Hnodes & (extra & Hl & Hf)).
  split; [exact Hn |]. split; [exact Hnodes |]. cbn [links].
  exists (List.filter (fun l => negb (into y l)) extra
          ++ [Link (fst x) (snd x) (fst y) (snd y)]).
  split.
  - rewrite Hl, List.filter_app, base_not_into by exact Hy. rewrite app_assoc. reflexivity.
  - apply Forall_app. split; [apply Forall_filter, Hf |].
    constructor; [| constructor]. unfold touches. cbn [from_node to_node].
    destruct Hxy as [-> | ->]; rewrite Nat.eqb_refl; [reflexivity | apply orb_true_r].
Qed.

Lemma synthetic_links_remove (l : link) (E : node_tree -> Prop) :
  (next_id nt <= from_node l)%nat \/ (next_id nt <= to_node l)%nat ->
  hoare (synthetic nt base) (links_remove l) (fun _ => synthetic nt base) E.
Proof.
  intros Hl s (Hn & Hnodes & (extra & He & Hf)). unfold links_remove.
  split; [exact Hn |]. split; [exact Hnodes |]. cbn [links].
  exists (List.filter (fun l' => negb (link_eqb l l')) extra). split.
  - rewrite He, List.filter_app, base_not_equal by exact Hl. reflexivity.
  - apply Forall_filter, Hf.
Qed.

Lemma synthetic_nodes_remove (id : nat) (E : node_tree -> Prop) :
  (next_id nt <= id)%nat ->
  hoare (synthetic nt base) (nodes_remove id) (fun _ => synthetic nt base) E.
Proof.
  intros Hid s (Hn & (added & Ha & Hfa) & (extra & He & Hf)). unfold nodes_remove.
  split; [exact Hn |]. cbn [nodes links]. split.
  - exists (List.filter (fun n => negb (Nat.eqb (node_id n) id)) added). split.
    + rewrite Ha, List.filter_app. f_equal. apply filter_id. intros n Hin.
      pose proof (Hids n Hin). destruct (Nat.eqb_spec (node_id n) id); [lia | reflexivity].
    + apply Forall_filter, Hfa.
  - exists (List.filter (fun l => negb (touches id l)) extra). split.
    + rewrite He, List.filter_app, base_not_touched by exact Hid. reflexivity.
    + apply Forall_filter, Hf.
Qed.

(** Removing the Emission node clears every synthetic link. *)
Lemma synthetic_remove_emit (E : node_tree -> Prop) :
  hoare (synthetic nt base) (nodes_remove (next_id nt))
        (fun _ s => synthetic nt base s /\ links s = base) E.
Proof.
  intros s Hs.
  pose proof (synthetic_nodes_remove (next_id nt) E (le_n _) s Hs) as H.
  destruct Hs as (_ & _ & (extra & He & Hf)).
  unfold nodes_remove in *. split; [exact H |]. cbn [links].
  rewrite He, List.filter_app, base_not_touched by lia.
  rewrite filter_none, app_nil_r; [reflexivity |].
  intros l Hl. rewrite List.Forall_forall in Hf. rewrite (Hf l Hl). reflexivity.
Qed.

End SyntheticNodes.

Section WithStatement.

Context {S Y A : Type}.

Lemma with_get (f : S -> M S (Y * M S unit)) (body : Y -> M S A) (s : S) :
  with_ (bind get_state f) body s = with_ (f s) body s.
Proof. reflexivity. Qed.

Lemma with_bind_ok {B : Type} (m : M S B) (f : B -> M S (Y * M S unit))
  (body : Y -> M S A) (s s1 : S) (b : B) :
  m s = (Ok b, s1) -> with_ (bind m f) body s = with_ (f b) body s1.
Proof. intros H. unfold with_, bind. rewrite H. reflexivity. Qed.

Lemma with_ret_state (y : Y) (rest : M S unit) (body : Y -> M S A) (s : S) :
  (forall y s, snd (body y s) = s) ->
  snd (with_ (ret (y, rest)) body s) = snd (rest s).
Proof.
  intros Hb. unfold with_, ret. specialize (Hb y s).
  destruct (body y s) as [r s2]. cbn [snd] in Hb. subst s2.
  destruct (rest s) as [[u | e] s3]; reflexivity.
Qed.

Lemma with_yield_state (before : M S Y) (fin : M S unit) (body : Y -> M S A) (s : S) :
  (forall y s, snd (body y s) = s) ->
  snd (with_ (yield_in_try before fin) body s) = snd (fin (snd (before s))).
Proof.
  intros Hb. unfold with_, yield_in_try.
  destruct (before s) as [[y | e] s1]; cbn [snd].
  - specialize (Hb y s1). destruct (body y s1) as [r s2]. cbn [snd] in Hb. subst s2.
    destruct (fin s1) as [[u | e] s3]; reflexivity.
  - destruct (fin s1) as [[u | e'] s3]; reflexivity.
Qed.

End WithStatement.

Section LinkSets.

Variable nt : node_tree.
Hypothesis Hwf : well_formed nt.

Lemma input_links_in (t : node_tree) (y : socket_ref) (l : link) :
  In l (input_links t y) <-> In l (links t) /\ into y l = true.
Proof. unfold input_links. apply filter_In. Qed.

Lemma output_links_from (t : node_tree) (x : socket_ref) (l : link) :
  In l (output_links t x) -> from_node l = fst x.
Proof.
  unfold output_links. intros H. apply filter_In in H as [_ H].
  apply andb_true_iff in H as [H _]. apply Nat.eqb_eq, H.
Qed.

Lemma input_links_to (t : node_tree) (y : socket_ref) (l : link) :
  In l (input_links t y) -> to_node l = fst y.
Proof.
  intros H. apply input_links_in in H as [_ H]. unfold into in H.
  apply andb_true_iff in H as [H _]. apply Nat.eqb_eq, H.
Qed.

(** With one link at most per input socket, the links into a socket
    are the first of them. *)
Lemma single_input_link (y : socket_ref) (l0 : link) (rest : list link) :
  input_links nt y = l0 :: rest ->
  rest = [] /\ In l0 (links nt) /\ link_to l0 = y /\
  (forall l, In l (links nt) -> into y l = true -> l = l0).
Proof.
  intros H. destruct Hwf as (_ & _ & Hlim). specialize (Hlim y). rewrite H in Hlim.
  destruct rest as [| l1 rest]; [| cbn in Hlim; lia].
  assert (In l0 (input_links nt y)) as Hin by (rewrite H; left; reflexivity).
  apply input_links_in in Hin as [Hin Hinto].
  repeat split; [exact Hin | apply into_link_to, Hinto |].
  intros l Hl Hl'. assert (In l (input_links nt y)) as Hli by (apply input_links_in; auto).
  rewrite H in Hli. destruct Hli as [<- | []]. reflexivity.
Qed.

Lemma detached_no_into (y : socket_ref) (l : link) :
  In l (detached y nt) -> In l (links nt) /\ into y l = false.
Proof.
  unfold detached. intros H. apply filter_In in H as [H1 H2].
  split; [exact H1 |]. destruct (into y l); [discriminate | reflexivity].
Qed.

Lemma remove_single_link (y : socket_ref) (l0 : link) :
  input_links nt y = [l0] ->
  List.filter (fun l' => negb (link_eqb l0 l')) (links nt) = detached y nt.
Proof.
  intros H. destruct (single_input_link y l0 [] H) as (_ & Hin & Hto & Huniq).
  unfold detached. apply filter_ext_in. intros l Hl.
  destruct (link_eqb l0 l) eqn:E.
  - apply link_eqb_eq in E. subst l. cbn.
    rewrite (proj2 (into_link_to y l0) Hto). reflexivity.
  - destruct (into y l) eqn:E'; [| reflexivity].
    rewrite (Huniq l Hl E') in E.
    assert (link_eqb l0 l0 = true) as R by (apply link_eqb_eq; reflexivity).
    congruence.
Qed.

Lemma same_links_restored (y : socket_ref) (l0 : link) (s : node_tree) :
  input_links nt y = [l0] -> links s = detached y nt ++ [l0] -> same_links s nt.
Proof.
  intros H Hs l. rewrite Hs, in_app_iff.
  destruct (single_input_link y l0 [] H) as (_ & Hin & Hto & Huniq). split.
  - intros [Hl | [<- | []]]; [apply (detached_no_into y l Hl) | exact Hin].
  - intros Hl. destruct (into y l) eqn:E.
    + right. left. symmetry. apply Huniq; assumption.
    + left. unfold detached. apply filter_In. rewrite E. auto.
Qed.

End LinkSets.

Section ProbePieces.

Variable nt : node_tree.
Variable surface : socket_ref.
Hypothesis Hwf : well_formed nt.

Local Abbreviation emit := (next_id nt).
Local Abbreviation base := (detached surface nt).
Local Abbreviation Inv := (synthetic nt (detached surface nt)).
Local Abbreviation Hresolved := (proj1 Hwf).
Local Abbreviation Hids := (proj1 (proj2 Hwf)).

Lemma base_in_links : forall l, In l base -> In l (links nt).
Proof. intros l Hl. apply (detached_no_into nt surface l Hl). Qed.

Lemma base_not_into_surface : forall l, In l base -> into surface l = false.
Proof. intros l Hl. apply (detached_no_into nt surface l Hl). Qed.

Lemma pieces_link_to_emit (x : socket_ref) :
  hoare Inv (links_new x (emit_color emit)) (fun _ => Inv) Inv.
Proof.
  apply (synthetic_links_new nt base Hresolved Hids base_in_links).
  - left. cbn. lia.
  - right. reflexivity.
Qed.

Lemma pieces_attempt_link (x : socket_ref) (E : node_tree -> Prop) :
  hoare Inv (attempt (links_new x (emit_color emit))) (fun _ => Inv) E.
Proof. apply hoare_attempt, pieces_link_to_emit. Qed.

Lemma pieces_connect_named_output (src : nat) (outs : list out_socket)
  (names : list string) (E : node_tree -> Prop) :
  hoare Inv (connect_named_output src outs names (emit_color emit)) (fun _ => Inv) E.
Proof.
  induction names as [| nm names IH]; cbn [connect_named_output].
  - apply hoare_ret. auto.
  - destruct (index_of_output nm outs) as [i |]; [| exact IH].
    eapply hoare_bind; [apply pieces_attempt_link |].
    intros [|]; [apply hoare_ret; auto | exact IH].
Qed.

Lemma pieces_connect_output_if_present (src : nat) (outs : list out_socket)
  (nm : string) (E : node_tree -> Prop) :
  hoare Inv (connect_output_if_present src outs nm (emit_color emit)) (fun _ => Inv) E.
Proof.
  unfold connect_output_if_present.
  destruct (index_of_output nm outs); [apply pieces_attempt_link | apply hoare_ret; auto].
Qed.

Lemma pieces_link_surface :
  hoare Inv (links_new (emit_emission emit) surface) (fun _ => Inv) Inv.
Proof.
  apply (synthetic_links_new nt base Hresolved Hids base_in_links).
  - right. apply base_not_into_surface.
  - left. reflexivity.
Qed.

Lemma pieces_remove_emit_links (E : node_tree -> Prop) :
  hoare Inv (remove_emit_links emit) (fun _ => Inv) E.
Proof.
  unfold remove_emit_links.
  apply hoare_get. intros s1 _.
  eapply hoare_bind.
  - apply hoare_for_each. intros l Hl.
    apply (synthetic_links_remove nt base Hresolved Hids base_in_links).
    left. rewrite (output_links_from _ _ _ Hl). cbn. lia.
  - intros u. apply hoare_get. intros s2 _.
    apply hoare_for_each. intros l Hl.
    apply (synthetic_links_remove nt base Hresolved Hids base_in_links).
    right. rewrite (input_links_to _ _ _ Hl). cbn. lia.
Qed.

(** Re-creating a saved link into the sink on the detached links. *)
Lemma pieces_restore_link (l0 : link) :
  In l0 (links nt) -> link_to l0 = surface ->
  hoare (fun s => Inv s /\ links s = base)
        (links_new (link_from l0) (link_to l0))
        (fun _ s => links s = base ++ [l0]) (fun _ => False).
Proof.
  intros Hin Hto s [Hs Hl]. unfold links_new.
  destruct (Hresolved l0 Hin) as [Ho Hi].
  rewrite (has_output_old nt base s _ Hs Ho), (has_input_old nt base s _ Hs Hi).
  cbn [andb links]. rewrite Hl, Hto.
  rewrite filter_id by (intros l Hl'; rewrite (base_not_into_surface l Hl'); reflexivity).
  destruct l0 as [a b c d]. cbn in Hto. subst surface. reflexivity.
Qed.

End ProbePieces.

Section FullSurface.

Variable nt : node_tree.
Hypothesis Hwf : well_formed nt.
Hypothesis Hlabels :
  forall n, In n (nodes nt) -> String.eqb (label n) "Temp RGB for Custom Shader" = false.

Local Abbreviation emit := (next_id nt).

(** The state in which the [try] block of a surface manager starts:
    the links into the sink dropped, the Emission node created. *)
Lemma synthetic_start (surface : socket_ref) (lbl : string) (ins : list in_socket)
  (outs : list out_socket) :
  synthetic nt (detached surface nt)
    (NodeTree
       (map (fun n => if Nat.eqb (node_id n) emit
                      then Node (node_id n) (bl_idname n) (name n) lbl
                                (inputs n) (outputs n) (image n)
                      else n)
            (nodes nt ++ [Node emit "ShaderNodeEmission" "ShaderNodeEmission" "" ins outs false]))
       (detached surface nt) (S emit)).
Proof.
  split; [cbn; lia |]. split.
  - eexists. cbn [nodes]. split.
    + rewrite map_app, (map_old_nodes nt (proj1 (proj2 Hwf))) by lia. reflexivity.
    + cbn. rewrite Nat.eqb_refl. constructor; [cbn; lia | constructor].
  - exists []. cbn [links]. rewrite app_nil_r. split; [reflexivity | constructor].
Qed.

(** X12. The full-surface probe restores the link set of a well-formed tree
    none of whose nodes carries the label of the temporary RGB node,
    whether the body returns or raises. *)
Theorem emission_surface_restores (A : Type) (body : option nat -> M node_tree A) :
  keeps_tree body ->
  same_links (snd (with_ temporary_emission_surface body nt)) nt.
Proof.
  intros Hbody. unfold temporary_emission_surface. rewrite with_get.
  destruct (first_node_of_type nt "ShaderNodeOutputMaterial") as [output |];
    [| rewrite with_ret_state by exact Hbody; intros l; reflexivity].
  destruct (index_of_input "Surface" (inputs output)) as [si |];
    [| intros l; reflexivity].
  destruct (input_links nt (node_id output, si)) as [| l0 rest] eqn:Hlinks;
    [rewrite with_ret_state by exact Hbody; intros l; reflexivity |].
  destruct (single_input_link nt Hwf _ _ _ Hlinks) as (-> & Hin & Hto & Huniq).
  set (surface := (node_id output, si)) in *.
  erewrite with_bind_ok by reflexivity.
  erewrite with_bind_ok by reflexivity.
  erewrite with_bind_ok by reflexivity.
  rewrite with_yield_state by exact Hbody.
  cbn [links nodes next_id].
  rewrite (remove_single_link nt Hwf surface l0 Hlinks).
  apply (same_links_restored nt Hwf surface l0 _ Hlinks).
  match goal with
  | |- links (snd (?fin (snd (?before ?s0)))) = _ =>
      assert (hoare (synthetic nt (detached surface nt)) before
                    (fun _ => synthetic nt (detached surface nt))
                    (synthetic nt (detached surface nt))) as Hbefore;
      [| assert (hoare (synthetic nt (detached surface nt)) fin
                       (fun _ s => links s = detached surface nt ++ [l0])
                       (fun _ => False)) as Hfin;
         [| assert (synthetic nt (detached surface nt) s0) as Hs0 ] ]
  end.
  - (* the try block *)
    eapply hoare_bind with (R := fun _ => synthetic nt (detached surface nt)).
    + repeat match goal with
             | |- hoare _ (if ?c then _ else _) _ _ => destruct c
             end.
      * eapply hoare_bind;
          [apply (pieces_connect_named_output nt surface Hwf) | intros made].
        destruct (negb made && Nat.ltb 0 (length (node_outputs nt (from_node l0))));
          [apply (pieces_attempt_link nt surface Hwf) | apply hoare_ret; auto].
      * apply (pieces_connect_output_if_present nt surface Hwf).
      * apply (pieces_connect_output_if_present nt surface Hwf).
      * apply (pieces_connect_output_if_present nt surface Hwf).
      * apply hoare_ret. auto.
    + intros connection_made.
      eapply hoare_bind with (R := fun _ => synthetic nt (detached surface nt)).
      * destruct (negb connection_made); [| apply hoare_ret; auto].
        eapply hoare_try_except; [apply (pieces_link_to_emit nt surface Hwf) |].
        eapply hoare_bind; [apply synthetic_nodes_new | intros rgb].
        apply hoare_pure. intros Hrgb.
        eapply hoare_bind;
          [apply synthetic_update_node;
             [exact (proj1 (proj2 Hwf)) | exact Hrgb | reflexivity] | intros u1].
        eapply hoare_bind;
          [apply synthetic_update_node;
             [exact (proj1 (proj2 Hwf)) | exact Hrgb | reflexivity] | intros u2].
        apply (pieces_link_to_emit nt surface Hwf).
      * intros u.
        eapply hoare_bind; [apply (pieces_link_surface nt surface Hwf) | intros u'].
        apply hoare_ret. auto.
  - (* the finally block *)
    eapply hoare_bind; [apply (pieces_remove_emit_links nt surface Hwf) | intros u1].
    apply hoare_get. intros s3 Hs3.
    eapply hoare_bind with (R := fun _ => synthetic nt (detached surface nt)).
    + apply hoare_for_each. intros n Hn.
      apply synthetic_nodes_remove;
        [exact (proj1 Hwf) | exact (proj1 (proj2 Hwf)) | apply base_in_links |].
      apply filter_In in Hn as [Hn Hlab].
      destruct Hs3 as (_ & (added & Hnodes & Hadded) & _).
      rewrite Hnodes in Hn. apply in_app_iff in Hn as [Hn | Hn].
      * rewrite (Hlabels n Hn) in Hlab. discriminate.
      * rewrite List.Forall_forall in Hadded. apply Hadded, Hn.
    + intros u2.
      eapply hoare_bind;
        [apply synthetic_remove_emit;
           [exact (proj1 Hwf) | exact (proj1 (proj2 Hwf)) | apply base_in_links]
        | intros u3].
      apply (pieces_restore_link nt surface Hwf l0 Hin Hto).
  - apply synthetic_start.
  - specialize (Hbefore _ Hs0).
    match goal with
    | |- links (snd (?fin (snd ?r))) = _ => destruct r as [[y | e] sb] end;
      cbn [snd]; specialize (Hfin sb Hbefore);
      match goal with
      | |- links (snd ?r) = _ => destruct r as [[u | e'] sf] end;
      cbn [snd]; [exact Hfin | destruct Hfin | exact Hfin | destruct Hfin].
Qed.

End FullSurface.

Section RestrictedProbes.

Variable nt : node_tree.
Hypothesis Hwf : well_formed nt.

Local Abbreviation emit := (next_id nt).

Lemma detached_unlinked (surface : socket_ref) :
  input_links nt surface = [] -> detached surface nt = links nt.
Proof.
  intros H. unfold detached. apply filter_id. intros l Hl.
  destruct (into surface l) eqn:E; [| reflexivity].
  assert (In l (input_links nt surface)) as Hin by (apply input_links_in; auto).
  rewrite H in Hin. destruct Hin.
Qed.

(** [detach_surface] saves the end points of the link into the sink and
    leaves the tree without it. *)
Lemma detach_surface_spec (surface : socket_ref) :
  detach_surface surface nt =
  (Ok (map (fun l => (link_from l, link_to l)) (input_links nt surface)),
   NodeTree (nodes nt) (detached surface nt) (next_id nt)).
Proof.
  unfold detach_surface, bind, get_state.
  destruct (input_links nt surface) as [| l0 rest] eqn:H.
  - cbn. rewrite (detached_unlinked surface H). destruct nt; reflexivity.
  - destruct (single_input_link nt Hwf _ _ _ H) as (-> & _).
    cbn. rewrite (remove_single_link nt Hwf surface l0 H). reflexivity.
Qed.

(** The clean-up the two restricted managers share ends on the links
    the tree had. *)
Lemma restricted_finally (surface : socket_ref) :
  hoare (synthetic nt (detached surface nt))
        (remove_emit_links emit ;;;
         nodes_remove emit ;;;
         restore_links (map (fun l => (link_from l, link_to l))
                            (input_links nt surface)))
        (fun _ s => same_links s nt) (fun _ => False).
Proof.
  eapply hoare_bind; [apply (pieces_remove_emit_links nt surface Hwf) | intros u1].
  eapply hoare_bind;
    [apply synthetic_remove_emit;
       [exact (proj1 Hwf) | exact (proj1 (proj2 Hwf)) | apply base_in_links]
    | intros u2].
  destruct (input_links nt surface) as [| l0 rest] eqn:H.
  - cbn [map restore_links for_each]. apply hoare_ret.
    intros s [_ Hs] l. rewrite Hs, (detached_unlinked surface H). reflexivity.
  - destruct (single_input_link nt Hwf _ _ _ H) as (-> & Hin & Hto & _).
    cbn [map restore_links for_each fst snd].
    eapply hoare_bind; [apply (pieces_restore_link nt surface Hwf l0 Hin Hto) |].
    intros u3. apply hoare_ret. intros s Hs.
    apply (same_links_restored nt Hwf surface l0 s H Hs).
Qed.

Lemma restricted_with (surface : socket_ref) (lbl : string)
  (before : nat -> M node_tree (option nat))
  (A : Type) (body : option nat -> M node_tree A) :
  hoare (synthetic nt (detached surface nt)) (before emit)
        (fun _ => synthetic nt (detached surface nt))
        (synthetic nt (detached surface nt)) ->
  keeps_tree body ->
  same_links
    (snd (with_
            (original_links <- detach_surface surface ;;
             emit <- nodes_new "ShaderNodeEmission" ;;
             set_label emit lbl ;;;
             yield_in_try (before emit)
               (remove_emit_links emit ;;;
                nodes_remove emit ;;;
                restore_links original_links))
            body nt))
    nt.
Proof.
  intros Hbefore Hbody.
  erewrite with_bind_ok by apply detach_surface_spec.
  erewrite with_bind_ok by reflexivity.
  erewrite with_bind_ok by reflexivity.
  rewrite with_yield_state by exact Hbody.
  cbn [links nodes next_id].
  match goal with
  | |- same_links (snd (_ (snd (_ ?s0)))) _ =>
      assert (synthetic nt (detached surface nt) s0) as Hs0
        by apply (synthetic_start nt Hwf)
  end.
  specialize (Hbefore _ Hs0).
  match goal with
  | |- same_links (snd (?fin (snd ?r))) _ => destruct r as [[y | e] sb] end;
    cbn [snd]; pose proof (restricted_finally surface sb Hbefore) as Hfin;
    match goal with
    | |- same_links (snd ?r) _ => destruct r as [[u | e'] sf] end;
    cbn [snd]; first [exact Hfin | destruct Hfin].
Qed.

(** X13. The principled-only probe restores the link set of a well-formed
    tree, whether the body returns or raises, and also when the node
    reference is dead. *)
Theorem principled_only_restores (principled_node : option nat)
  (A : Type) (body : option nat -> M node_tree A) :
  keeps_tree body ->
  same_links (snd (with_ (temporary_principled_only_surface principled_node) body nt)) nt.
Proof.
  intros Hbody. unfold temporary_principled_only_surface. rewrite with_get.
  destruct (first_node_of_type nt "ShaderNodeOutputMaterial") as [output |];
    [| rewrite with_ret_state by exact Hbody; intros l; reflexivity].
  destruct principled_node as [principled |];
    [| rewrite with_ret_state by exact Hbody; intros l; reflexivity].
  destruct (index_of_input "Surface" (inputs output)) as [si |];
    [| intros l; reflexivity].
  apply (restricted_with (node_id output, si) "Principled Only Bake"
           (fun emit =>
              nt1 <- get_state ;;
              match get_node nt1 principled with
              | None => raise ReferenceError
              | Some p =>
                  (match index_of_output "BSDF" (outputs p) with
                   | Some i => links_new (principled, i) (emit_color emit)
                   | None =>
                       if Nat.ltb 0 (length (outputs p))
                       then links_new (principled, 0%nat) (emit_color emit)
                       else ret tt
                   end) ;;;
                  links_new (emit_emission emit) (node_id output, si) ;;;
                  ret (Some emit)
              end)); [| exact Hbody].
  apply hoare_get. intros s1 _.
  destruct (get_node s1 principled) as [p |]; [| apply hoare_raise; auto].
  eapply hoare_bind with (R := fun _ => synthetic nt (detached (node_id output, si) nt)).
  - destruct (index_of_output "BSDF" (outputs p)).
    + apply (pieces_link_to_emit nt _ Hwf).
    + destruct (Nat.ltb 0 (length (outputs p)));
        [apply (pieces_link_to_emit nt _ Hwf) | apply hoare_ret; auto].
  - intros u. eapply hoare_bind; [apply (pieces_link_surface nt _ Hwf) |].
    intros u'. apply hoare_ret. auto.
Qed.

(** X14. The custom-shader-only probe restores the link set of a
    well-formed tree, whether the body returns or raises. *)
Theorem custom_shader_only_restores (custom_shader_node : option nat)
  (A : Type) (body : option nat -> M node_tree A) :
  keeps_tree body ->
  same_links
    (snd (with_ (temporary_custom_shader_only_surface custom_shader_node) body nt)) nt.
Proof.
  intros Hbody. unfold temporary_custom_shader_only_surface. rewrite with_get.
  destruct (first_node_of_type nt "ShaderNodeOutputMaterial") as [output |];
    [| rewrite with_ret_state by exact Hbody; intros l; reflexivity].
  destruct custom_shader_node as [custom |];
    [| rewrite with_ret_state by exact Hbody; intros l; reflexivity].
  destruct (index_of_input "Surface" (inputs output)) as [si |];
    [| intros l; reflexivity].
  match goal with
  | |- same_links (snd (with_ (bind _ (fun ol => bind _ (fun e =>
         bind _ (fun _ => yield_in_try (@?before e) _)))) _ _)) _ =>
      apply (restricted_with (node_id output, si) "Custom Shader Only Bake" before);
        [| exact Hbody]
  end.
  apply hoare_get. intros s1 _.
  destruct (get_node s1 custom) as [c |]; [| apply hoare_raise; auto].
  eapply hoare_bind with (R := fun _ => synthetic nt (detached (node_id output, si) nt)).
  - destruct (String.eqb (bl_idname c) "ShaderNodeNodeGroup").
    + apply (pieces_connect_named_output nt _ Hwf).
    + destruct (String.eqb (bl_idname c) "ShaderNodeEmission").
      * destruct (index_of_output "Emission" (outputs c)); [| apply hoare_ret; auto].
        eapply hoare_bind; [apply (pieces_link_to_emit nt _ Hwf) |].
        intros u. apply hoare_ret. auto.
      * destruct (index_of_output "BSDF" (outputs c)); [| apply hoare_ret; auto].
        eapply hoare_bind; [apply (pieces_link_to_emit nt _ Hwf) |].
        intros u. apply hoare_ret. auto.
  - intros connection_made.
    eapply hoare_bind with (R := fun _ => synthetic nt (detached (node_id output, si) nt)).
    + destruct (negb connection_made && Nat.ltb 0 (length (outputs c)));
        [| apply hoare_ret; auto].
      eapply hoare_bind; [apply (pieces_link_to_emit nt _ Hwf) |].
      intros u. apply hoare_ret. auto.
    + intros [|]; [| apply hoare_ret; auto].
      eapply hoare_bind; [apply (pieces_link_surface nt _ Hwf) |].
      intros u. apply hoare_ret. auto.
Qed.

End RestrictedProbes.

(** The sample graphs are well formed. *)
Lemma sample_graphs_well_formed :
  well_formed mixed_network_graph /\ well_formed shared_output_graph /\
  well_formed textured_graph /\ well_formed procedural_graph.
Proof.
  split; [| split; [| split]]; apply check_well_formed_sound; reflexivity.
Qed.

Lemma emission_surface_restores_witness :
  well_formed mixed_network_graph /\
  (forall n, In n (nodes mixed_network_graph) ->
     String.eqb (label n) "Temp RGB for Custom Shader" = false) /\
  keeps_tree (fun _ : option nat => ret tt : M node_tree unit) /\
  same_links (snd (with_ temporary_emission_surface
                         (fun _ : option nat => ret tt : M node_tree unit)
                         mixed_network_graph))
             mixed_network_graph.
Proof.
  assert (well_formed mixed_network_graph) as Hwf
    by (apply check_well_formed_sound; reflexivity).
  assert (forall n, In n (nodes mixed_network_graph) ->
            String.eqb (label n) "Temp RGB for Custom Shader" = false) as Hlabels
    by (intros n [<- | [<- | [<- | [<- | []]]]]; reflexivity).
  assert (keeps_tree (fun _ : option nat => ret tt : M node_tree unit)) as Hbody
    by (intros y s; reflexivity).
  split; [exact Hwf |]. split; [exact Hlabels |]. split; [exact Hbody |].
  exact (emission_surface_restores mixed_network_graph Hwf Hlabels unit _ Hbody).
Defined.

Lemma principled_only_restores_witness :
  well_formed mixed_network_graph /\
  keeps_tree (fun _ : option nat => ret tt : M node_tree unit) /\
  same_links (snd (with_ (temporary_principled_only_surface (Some 2%nat))
                         (fun _ : option nat => ret tt : M node_tree unit)
                         mixed_network_graph))
             mixed_network_graph.
Proof.
  assert (well_formed mixed_network_graph) as Hwf
    by (apply check_well_formed_sound; reflexivity).
  assert (keeps_tree (fun _ : option nat => ret tt : M node_tree unit)) as Hbody
    by (intros y s; reflexivity).
  split; [exact Hwf |]. split; [exact Hbody |].
  exact (principled_only_restores mixed_network_graph Hwf (Some 2%nat) unit _ Hbody).
Defined.

Lemma custom_shader_only_restores_witness :
  well_formed mixed_network_graph /\
  keeps_tree (fun _ : option nat => ret tt : M node_tree unit) /\
  same_links (snd (with_ (temporary_custom_shader_only_surface (Some 3%nat))
                         (fun _ : option nat => ret tt : M node_tree unit)
                         mixed_network_graph))
             mixed_network_graph.
Proof.
  assert (well_formed mixed_network_graph) as Hwf
    by (apply check_well_formed_sound; reflexivity).
  assert (keeps_tree (fun _ : option nat => ret tt : M node_tree unit)) as Hbody
    by (intros y s; reflexivity).
  split; [exact Hwf |]. split; [exact Hbody |].
  exact (custom_shader_only_restores mixed_network_graph Hwf (Some 3%nat) unit _ Hbody).
Defined.

(* ===================================================================== *)
(** * Properties of the input mapping and the analysis *)
(* ===================================================================== *)

Section InputMapping.

Lemma first_available (available_inputs candidates : list string) :
  candidates <> [] ->
  let chosen :=
    match find (fun candidate => mem_string candidate available_inputs) candidates with
    | Some candidate => candidate
    | None => hd "" candidates
    end in
  In chosen candidates /\
  ((exists c, In c candidates /\ In c available_inputs) -> In chosen available_inputs).
Proof.
  intros Hne. cbv zeta.
  destruct (find _ candidates) as [c |] eqn:E.
  - apply find_some in E as [Hin Hm]. split; [exact Hin |]. intros _.
    unfold mem_string in Hm. apply existsb_exists in Hm as (y & Hy & Ey).
    apply String.eqb_eq in Ey. subst. exact Hy.
  - split; [destruct candidates; [contradiction | left; reflexivity] |].
    intros (c & Hc & Ha). exfalso.
    pose proof (find_none _ _ E c Hc) as Hf. cbn in Hf.
    unfold mem_string in Hf. apply not_true_iff_false in Hf. apply Hf.
    apply existsb_exists. exists c. split; [exact Ha | apply String.eqb_refl].
Qed.

(** X10. [create_input_mapping] has an entry for each of its eleven channel
    keys; the entry is one of the candidate names of the key, and it is
    an input of the host's principled node whenever one of the
    candidates is. *)
Theorem create_input_mapping_picks_available (available_inputs : list string) :
  Forall (fun kc =>
            exists chosen,
              mapping_get (create_input_mapping available_inputs) (fst kc) = Some chosen /\
              In chosen (snd kc) /\
              ((exists c, In c (snd kc) /\ In c available_inputs) ->
               In chosen available_inputs))
         mapping_candidates.
Proof.
  unfold mapping_candidates.
  repeat (apply Forall_cons; split;
          [ eexists; split; [reflexivity |];
            apply (first_available available_inputs); discriminate |]).
  apply Forall_nil. exact I.
Qed.

End InputMapping.

Section AnalysisInvariant.

(** X11. The material type and the flags of an analysis agree: a material
    typed [procedural] or [default] has no image texture, one typed
    [textured] or [mixed] has one, and every type but [unknown] and
    [custom_shader] comes with a principled node. *)
Theorem analysis_type_agrees (m : option material) :
  let a := analyze_material m in
  (In (material_type a) ["procedural"; "default"] -> has_image_textures a = false) /\
  (In (material_type a) ["textured"; "mixed"] -> has_image_textures a = true) /\
  (~ In (material_type a) ["unknown"; "custom_shader"] -> principled_node a <> None).
Proof.
  cbv zeta.
  assert (forall a : analysis,
            material_type a = "unknown" -> has_image_textures a = false ->
            (In (material_type a) ["procedural"; "default"] -> has_image_textures a = false) /\
            (In (material_type a) ["textured"; "mixed"] -> has_image_textures a = true) /\
            (~ In (material_type a) ["unknown"; "custom_shader"] -> principled_node a <> None))
    as Hu.
  { intros a -> ->. split; [reflexivity |]. split.
    - intros [H | [H | []]]; discriminate H.
    - intros H. exfalso. apply H. left. reflexivity. }
  destruct m as [[un [nt |]] |]; cbn [analyze_material use_nodes mat_node_tree];
    try (apply Hu; reflexivity); destruct un; cbn [negb]; try (apply Hu; reflexivity).
  unfold analyze_tree. cbv zeta.
  destruct (analyze_network nt _) as [[[pc cc] net] | e]; [| apply Hu; reflexivity].
  destruct (first_node_of_type nt "ShaderNodeBsdfPrincipled") as [p |];
    cbn [material_type has_image_textures principled_node].
  - unfold determine_material_type.
    repeat match goal with
           | |- context [negb (Nat.eqb (length ?l) 0)] =>
               generalize (negb (Nat.eqb (length l) 0)); intro
           end.
    repeat match goal with b : bool |- _ => destruct b end; cbn;
      (split; [| split]);
      try (intros [H | [H | []]]; first [discriminate H | reflexivity]);
      try (intros _; discriminate).
  - destruct (negb _); cbn; (split; [| split]);
      try (intros [H | [H | []]]; discriminate H);
      intros H; exfalso; apply H; auto.
Qed.

End AnalysisInvariant.

(* ===================================================================== *)
(** * Properties of the path display and of [bake_generic] *)
(* ===================================================================== *)

Section PathDisplay.

(** X1. For a path that is not empty and a limit of four characters or
    more, [safe_path_display] returns at most [max_length] characters:
    the path without the code points UTF-8 cannot encode when that
    fits, and three dots followed by its last [max_length - 3]
    characters otherwise. *)
Theorem safe_path_display_length (path : pystr) (max_length : Z) :
  path <> [] -> 3 < max_length ->
  let safe_path := List.filter (fun c => negb (is_surrogate c)) path in
  let shown := safe_path_display path max_length in
  Z.of_nat (length shown) <= max_length /\
  (Z.of_nat (length safe_path) <= max_length -> shown = safe_path) /\
  (max_length < Z.of_nat (length safe_path) ->
   shown = str "..." ++ drop (length safe_path - Z.to_nat (max_length - 3)) safe_path /\
   Z.of_nat (length shown) = max_length).
Proof.
  intros Hne Hmax. cbv zeta. unfold safe_path_display, safe_encode_text.
  destruct path as [| c path]; [contradiction |].
  set (safe_path := List.filter _ (c :: path)).
  destruct (Z.ltb_spec max_length (Z.of_nat (length safe_path))) as [Hlong | Hfit].
  - assert (slice_from (- (max_length - 3)) safe_path =
            drop (length safe_path - Z.to_nat (max_length - 3)) safe_path) as Es.
    { unfold slice_from. destruct (Z.ltb_spec (- (max_length - 3)) 0); [| lia].
      f_equal. lia. }
    rewrite Es.
    assert (Z.of_nat (length (str "..." ++
              drop (length safe_path - Z.to_nat (max_length - 3)) safe_path)) = max_length)
      as El.
    { rewrite length_app, length_drop. change (length (str "...")) with 3%nat. lia. }
    split; [lia |]. split; [lia |]. intros _. split; [reflexivity | exact El].
  - split; [exact Hfit |]. split; [reflexivity | lia].
Qed.

Lemma safe_path_display_length_witness :
  str "//textures/wood_floor" <> [] /\ 3 < 10 /\
  let safe_path := List.filter (fun c => negb (is_surrogate c)) (str "//textures/wood_floor") in
  let shown := safe_path_display (str "//textures/wood_floor") 10 in
  Z.of_nat (length shown) <= 10 /\
  (Z.of_nat (length safe_path) <= 10 -> shown = safe_path) /\
  (10 < Z.of_nat (length safe_path) ->
   shown = str "..." ++ drop (length safe_path - Z.to_nat (10 - 3)) safe_path /\
   Z.of_nat (length shown) = 10).
Proof.
  split; [discriminate |]. split; [lia |].
  apply (safe_path_display_length (str "//textures/wood_floor") 10); [discriminate | lia].
Defined.

End PathDisplay.

Section RenderSettings.

Import RenderScene.

Lemma restore_shadows_other (saved : list (nat * bool)) (data : gmap nat (option bool))
  (d : nat) :
  ~ In d (map fst saved) -> restore_shadows saved data !! d = data !! d.
Proof.
  unfold restore_shadows. revert data.
  induction saved as [| [d' b] saved IH]; intros data Hd; cbn [fold_left]; [reflexivity |].
  rewrite IH by (intros H; apply Hd; right; exact H).
  destruct (data !! d') as [[u |] |]; try reflexivity.
  apply lookup_insert_ne. intros ->. apply Hd. left. reflexivity.
Qed.

Lemma disable_shadows_acc (ds : list nat) (data : gmap nat (option bool))
  (acc : list (nat * bool)) :
  fold_left
    (fun '(data, original_light_settings) d =>
       match data !! d with
       | Some (Some use_shadow) =>
           (<[d := Some false]> data, original_light_settings ++ [(d, use_shadow)])
       | _ => (data, original_light_settings ++ [(d, true)])
       end)
    ds (data, acc) =
  (fst (disable_shadows ds data), acc ++ snd (disable_shadows ds data)).
Proof.
  unfold disable_shadows. revert data acc.
  induction ds as [| d ds IH]; intros data acc; cbn [fold_left].
  - cbn. rewrite app_nil_r. reflexivity.
  - destruct (data !! d) as [[u |] |]; cbn [app];
      rewrite IH; rewrite (IH _ [_]); cbn [fst snd]; rewrite <- app_assoc; reflexivity.
Qed.

Lemma disable_shadows_cons (d : nat) (ds : list nat) (data : gmap nat (option bool)) :
  disable_shadows (d :: ds) data =
  match data !! d with
  | Some (Some use_shadow) =>
      (fst (disable_shadows ds (<[d := Some false]> data)),
       (d, use_shadow) :: snd (disable_shadows ds (<[d := Some false]> data)))
  | _ => (fst (disable_shadows ds data), (d, true) :: snd (disable_shadows ds data))
  end.
Proof.
  unfold disable_shadows at 1. cbn [fold_left].
  destruct (data !! d) as [[u |] |]; cbn [app]; apply disable_shadows_acc.
Qed.

Lemma disable_shadows_touched (ds : list nat) (data : gmap nat (option bool)) :
  map fst (snd (disable_shadows ds data)) = ds.
Proof.
  revert data. induction ds as [| d ds IH]; intros data; [reflexivity |].
  rewrite disable_shadows_cons.
  destruct (data !! d) as [[u |] |]; cbn [snd map fst]; rewrite IH; reflexivity.
Qed.

Lemma disable_shadows_other (ds : list nat) (data : gmap nat (option bool)) (d : nat) :
  ~ In d ds -> fst (disable_shadows ds data) !! d = data !! d.
Proof.
  revert data. induction ds as [| d' ds IH]; intros data Hd; [reflexivity |].
  rewrite disable_shadows_cons.
  assert (~ In d ds) as Hd' by (intros H; apply Hd; right; exact H).
  destruct (data !! d') as [[u |] |]; cbn [fst]; rewrite IH by exact Hd'; try reflexivity.
  apply lookup_insert_ne. intros ->. apply Hd. left. reflexivity.
Qed.

Lemma restore_shadows_insert (saved : list (nat * bool)) (data : gmap nat (option bool))
  (d : nat) (v : option bool) :
  ~ In d (map fst saved) ->
  restore_shadows saved (<[d := v]> data) = <[d := v]> (restore_shadows saved data).
Proof.
  unfold restore_shadows. revert data.
  induction saved as [| [d' b] saved IH]; intros data Hd; cbn [fold_left]; [reflexivity |].
  assert (d' <> d) as Hne by (intros ->; apply Hd; left; reflexivity).
  assert (~ In d (map fst saved)) as Hd' by (intros H; apply Hd; right; exact H).
  rewrite lookup_insert_ne by congruence.
  destruct (data !! d') as [[u |] |]; try (apply IH; exact Hd').
  rewrite insert_insert_ne by congruence.
  apply IH. exact Hd'.
Qed.

Lemma restore_disable (ds : list nat) (data : gmap nat (option bool)) :
  NoDup ds ->
  restore_shadows (snd (disable_shadows ds data)) (fst (disable_shadows ds data)) = data.
Proof.
  revert data. induction ds as [| d ds IH]; intros data Hnd; [reflexivity |].
  apply NoDup_cons in Hnd as [Hd Hnd].
  assert (~ In d ds) as Hd' by (intros H; apply Hd, list_elem_of_In, H).
  rewrite disable_shadows_cons.
  destruct (data !! d) as [[u |] |] eqn:Ed; cbn [fst snd].
  - unfold restore_shadows. cbn [fold_left].
    change (fold_left _ ?l ?m) with (restore_shadows l m).
    rewrite disable_shadows_other by exact Hd'. rewrite lookup_insert_eq.
    rewrite restore_shadows_insert by (rewrite disable_shadows_touched; exact Hd').
    rewrite IH by exact Hnd. rewrite insert_insert_eq. apply insert_id. exact Ed.
  - unfold restore_shadows. cbn [fold_left].
    change (fold_left _ ?l ?m) with (restore_shadows l m).
    rewrite disable_shadows_other by exact Hd'. rewrite Ed. apply IH, Hnd.
  - unfold restore_shadows. cbn [fold_left].
    change (fold_left _ ?l ?m) with (restore_shadows l m).
    rewrite disable_shadows_other by exact Hd'. rewrite Ed. apply IH, Hnd.
Qed.

(** X18. [bake_generic] gives the scene back with the bake passes, the
    normal-map settings and the shadow flags of the lights as it found
    them, whether the engine returns or raises (no two light objects
    sharing a data block).  It leaves the bake type at the one asked
    for, and a bounce limit it raised to 4 for a lighting bake stays
    raised. *)
Theorem bake_generic_restores_settings (engine : scene -> bool) (bake_type : string)
  (use_lighting : bool) (shadow_mode : string) (sc : scene) :
  NoDup (lights sc) ->
  let '(outcome, sc') := bake_generic engine bake_type use_lighting shadow_mode sc in
  use_pass_direct sc' = use_pass_direct sc /\
  use_pass_indirect sc' = use_pass_indirect sc /\
  use_pass_color sc' = use_pass_color sc /\
  (normal_space sc', normal_r sc', normal_g sc', normal_b sc') =
  (normal_space sc, normal_r sc, normal_g sc, normal_b sc) /\
  light_data sc' = light_data sc /\
  objects sc' = objects sc /\
  cycles_bake_type sc' = bake_type /\
  max_bounces sc' =
  (if use_lighting && String.eqb bake_type "COMBINED"
   then Z.max 4 (max_bounces sc) else max_bounces sc).
Proof.
  intros Hnd. unfold bake_generic. cbv zeta.
  assert (forall x : Z, (if x <? 4 then 4 else x) = Z.max 4 x) as Hmax
    by (intros x; destruct (Z.ltb_spec x 4); lia).
  destruct (use_lighting && String.eqb bake_type "COMBINED") eqn:Elight.
  - destruct (String.eqb shadow_mode "NO_SHADOWS").
    + pose proof (restore_disable (lights sc) (light_data sc) Hnd) as Hr.
      destruct (String.eqb bake_type "NORMAL");
        unfold lights in *; cbn [light_data objects] in *;
        destruct (disable_shadows _ (light_data sc)) as [data saved];
        cbn [fst snd] in Hr; cbn; rewrite Hr, Hmax; repeat split; reflexivity.
    + destruct (String.eqb bake_type "NORMAL"); cbn; rewrite Hmax; repeat split; reflexivity.
  - destruct (String.eqb bake_type "NORMAL"); cbn; repeat split; reflexivity.
Qed.

End RenderSettings.

Lemma bake_generic_restores_settings_witness :
  let sc := RenderScene.Scene "EMIT" false true false "OBJECT" "POS_X" "POS_Z" "NEG_Y" 2
              [ RenderScene.SceneObject "MESH" (Some 0%nat);
                RenderScene.SceneObject "LIGHT" (Some 1%nat);
                RenderScene.SceneObject "LIGHT" (Some 2%nat);
                RenderScene.SceneObject "LIGHT" None ]
              (<[1%nat := Some true]> (<[2%nat := None]> ∅)) in
  NoDup (RenderScene.lights sc) /\
  let '(outcome, sc') :=
    RenderScene.bake_generic (fun _ => false) "COMBINED" true "NO_SHADOWS" sc in
  RenderScene.use_pass_direct sc' = RenderScene.use_pass_direct sc /\
  RenderScene.use_pass_indirect sc' = RenderScene.use_pass_indirect sc /\
  RenderScene.use_pass_color sc' = RenderScene.use_pass_color sc /\
  (RenderScene.normal_space sc', RenderScene.normal_r sc',
   RenderScene.normal_g sc', RenderScene.normal_b sc') =
  (RenderScene.normal_space sc, RenderScene.normal_r sc,
   RenderScene.normal_g sc, RenderScene.normal_b sc) /\
  RenderScene.light_data sc' = RenderScene.light_data sc /\
  RenderScene.objects sc' = RenderScene.objects sc /\
  RenderScene.cycles_bake_type sc' = "COMBINED" /\
  RenderScene.max_bounces sc' =
  (if true && String.eqb "COMBINED" "COMBINED"
   then Z.max 4 (RenderScene.max_bounces sc) else RenderScene.max_bounces sc).
Proof.
  cbv zeta.
  assert (NoDup [1%nat; 2%nat]) as Hnd
    by (apply (bool_decide_eq_true_1 (NoDup [1%nat; 2%nat])); reflexivity).
  split; [exact Hnd |].
  apply (bake_generic_restores_settings (fun _ => false) "COMBINED" true "NO_SHADOWS"
           (RenderScene.Scene "EMIT" false true false "OBJECT" "POS_X" "POS_Z" "NEG_Y" 2
              [ RenderScene.SceneObject "MESH" (Some 0%nat);
                RenderScene.SceneObject "LIGHT" (Some 1%nat);
                RenderScene.SceneObject "LIGHT" (Some 2%nat);
                RenderScene.SceneObject "LIGHT" None ]
              (<[1%nat := Some true]> (<[2%nat := None]> ∅))) Hnd).
Defined.

(* ===================================================================== *)
(** * Properties of the presets *)
(* ===================================================================== *)

Section PresetFacts.

Variable isalnum : N -> bool.
Variable isspace : N -> bool.
Variable writable : pystr -> bool.
Variable accepts : string -> json_value -> bool.

Lemma lstrip_suffix (s : pystr) : exists pre, s = pre ++ lstrip isspace s.
Proof.
  induction s as [| c s [pre IH]]; cbn.
  - exists []. reflexivity.
  - destruct (isspace c).
    + exists (c :: pre). cbn. f_equal. exact IH.
    + exists []. reflexivity.
Qed.

Lemma lstrip_in (s : pystr) (c : N) : In c (lstrip isspace s) -> In c s.
Proof.
  destruct (lstrip_suffix s) as [pre E]. intros H. rewrite E.
  apply in_or_app. right. exact H.
Qed.

Lemma strip_in (s : pystr) (c : N) : In c (strip isspace s) -> In c s.
Proof.
  unfold strip. intros H. apply in_rev in H. apply lstrip_in in H.
  apply in_rev in H. apply lstrip_in in H. exact H.
Qed.

Lemma lstrip_head (s : pystr) (c : N) (rest : pystr) :
  lstrip isspace s = c :: rest -> isspace c = false.
Proof.
  induction s as [| d s IH]; cbn; [discriminate |].
  destruct (isspace d) eqn:E; [exact IH |]. intros [= <- _]. exact E.
Qed.

Lemma lstrip_fixed (s : pystr) :
  (forall c rest, s = c :: rest -> isspace c = false) -> lstrip isspace s = s.
Proof.
  destruct s as [| c s]; [reflexivity |]. intros H. cbn.
  rewrite (H c s eq_refl). reflexivity.
Qed.

(** X6. The name a preset is saved under holds only characters of the name
    that was typed, each of them alphanumeric, a space, a hyphen or an
    underscore, and it neither starts nor ends with a whitespace
    character. *)
Theorem safe_preset_name_characters (preset_name : pystr) :
  (forall c, In c (safe_preset_name isalnum isspace preset_name) ->
     In c preset_name /\
     (isalnum c = true \/ c = 32%N \/ c = 45%N \/ c = 95%N)) /\
  (forall c rest, safe_preset_name isalnum isspace preset_name = c :: rest ->
     isspace c = false) /\
  (forall c front, safe_preset_name isalnum isspace preset_name = front ++ [c] ->
     isspace c = false).
Proof.
  unfold safe_preset_name. split; [| split].
  - intros c Hc. apply strip_in in Hc. apply filter_In in Hc as [Hin Hc].
    split; [exact Hin |].
    apply orb_true_iff in Hc as [Hc | Hc]; [left; exact Hc | right].
    cbn [existsb] in Hc. rewrite !orb_true_iff, !N.eqb_eq in Hc.
    destruct Hc as [? | [? | [? | ?]]]; auto; discriminate.
  - intros c rest E. unfold strip in E.
    set (f := List.filter _ preset_name) in *.
    destruct (lstrip_suffix (rev (lstrip isspace f))) as [pre Hpre].
    assert (lstrip isspace f = rev (lstrip isspace (rev (lstrip isspace f))) ++ rev pre) as E2.
    { rewrite <- rev_app_distr, <- Hpre, rev_involutive. reflexivity. }
    rewrite E in E2. cbn in E2. apply lstrip_head in E2. exact E2.
  - intros c front E. unfold strip in E.
    set (f := List.filter _ preset_name) in *.
    apply (f_equal (@rev N)) in E. rewrite rev_involutive, rev_app_distr in E. cbn in E.
    apply lstrip_head in E. exact E.
Qed.

Lemma prop_of_inj (a b : string) : prop_of a = prop_of b -> a = b.
Proof. unfold prop_of. cbn. intros [= E]. exact E. Qed.

Lemma mem_string_In (x : string) (l : list string) : mem_string x l = true <-> In x l.
Proof.
  unfold mem_string. rewrite existsb_exists. split.
  - intros (y & Hy & E). apply String.eqb_eq in E. subst. exact Hy.
  - intros H. exists x. split; [exact H | apply String.eqb_refl].
Qed.

Lemma collect_settings_lookup (keys : list string) (scene : scene_props) (k : string) :
  collect_settings keys scene !! k =
  if mem_string k keys then Some (scene (prop_of k)) else None.
Proof.
  unfold collect_settings. induction keys as [| k0 keys IH]; cbn [map].
  - apply lookup_empty.
  - rewrite list_to_map_cons. cbn [fst snd]. unfold mem_string in *. cbn [existsb].
    destruct (String.eqb_spec k k0) as [-> | Hne].
    + rewrite lookup_insert_eq. reflexivity.
    + rewrite lookup_insert_ne by (intros E; apply Hne; symmetry; exact E).
      cbn [orb]. exact IH.
Qed.

Lemma apply_settings_spec (keys : list string) (settings : gmap string json_value)
  (scene : scene_props) :
  (forall k v, In k keys -> settings !! k = Some v -> accepts (prop_of k) v = true) ->
  exists scene',
    apply_settings accepts keys settings scene = (FINISHED, scene') /\
    (forall k v, In k keys -> settings !! k = Some v -> scene' (prop_of k) = v) /\
    (forall p, (forall k, In k keys -> settings !! k <> None -> p <> prop_of k) ->
               scene' p = scene p).
Proof.
  revert scene. induction keys as [| k0 keys IH]; intros scene Hacc; cbn [apply_settings].
  - exists scene. split; [reflexivity |]. split; [intros k v [] | reflexivity].
  - destruct (settings !! k0) as [v0 |] eqn:E0.
    + rewrite (Hacc k0 v0 (or_introl eq_refl) E0).
      destruct (IH (set_prop (prop_of k0) v0 scene)) as (scene' & E & H1 & H2).
      { intros k v Hk. apply Hacc. right. exact Hk. }
      exists scene'. split; [exact E |]. split.
      * intros k v [<- | Hk] Ek; [| apply H1; assumption].
        destruct (in_dec String.string_dec k0 keys) as [Hin | Hnin];
          [apply H1; assumption |].
        rewrite H2.
        -- unfold set_prop. rewrite String.eqb_refl. congruence.
        -- intros k Hk _ Ep. apply prop_of_inj in Ep. subst k. contradiction.
      * intros p Hp. rewrite H2.
        -- unfold set_prop. destruct (String.eqb_spec p (prop_of k0)) as [-> | _];
             [| reflexivity].
           exfalso. apply (Hp k0 (or_introl eq_refl)); [congruence | reflexivity].
        -- intros k Hk. apply Hp. right. exact Hk.
    + destruct (IH scene) as (scene' & E & H1 & H2).
      { intros k v Hk. apply Hacc. right. exact Hk. }
      exists scene'. split; [exact E |]. split.
      * intros k v [<- | Hk] Ek; [congruence | apply H1; assumption].
      * intros p Hp. apply H2. intros k Hk. apply Hp. right. exact Hk.
Qed.

Lemma save_preset_execute_finished (keys : list string) (preset_name : pystr)
  (scene scene1 : scene_props) (files files1 : preset_files) :
  save_preset_execute isalnum isspace writable keys preset_name scene files
  = (FINISHED, scene1, files1) ->
  scene1 = set_prop "mbnl_preset_list" (JStr (safe_preset_name isalnum isspace preset_name))
             scene /\
  files1 = <[get_preset_filepath (safe_preset_name isalnum isspace preset_name)
             := collect_settings keys scene]> files.
Proof.
  unfold save_preset_execute, save_preset_to_file.
  destruct (strip isspace preset_name); [discriminate |].
  destruct (safe_preset_name isalnum isspace preset_name) eqn:En; [discriminate |].
  cbv zeta. destruct (writable _); [| discriminate].
  intros [= <- <-]. split; reflexivity.
Qed.

Lemma preset_round_trip_general (saved loaded : list string) (preset_name : pystr)
  (scene0 scene1 scene2 : scene_props) (files0 files1 : preset_files) :
  save_preset_execute isalnum isspace writable saved preset_name scene0 files0
  = (FINISHED, scene1, files1) ->
  safe_preset_name isalnum isspace preset_name <> str "NONE" ->
  scene2 "mbnl_preset_list" = JStr (safe_preset_name isalnum isspace preset_name) ->
  saved <> [] ->
  (forall k, In k saved -> accepts (prop_of k) (scene0 (prop_of k)) = true) ->
  exists scene3,
    load_preset_execute accepts loaded scene2 files1 = (FINISHED, scene3) /\
    (forall k, In k saved -> In k loaded -> scene3 (prop_of k) = scene0 (prop_of k)) /\
    (forall p, (forall k, In k saved -> In k loaded -> p <> prop_of k) ->
               scene3 p = scene2 p).
Proof.
  intros Hsave Hnone Hsel Hne Hacc.
  apply save_preset_execute_finished in Hsave as [-> ->].
  unfold load_preset_execute. rewrite Hsel.
  rewrite bool_decide_eq_false_2 by exact Hnone.
  unfold load_preset_from_file.
  assert ((<[get_preset_filepath (safe_preset_name isalnum isspace preset_name)
             := collect_settings saved scene0]> files0 : preset_files)
          !! get_preset_filepath (safe_preset_name isalnum isspace preset_name)
          = Some (collect_settings saved scene0)) as El
    by (unfold preset_files; apply lookup_insert_eq).
  rewrite El.
  rewrite bool_decide_eq_false_2.
  2: { destruct saved as [| k0 rest]; [contradiction |]. intros E.
       pose proof (collect_settings_lookup (k0 :: rest) scene0 k0) as Hl.
       rewrite E, lookup_empty in Hl.
       rewrite (proj2 (mem_string_In k0 (k0 :: rest)) (or_introl eq_refl)) in Hl.
       discriminate. }
  destruct (apply_settings_spec loaded (collect_settings saved scene0) scene2)
    as (scene3 & E & H1 & H2).
  { intros k v Hk Ek. rewrite collect_settings_lookup in Ek.
    destruct (mem_string k saved) eqn:Ein; [| discriminate].
    apply mem_string_In in Ein. injection Ek as <-. apply Hacc, Ein. }
  exists scene3. split; [exact E |]. split.
  - intros k Hs Hl. apply H1; [exact Hl |].
    rewrite collect_settings_lookup, (proj2 (mem_string_In k saved) Hs). reflexivity.
  - intros p Hp. apply H2. intros k Hl Hsome. apply Hp; [| exact Hl].
    rewrite collect_settings_lookup in Hsome.
    destruct (mem_string k saved) eqn:Ein; [| contradiction].
    apply mem_string_In in Ein. exact Ein.
Qed.

(** X8. After [MBNL_OT_save_preset] has saved a preset, [MBNL_OT_load_preset]
    on that preset gives every saved setting the value it had when the
    preset was saved, whatever the settings were changed to in
    between, and it changes no other property of the scene.  The name
    of the preset must not be [NONE], which the load operator takes for
    "no preset selected". *)
Theorem preset_round_trip (preset_name : pystr)
  (scene0 scene1 scene2 : scene_props) (files0 files1 : preset_files) :
  save_preset_execute isalnum isspace writable saved_keys preset_name scene0 files0
  = (FINISHED, scene1, files1) ->
  safe_preset_name isalnum isspace preset_name <> str "NONE" ->
  scene2 "mbnl_preset_list" = JStr (safe_preset_name isalnum isspace preset_name) ->
  (forall k, In k saved_keys -> accepts (prop_of k) (scene0 (prop_of k)) = true) ->
  exists scene3,
    load_preset_execute accepts loaded_keys scene2 files1 = (FINISHED, scene3) /\
    (forall k, In k saved_keys -> scene3 (prop_of k) = scene0 (prop_of k)) /\
    (forall p, ~ In p (map prop_of saved_keys) -> scene3 p = scene2 p).
Proof.
  intros Hsave Hnone Hsel Hacc.
  destruct (preset_round_trip_general saved_keys loaded_keys preset_name
              scene0 scene1 scene2 files0 files1 Hsave Hnone Hsel ltac:(discriminate) Hacc)
    as (scene3 & E & H1 & H2).
  exists scene3. split; [exact E |]. split.
  - intros k Hk. apply H1; exact Hk.
  - intros p Hp. apply H2. intros k Hk _ ->. apply Hp. apply in_map. exact Hk.
Qed.

(** X9. In [src/unnamed/part_000] the load operator applies the saved
    settings but for the colour-space settings: those, and the shadow
    mode, which the save operator does not collect, keep the values
    they had before the load. *)
Theorem preset_round_trip_part_000 (preset_name : pystr)
  (scene0 scene1 scene2 : scene_props) (files0 files1 : preset_files) :
  save_preset_execute isalnum isspace writable saved_keys_part_000 preset_name scene0 files0
  = (FINISHED, scene1, files1) ->
  safe_preset_name isalnum isspace preset_name <> str "NONE" ->
  scene2 "mbnl_preset_list" = JStr (safe_preset_name isalnum isspace preset_name) ->
  (forall k, In k saved_keys_part_000 -> accepts (prop_of k) (scene0 (prop_of k)) = true) ->
  exists scene3,
    load_preset_execute accepts loaded_keys_part_000 scene2 files1 = (FINISHED, scene3) /\
    (forall k, In k loaded_keys_part_000 -> k <> "lighting_shadow_mode" ->
               scene3 (prop_of k) = scene0 (prop_of k)) /\
    (forall k, In k [ "lighting_shadow_mode"; "colorspace_mode"; "colorspace_basecolor";
                      "colorspace_normal"; "colorspace_roughness"; "colorspace_emission";
                      "colorspace_manual_override" ] ->
               scene3 (prop_of k) = scene2 (prop_of k)).
Proof.
  intros Hsave Hnone Hsel Hacc.
  destruct (preset_round_trip_general saved_keys_part_000 loaded_keys_part_000 preset_name
              scene0 scene1 scene2 files0 files1 Hsave Hnone Hsel ltac:(discriminate) Hacc)
    as (scene3 & E & H1 & H2).
  exists scene3. split; [exact E |]. split.
  - intros k Hk Hne. apply H1; [| exact Hk].
    apply mem_string_In. unfold loaded_keys_part_000 in Hk.
    repeat (destruct Hk as [<- | Hk]; [first [reflexivity | destruct (Hne eq_refl)] |]).
    destruct Hk.
  - intros k Hk. apply H2. intros k' Hs Hl Ep. apply prop_of_inj in Ep. subst k'.
    apply mem_string_In in Hs, Hl.
    repeat (destruct Hk as [<- | Hk]; [first [discriminate Hs | discriminate Hl] |]).
    destruct Hk.
Qed.







End PresetFacts.

Lemma preset_round_trip_witness :
  let save := save_preset_execute ascii_isalnum ascii_isspace (fun _ => true) saved_keys
                (str " My preset/1 ") sample_scene ∅ in
  let name := safe_preset_name ascii_isalnum ascii_isspace (str " My preset/1 ") in
  let scene2 := set_prop "mbnl_resolution" (JInt 512) (snd (fst save)) in
  save = (FINISHED, snd (fst save), snd save) /\
  name = str "My preset1" /\
  exists scene3,
    load_preset_execute (fun _ _ => true) loaded_keys scene2 (snd save) = (FINISHED, scene3) /\
    (forall k, In k saved_keys -> scene3 (prop_of k) = sample_scene (prop_of k)) /\
    (forall p, ~ In p (map prop_of saved_keys) -> scene3 p = scene2 p).
Proof.
  cbv zeta. split; [reflexivity |]. split; [reflexivity |].
  apply (preset_round_trip ascii_isalnum ascii_isspace (fun _ => true) (fun _ _ => true)
           (str " My preset/1 ") sample_scene _ _ ∅ _ eq_refl).
  - discriminate.
  - reflexivity.
  - reflexivity.
Defined.

Lemma preset_round_trip_part_000_witness :
  let save := save_preset_execute ascii_isalnum ascii_isspace (fun _ => true)
                saved_keys_part_000 (str " My preset/1 ") sample_scene ∅ in
  let scene2 := set_prop "mbnl_colorspace_mode" (JStr (str "AUTO")) (snd (fst save)) in
  save = (FINISHED, snd (fst save), snd save) /\
  exists scene3,
    load_preset_execute (fun _ _ => true) loaded_keys_part_000 scene2 (snd save)
    = (FINISHED, scene3) /\
    (forall k, In k loaded_keys_part_000 -> k <> "lighting_shadow_mode" ->
               scene3 (prop_of k) = sample_scene (prop_of k)) /\
    (forall k, In k [ "lighting_shadow_mode"; "colorspace_mode"; "colorspace_basecolor";
                      "colorspace_normal"; "colorspace_roughness"; "colorspace_emission";
                      "colorspace_manual_override" ] ->
               scene3 (prop_of k) = scene2 (prop_of k)).
Proof.
  cbv zeta. split; [reflexivity |].
  apply (preset_round_trip_part_000 ascii_isalnum ascii_isspace (fun _ => true)
           (fun _ _ => true) (str " My preset/1 ") sample_scene _ _ ∅ _ eq_refl).
  - discriminate.
  - reflexivity.
  - reflexivity.
Defined.

(* ===================================================================== *)
(** * Properties of the atlas UV layer and the tile selection *)
(* ===================================================================== *)

Section AtlasOperator.






End AtlasOperator.

Section AtlasUVLayer.

Local Open Scope Q_scope.










End AtlasUVLayer.

Section UDIMDetection.

Lemma sorted_add_in (x y : Z) (l : list Z) :
  In y (sorted_add x l) <-> y = x \/ In y l.
Proof.
  induction l as [| z l IH]; cbn.
  - intuition.
  - destruct (Z.ltb_spec x z).
    + cbn. intuition.
    + destruct (Z.eqb_spec x z).
      * subst. cbn. intuition.
      * cbn. rewrite IH. intuition.
Qed.

Lemma sorted_add_sorted (x : Z) (l : list Z) :
  StronglySorted Z.lt l -> StronglySorted Z.lt (sorted_add x l).
Proof.
  induction l as [| z l IH]; cbn; intros Hs.
  - repeat constructor.
  - inversion Hs as [| ? ? Hs' Hall]; subst.
    destruct (Z.ltb_spec x z).
    + constructor; [exact Hs |]. constructor; [exact H |].
      eapply List.Forall_impl; [| exact Hall]. cbn. intros; lia.
    + destruct (Z.eqb_spec x z); [exact Hs |].
      constructor; [apply IH; exact Hs' |].
      apply List.Forall_forall. intros y Hy. apply sorted_add_in in Hy as [-> | Hy].
      * lia.
      * rewrite List.Forall_forall in Hall. apply Hall, Hy.
Qed.

Lemma detect_fold_in (uvs : list (Q * Q)) (acc : list Z) (n : Z) :
  In n (fold_left
          (fun tiles uv =>
             let tile_u := py_int (fst uv) in
             let tile_v := py_int (snd uv) in
             let udim_number := udim_number_of tile_u tile_v in
             if (1001 <=? udim_number) && (udim_number <=? 1100)
             then sorted_add udim_number tiles
             else tiles)
          uvs acc) <->
  In n acc \/ (1001 <= n <= 1100 /\ exists p, In p uvs /\ sample_number p = n).
Proof.
  revert acc. induction uvs as [| p uvs IH]; intros acc; cbn [fold_left].
  - split; [auto | intros [H | (_ & p & [] & _)]; exact H].
  - rewrite IH. cbv zeta. fold (sample_number p).
    destruct (Z.leb_spec 1001 (sample_number p)); cbn [andb].
    + destruct (Z.leb_spec (sample_number p) 1100).
      * rewrite sorted_add_in. split.
        -- intros [[-> | H1] | (Hr & q & Hq & E)]; auto.
           ++ right. split; [lia |]. exists p. split; [left; reflexivity | reflexivity].
           ++ right. split; [exact Hr |]. exists q. split; [right; exact Hq | exact E].
        -- intros [H1 | (Hr & q & [-> | Hq] & E)]; auto.
           right. split; [exact Hr |]. exists q. split; assumption.
      * split.
        -- intros [H1 | (Hr & q & Hq & E)]; auto.
           right. split; [exact Hr |]. exists q. split; [right; exact Hq | exact E].
        -- intros [H1 | (Hr & q & [-> | Hq] & E)]; auto; [lia |].
           right. split; [exact Hr |]. exists q. split; assumption.
    + split.
      * intros [H1 | (Hr & q & Hq & E)]; auto.
        right. split; [exact Hr |]. exists q. split; [right; exact Hq | exact E].
      * intros [H1 | (Hr & q & [-> | Hq] & E)]; auto; [lia |].
        right. split; [exact Hr |]. exists q. split; assumption.
Qed.

Lemma detect_fold_sorted (uvs : list (Q * Q)) (acc : list Z) :
  StronglySorted Z.lt acc ->
  StronglySorted Z.lt
    (fold_left
       (fun tiles uv =>
          let tile_u := py_int (fst uv) in
          let tile_v := py_int (snd uv) in
          let udim_number := udim_number_of tile_u tile_v in
          if (1001 <=? udim_number) && (udim_number <=? 1100)
          then sorted_add udim_number tiles
          else tiles)
       uvs acc).
Proof.
  revert acc. induction uvs as [| p uvs IH]; intros acc Hs; cbn [fold_left].
  - exact Hs.
  - apply IH. cbv zeta.
    destruct ((1001 <=? _) && _); [apply sorted_add_sorted |]; exact Hs.
Qed.

Lemma detect_udim_tiles_in (uvs : list (Q * Q)) (n : Z) :
  In n (detect_udim_tiles uvs) <->
  1001 <= n <= 1100 /\ exists p, In p uvs /\ sample_number p = n.
Proof.
  unfold detect_udim_tiles. rewrite detect_fold_in. cbn. intuition.
Qed.

Lemma detect_udim_tiles_sorted_in (uvs : list (Q * Q)) :
  StronglySorted Z.lt (detect_udim_tiles uvs) /\
  forall n, In n (detect_udim_tiles uvs) <->
            1001 <= n <= 1100 /\
            exists p, In p uvs /\ udim_number_of (py_int (fst p)) (py_int (snd p)) = n.
Proof.
  split.
  - apply detect_fold_sorted. constructor.
  - intros n. apply detect_udim_tiles_in.
Qed.

(** X28. The list [detect_udim_tiles] returns is strictly increasing (so it
    has no duplicates), and it holds exactly the tile numbers in
    1001..1100 that the formula [1001 + int(u) + int(v) * 10] gives for
    some UV sample. *)
Theorem detect_udim_tiles_sorted_exact (uvs : list (Q * Q)) :
  StronglySorted Z.lt (detect_udim_tiles uvs) /\
  forall n, In n (detect_udim_tiles uvs) <->
            1001 <= n <= 1100 /\
            exists p, In p uvs /\ udim_number_of (py_int (fst p)) (py_int (snd p)) = n.
Proof. exact (detect_udim_tiles_sorted_in uvs). Qed.

Lemma py_int_floor (x : Q) (k : Z) :
  (0 <= x)%Q -> ((inject_Z k <= x)%Q /\ (x < inject_Z (k + 1))%Q <-> py_int x = k).
Proof.
  destruct x as [num den]. unfold py_int, Qle, Qlt, inject_Z. cbn [Qnum Qden].
  intros H0. rewrite Z.quot_div_nonneg by lia.
  split.
  - intros [H1 H2]. symmetry. apply Z.div_unique with (num - k * Z.pos den); lia.
  - intros <-.
    pose proof (Z.div_mod num (Z.pos den) ltac:(lia)).
    pose proof (Z.mod_pos_bound num (Z.pos den) ltac:(lia)).
    nia.
Qed.

Lemma in_tile_sample (n : Z) (p : Q * Q) :
  (0 <= fst p)%Q -> (fst p < 10)%Q -> (0 <= snd p)%Q -> (snd p < 10)%Q ->
  (in_tile (get_udim_tile_bounds n) p = true <->
   1001 <= n <= 1100 /\ sample_number p = n).
Proof.
  intros Hu0 Hu1 Hv0 Hv1.
  unfold in_tile, get_udim_tile_bounds, get_udim_tile_coords. cbv zeta.
  cbn [tb_u_min tb_u_max tb_v_min tb_v_max].
  rewrite !andb_true_iff, !Qle_bool_iff, !Qlt_bool_iff.
  pose proof (py_int_floor (fst p) ((n - 1001) mod 10) Hu0) as Fu.
  pose proof (py_int_floor (snd p) ((n - 1001) / 10) Hv0) as Fv.
  pose proof (Z.div_mod (n - 1001) 10 ltac:(lia)) as Hdm.
  pose proof (Z.mod_pos_bound (n - 1001) 10 ltac:(lia)) as Hm.
  assert (0 <= py_int (fst p) < 10) as Bu.
  { pose proof (py_int_floor (fst p) (py_int (fst p)) Hu0) as [_ F].
    destruct (F eq_refl) as [F1 F2].
    split.
    - destruct (Z.lt_ge_cases (py_int (fst p)) 0) as [L |]; [| assumption].
      exfalso. assert (inject_Z (py_int (fst p) + 1) <= inject_Z 0)%Q
        by (rewrite <- Zle_Qle; lia).
      change (inject_Z 0) with 0%Q in *. lra.
    - destruct (Z.lt_ge_cases (py_int (fst p)) 10) as [| L]; [assumption |].
      exfalso. assert (inject_Z 10 <= inject_Z (py_int (fst p)))%Q
        by (rewrite <- Zle_Qle; lia).
      change (inject_Z 10) with 10%Q in *. lra. }
  assert (0 <= py_int (snd p) < 10) as Bv.
  { pose proof (py_int_floor (snd p) (py_int (snd p)) Hv0) as [_ F].
    destruct (F eq_refl) as [F1 F2].
    split.
    - destruct (Z.lt_ge_cases (py_int (snd p)) 0) as [L |]; [| assumption].
      exfalso. assert (inject_Z (py_int (snd p) + 1) <= inject_Z 0)%Q
        by (rewrite <- Zle_Qle; lia).
      change (inject_Z 0) with 0%Q in *. lra.
    - destruct (Z.lt_ge_cases (py_int (snd p)) 10) as [| L]; [assumption |].
      exfalso. assert (inject_Z 10 <= inject_Z (py_int (snd p)))%Q
        by (rewrite <- Zle_Qle; lia).
      change (inject_Z 10) with 10%Q in *. lra. }
  unfold sample_number, udim_number_of.
  split.
  - intros [[[A B] C] D].
    assert (py_int (fst p) = (n - 1001) mod 10) as Eu by (apply Fu; split; assumption).
    assert (py_int (snd p) = (n - 1001) / 10) as Ev by (apply Fv; split; assumption).
    lia.
  - intros [Hn E].
    assert (py_int (fst p) = (n - 1001) mod 10) as Eu by lia.
    assert (py_int (snd p) = (n - 1001) / 10) as Ev by lia.
    destruct Fu as [_ Fu]. destruct Fv as [_ Fv].
    destruct (Fu Eu). destruct (Fv Ev). repeat split; assumption.
Qed.

Lemma detect_udim_tiles_in_bounds (uvs : list (Q * Q)) :
  (forall p, In p uvs ->
     (0 <= fst p)%Q /\ (fst p < 10)%Q /\ (0 <= snd p)%Q /\ (snd p < 10)%Q) ->
  forall n, In n (detect_udim_tiles uvs) <->
            exists p, In p uvs /\ in_tile (get_udim_tile_bounds n) p = true.
Proof.
  intros Hr n. rewrite detect_udim_tiles_in. split.
  - intros (Hn & p & Hp & E). exists p. split; [exact Hp |].
    destruct (Hr p Hp) as (A & B & C & D).
    apply in_tile_sample; auto.
  - intros (p & Hp & Ht). destruct (Hr p Hp) as (A & B & C & D).
    apply in_tile_sample in Ht as [Hn E]; auto.
    split; [exact Hn |]. exists p. auto.
Qed.

(** X29. For UV samples inside the 10 x 10 block of tiles, a tile number is
    detected exactly when some sample lies in the bounds
    [get_udim_tile_bounds] gives for that number. *)
Theorem detect_udim_tiles_matches_bounds (uvs : list (Q * Q)) :
  (forall p, In p uvs ->
     (0 <= fst p)%Q /\ (fst p < 10)%Q /\ (0 <= snd p)%Q /\ (snd p < 10)%Q) ->
  forall n, In n (detect_udim_tiles uvs) <->
            exists p, In p uvs /\ in_tile (get_udim_tile_bounds n) p = true.
Proof. exact (detect_udim_tiles_in_bounds uvs). Qed.

End UDIMDetection.

Section UDIMSelection.

Lemma py_range_in (a b n : Z) : In n (py_range a b) <-> a <= n < b.
Proof.
  unfold py_range. rewrite in_map_iff. split.
  - intros (k & <- & Hk). apply in_seq in Hk. lia.
  - intros H. exists (Z.to_nat (n - a)). split; [lia |]. apply in_seq. lia.
Qed.

Lemma seq_shift_sorted (a : Z) (len start : nat) :
  StronglySorted Z.lt (map (fun k => a + Z.of_nat k) (seq start len)).
Proof.
  revert start. induction len as [| len IH]; intros start; cbn.
  - constructor.
  - constructor; [apply IH |].
    apply List.Forall_forall. intros y Hy. apply in_map_iff in Hy as (k & <- & Hk).
    apply in_seq in Hk. lia.
Qed.

Lemma py_range_sorted (a b : Z) : StronglySorted Z.lt (py_range a b).
Proof. apply seq_shift_sorted. Qed.

Lemma py_range_nil (a b : Z) : py_range a b = [] <-> b <= a.
Proof.
  unfold py_range. split.
  - intros E. apply (f_equal (@length Z)) in E. rewrite length_map, length_seq in E.
    cbn in E. lia.
  - intros H. replace (Z.to_nat (b - a)) with 0%nat by lia. reflexivity.
Qed.

(** X23. The tile list the sweep iterates over is strictly increasing and
    stays within 1001..1100 (for range bounds within the limits of the
    two properties); it is empty only for a manual range whose end is
    below its start, and a manual range is the interval from start to
    end. *)
Theorem select_udim_tiles_spec (enable_udim udim_auto_detect : bool)
  (udim_range_start udim_range_end : Z) (uvs : list (Q * Q)) :
  1001 <= udim_range_start <= 1100 -> 1001 <= udim_range_end <= 1100 ->
  let tiles := select_udim_tiles enable_udim udim_auto_detect
                 udim_range_start udim_range_end uvs in
  StronglySorted Z.lt tiles /\
  (forall n, In n tiles -> 1001 <= n <= 1100) /\
  (tiles = [] <->
   enable_udim = true /\ udim_auto_detect = false /\ udim_range_end < udim_range_start) /\
  (enable_udim = true -> udim_auto_detect = false ->
   forall n, In n tiles <-> udim_range_start <= n <= udim_range_end).
Proof.
  intros Hs He. cbv zeta. unfold select_udim_tiles.
  assert (StronglySorted Z.lt [1001] /\ (forall n, In n [1001] -> 1001 <= n <= 1100))
    as [S1 R1].
  { split; [repeat constructor |]. intros n [<- | []]. lia. }
  destruct enable_udim.
  2: { split; [exact S1 |]. split; [exact R1 |]. split; [| discriminate].
       split; [discriminate | intros (? & _); discriminate]. }
  destruct udim_auto_detect.
  - pose proof (detect_udim_tiles_sorted_in uvs) as [Hsorted Hin].
    destruct (detect_udim_tiles uvs) as [| t ts] eqn:E.
    + split; [exact S1 |]. split; [exact R1 |]. split; [| discriminate].
      split; [discriminate | intros (_ & ? & _); discriminate].
    + split; [exact Hsorted |]. split; [| split; [| discriminate]].
      * intros n Hn. apply Hin in Hn. tauto.
      * split; [discriminate | intros (_ & ? & _); discriminate].
  - split; [apply py_range_sorted |]. split; [| split].
    + intros n Hn. apply py_range_in in Hn. lia.
    + rewrite py_range_nil. split; [intros; repeat split; lia | intros (_ & _ & ?); lia].
    + intros _ _ n. rewrite py_range_in. lia.
Qed.

Lemma existsb_in_tile (n : Z) (face : bm_face) :
  existsb (fun l => in_tile (get_udim_tile_bounds n) (uv l)) face = true <->
  exists l, In l face /\ in_tile (get_udim_tile_bounds n) (uv l) = true.
Proof. apply existsb_exists. Qed.

Lemma filter_true_length (l : list bool) :
  Nat.ltb 0 (length (List.filter (fun b => b) l)) = true <-> In true l.
Proof.
  induction l as [| [] l IH]; cbn.
  - split; [discriminate | intros []].
  - split; auto.
  - rewrite IH. split; [auto | intros [H | H]; [discriminate | exact H]].
Qed.

(** [setup_udim_baking_area] selects exactly the faces with a loop in
    the tile, and, for UV coordinates inside the 10 x 10 block of
    tiles, it reports success exactly for the tile numbers that
    [detect_udim_tiles] finds on the same mesh. *)
Theorem setup_udim_baking_area_spec (n : Z) (bm : bmesh) :
  (forall p, In p (mesh_uvs bm) ->
     (0 <= fst p)%Q /\ (fst p < 10)%Q /\ (0 <= snd p)%Q /\ (snd p < 10)%Q) ->
  (fst (setup_udim_baking_area n bm) = true <-> In n (detect_udim_tiles (mesh_uvs bm))) /\
  Forall2 (fun face selected =>
             selected = true <->
             exists l, In l face /\ in_tile (get_udim_tile_bounds n) (uv l) = true)
          bm (snd (setup_udim_baking_area n bm)).
Proof.
  intros Hr. unfold setup_udim_baking_area. cbv zeta. cbn [fst snd]. split.
  - rewrite filter_true_length, in_map_iff.
    rewrite (detect_udim_tiles_in_bounds _ Hr). unfold mesh_uvs. split.
    + intros (face & Hsel & Hface). apply existsb_in_tile in Hsel as (l & Hl & Ht).
      exists (uv l). split; [| exact Ht].
      apply in_map. apply in_concat. exists face. auto.
    + intros (p & Hp & Ht). apply in_map_iff in Hp as (l & <- & Hl).
      apply in_concat in Hl as (face & Hface & Hl).
      exists face. split; [| exact Hface]. apply existsb_in_tile. eauto.
  - induction bm as [| face bm IH]; cbn [map]; constructor.
    + apply existsb_in_tile.
    + apply IH. intros p Hp. apply Hr. unfold mesh_uvs in *. cbn [concat].
      rewrite map_app. apply in_or_app. right. exact Hp.
Qed.

End UDIMSelection.

Section UVRoundTrip.






End UVRoundTrip.

(* witnesses *)




Lemma tile_1002_mesh_in_block :
  forall p, In p (mesh_uvs tile_1002_mesh) ->
    (0 <= fst p)%Q /\ (fst p < 10)%Q /\ (0 <= snd p)%Q /\ (snd p < 10)%Q.
Proof.
  intros p Hp. cbn in Hp.
  repeat (destruct Hp as [<- | Hp]; [cbn; repeat split; (discriminate || reflexivity) |]).
  destruct Hp.
Qed.

Lemma detect_udim_tiles_matches_bounds_witness :
  (forall p, In p (mesh_uvs tile_1002_mesh) ->
     (0 <= fst p)%Q /\ (fst p < 10)%Q /\ (0 <= snd p)%Q /\ (snd p < 10)%Q) /\
  forall n, In n (detect_udim_tiles (mesh_uvs tile_1002_mesh)) <->
            exists p, In p (mesh_uvs tile_1002_mesh) /\
                      in_tile (get_udim_tile_bounds n) p = true.
Proof.
  split; [exact tile_1002_mesh_in_block |].
  apply (detect_udim_tiles_matches_bounds (mesh_uvs tile_1002_mesh)).
  exact tile_1002_mesh_in_block.
Defined.

Lemma select_udim_tiles_spec_witness :
  let tiles := select_udim_tiles true false 1003 1006 [] in
  1001 <= 1003 <= 1100 /\ 1001 <= 1006 <= 1100 /\
  StronglySorted Z.lt tiles /\
  (forall n, In n tiles -> 1001 <= n <= 1100) /\
  (tiles = [] <-> true = true /\ false = false /\ 1006 < 1003) /\
  (true = true -> false = false -> forall n, In n tiles <-> 1003 <= n <= 1006).
Proof.
  cbv zeta. split; [lia |]. split; [lia |].
  apply (select_udim_tiles_spec true false 1003 1006 []); lia.
Defined.

Lemma setup_udim_baking_area_spec_witness :
  (forall p, In p (mesh_uvs tile_1002_mesh) ->
     (0 <= fst p)%Q /\ (fst p < 10)%Q /\ (0 <= snd p)%Q /\ (snd p < 10)%Q) /\
  (fst (setup_udim_baking_area 1002 tile_1002_mesh) = true <->
   In 1002 (detect_udim_tiles (mesh_uvs tile_1002_mesh))) /\
  Forall2 (fun face selected =>
             selected = true <->
             exists l, In l face /\ in_tile (get_udim_tile_bounds 1002) (uv l) = true)
          tile_1002_mesh (snd (setup_udim_baking_area 1002 tile_1002_mesh)).
Proof.
  split; [exact tile_1002_mesh_in_block |].
  apply (setup_udim_baking_area_spec 1002 tile_1002_mesh).
  exact tile_1002_mesh_in_block.
Defined.

(* ===================================================================== *)
(** * Properties of the colour spaces and the resolutions *)
(* ===================================================================== *)

Section ColourSpaces.

Ltac by_suffix s :=
  repeat match goal with
         | |- context [String.eqb s ?c] =>
             destruct (String.eqb_spec s c) as [-> | ?];
             [vm_compute; try reflexivity |]
         end.

(** X16. With the custom colour-space settings at their defaults, the
    CUSTOM mode gives every channel the colour space the AUTO mode
    gives it, except for the three channels [SubsurfaceColor],
    [SheenTint] and [CustomShader]. *)
Theorem custom_defaults_differ_from_auto (manual channel_suffix : string) :
  let auto := ColorspaceSettings "AUTO" "sRGB" "Non-Color" "Non-Color" "sRGB" manual in
  let custom := ColorspaceSettings "CUSTOM" "sRGB" "Non-Color" "Non-Color" "sRGB" manual in
  get_colorspace_for_channel custom channel_suffix =
  get_colorspace_for_channel auto channel_suffix <->
  ~ In channel_suffix ["SubsurfaceColor"; "SheenTint"; "CustomShader"].
Proof.
  cbv zeta. unfold get_colorspace_for_channel.
  cbn [colorspace_mode colorspace_basecolor colorspace_normal colorspace_roughness
       colorspace_emission colorspace_manual_override].
  change (String.eqb "CUSTOM" "MANUAL") with false.
  change (String.eqb "CUSTOM" "AUTO") with false.
  change (String.eqb "CUSTOM" "CUSTOM") with true.
  change (String.eqb "AUTO" "MANUAL") with false.
  change (String.eqb "AUTO" "AUTO") with true.
  cbv iota.
  unfold dict_get, auto_colorspace_mapping, mem_string.
  cbn [find existsb fst snd orb].
  repeat match goal with
         | |- context [String.eqb channel_suffix ?c] =>
             destruct (String.eqb_spec channel_suffix c) as [-> | ?];
             [vm_compute; split;
              [ (intros _ H; repeat (destruct H as [H | H]; [discriminate H |]); exact H)
                || (intros H; discriminate H)
              | (intros _; reflexivity)
                || (intros H; exfalso; apply H; auto 10) ] |]
         end.
  cbn. split; [| reflexivity]. intros _ H.
  repeat (destruct H as [H | H]; [symmetry in H; contradiction |]). exact H.
Qed.



End ColourSpaces.

Section ResolutionList.

Lemma resolution_eqb_eq (a b : Z * Z) : resolution_eqb a b = true <-> a = b.
Proof.
  unfold resolution_eqb. destruct a, b. cbn [fst snd].
  rewrite andb_true_iff, !Z.eqb_eq. split; [intros [-> ->]; reflexivity | intros [= -> ->]; auto].
Qed.

Lemma existsb_resolution (x : Z * Z) (l : list (Z * Z)) :
  existsb (resolution_eqb x) l = true <-> In x l.
Proof.
  rewrite existsb_exists. split.
  - intros (y & Hy & E). apply resolution_eqb_eq in E. subst. exact Hy.
  - intros H. exists x. split; [exact H | apply resolution_eqb_eq; reflexivity].
Qed.

Lemma append_if_new_in (l : list (Z * Z)) (x y : Z * Z) :
  In y (append_if_new l x) <-> In y l \/ y = x.
Proof.
  unfold append_if_new. destruct (existsb (resolution_eqb x) l) eqn:E.
  - apply existsb_resolution in E. split; [auto | intros [H | ->]; assumption].
  - rewrite in_app_iff. cbn. intuition.
Qed.

Lemma append_if_new_nodup (l : list (Z * Z)) (x : Z * Z) :
  List.NoDup l -> List.NoDup (append_if_new l x).
Proof.
  intros Hnd. unfold append_if_new. destruct (existsb (resolution_eqb x) l) eqn:E; [exact Hnd |].
  assert (~ In x l) as Hx.
  { intros H. apply existsb_resolution in H. congruence. }
  clear E. induction l as [| y l IH]; cbn.
  - constructor; [intros [] | constructor].
  - inversion Hnd; subst. constructor.
    + rewrite in_app_iff. cbn. intros [H | [H | []]]; [contradiction |].
      apply Hx. left. symmetry. exact H.
    + apply IH; [assumption |]. intros H. apply Hx. right. exact H.
Qed.

Lemma fold_append_in (xs acc : list (Z * Z)) (y : Z * Z) :
  In y (fold_left append_if_new xs acc) <-> In y acc \/ In y xs.
Proof.
  revert acc. induction xs as [| x xs IH]; intros acc; cbn [fold_left].
  - cbn. intuition.
  - rewrite IH, append_if_new_in. cbn. intuition.
Qed.

Lemma fold_append_nodup (xs acc : list (Z * Z)) :
  List.NoDup acc -> List.NoDup (fold_left append_if_new xs acc).
Proof.
  revert acc. induction xs as [| x xs IH]; intros acc H; cbn [fold_left]; [exact H |].
  apply IH, append_if_new_nodup, H.
Qed.

Lemma insert_by_area_perm (x : Z * Z) (l : list (Z * Z)) :
  Permutation (x :: l) (insert_by_area x l).
Proof.
  induction l as [| y l IH]; cbn; [reflexivity |].
  destruct (area x <? area y); [reflexivity |].
  rewrite perm_swap. constructor. exact IH.
Qed.

Lemma sorted_by_area_perm_acc (l acc : list (Z * Z)) :
  Permutation (acc ++ l) (fold_left (fun acc res => insert_by_area res acc) l acc).
Proof.
  revert acc. induction l as [| x l IH]; intros acc; cbn [fold_left].
  - rewrite app_nil_r. reflexivity.
  - rewrite <- IH. rewrite <- insert_by_area_perm.
    symmetry. apply Permutation_middle.
Qed.

Lemma sorted_by_area_perm (l : list (Z * Z)) : Permutation l (sorted_by_area l).
Proof. apply (sorted_by_area_perm_acc l []). Qed.

Lemma insert_by_area_sorted (x : Z * Z) (l : list (Z * Z)) :
  StronglySorted by_area l -> StronglySorted by_area (insert_by_area x l).
Proof.
  induction l as [| y l IH]; cbn; intros Hs.
  - repeat constructor.
  - inversion Hs as [| ? ? Hs' Hall]; subst.
    destruct (Z.ltb_spec (area x) (area y)).
    + constructor; [exact Hs |]. constructor; [unfold by_area; lia |].
      eapply List.Forall_impl; [| exact Hall]. unfold by_area. intros; lia.
    + constructor; [apply IH; exact Hs' |].
      apply List.Forall_forall. intros z Hz.
      apply (Permutation_in _ (Permutation_sym (insert_by_area_perm x l))) in Hz.
      destruct Hz as [<- | Hz]; [unfold by_area; lia |].
      rewrite List.Forall_forall in Hall. apply Hall, Hz.
Qed.

Lemma sorted_by_area_sorted (l : list (Z * Z)) : StronglySorted by_area (sorted_by_area l).
Proof.
  unfold sorted_by_area. generalize (@nil (Z * Z)) (SSorted_nil by_area).
  induction l as [| x l IH]; intros acc Hacc; cbn [fold_left]; [exact Hacc |].
  apply IH, insert_by_area_sorted, Hacc.
Qed.

Lemma determine_resolutions_ordered (self : resolution_settings) :
  determine_resolutions self <> [] /\
  NoDup (determine_resolutions self) /\
  StronglySorted (fun a b => fst a * snd a <= fst b * snd b) (determine_resolutions self).
Proof.
  assert (forall r : Z * Z,
            [r] <> [] /\ NoDup [r] /\
            StronglySorted (fun a b => fst a * snd a <= fst b * snd b) [r]) as Hone.
  { intros r. split; [discriminate |]. split; [apply NoDup_singleton | repeat constructor]. }
  unfold determine_resolutions. destruct (enable_multi_resolution self); [| apply Hone].
  cbv zeta.
  set (unique := fold_left append_if_new _ []).
  assert (List.NoDup unique) as Hnd by (apply fold_append_nodup; constructor).
  pose proof (sorted_by_area_perm unique) as Hperm.
  pose proof (sorted_by_area_sorted unique) as Hsorted.
  destruct (sorted_by_area unique) as [| r rs] eqn:E; [apply Hone |].
  split; [discriminate |]. split.
  - apply NoDup_ListNoDup. eapply Permutation_NoDup; eassumption.
  - exact Hsorted.
Qed.

(** X19. The list of resolutions the sweep bakes is never empty, has no
    duplicates and is in order of increasing area. *)
Theorem determine_resolutions_sorted (self : resolution_settings) :
  determine_resolutions self <> [] /\
  NoDup (determine_resolutions self) /\
  StronglySorted (fun a b => fst a * snd a <= fst b * snd b) (determine_resolutions self).
Proof. exact (determine_resolutions_ordered self). Qed.

Lemma unique_resolutions_in (self : resolution_settings) (r : Z * Z) :
  In r (fold_left append_if_new
          (map (fun res => (res, res))
               ((if res_512 self then [512] else []) ++
                (if res_1024 self then [1024] else []) ++
                (if res_2048 self then [2048] else []) ++
                (if res_4096 self then [4096] else []) ++
                (if res_8192 self then [8192] else [])) ++
           (if enable_custom_resolution self then
              fold_left append_if_new
                ((if use_custom_1 self
                  then [(custom_width_1 self, custom_height_1 self)] else []) ++
                 (if use_custom_2 self
                  then [(custom_width_2 self, custom_height_2 self)] else []) ++
                 (if use_custom_3 self
                  then [(custom_width_3 self, custom_height_3 self)] else []))
                []
            else []))
          []) <->
  requested self r.
Proof.
  rewrite fold_append_in, in_app_iff. unfold requested.
  destruct (res_512 self), (res_1024 self), (res_2048 self), (res_4096 self),
    (res_8192 self), (enable_custom_resolution self);
    try rewrite fold_append_in;
    try destruct (use_custom_1 self); try destruct (use_custom_2 self);
    try destruct (use_custom_3 self);
    cbn; intuition (try discriminate; try congruence).
Qed.

Lemma determine_resolutions_in (self : resolution_settings) (r : Z * Z) :
  enable_multi_resolution self = true ->
  (In r (determine_resolutions self) <->
   requested self r \/
   ((forall r', ~ requested self r') /\ r = (resolution self, resolution self))).
Proof.
  intros Hm. unfold determine_resolutions. rewrite Hm. cbv zeta.
  set (unique := fold_left append_if_new _ []).
  pose proof (sorted_by_area_perm unique) as Hperm.
  assert (forall x, In x unique <-> requested self x) as Hu
    by (intros x; apply unique_resolutions_in).
  destruct (sorted_by_area unique) as [| y ys] eqn:E.
  - apply Permutation_sym, Permutation_nil in Hperm.
    assert (forall r', ~ requested self r') as Hnone.
    { intros r' H. apply Hu in H. rewrite Hperm in H. exact H. }
    cbn. split.
    + intros [<- | []]. right. split; [exact Hnone | reflexivity].
    + intros [H | [_ ->]]; [destruct (Hnone _ H) | left; reflexivity].
  - split.
    + intros H. left. apply Hu. eapply Permutation_in; [symmetry; exact Hperm | exact H].
    + intros [H | [Hnone _]].
      * eapply Permutation_in; [exact Hperm |]. apply Hu, H.
      * exfalso. apply (Hnone y). apply Hu.
        eapply Permutation_in; [symmetry; exact Hperm | left; reflexivity].
Qed.

(** X20. In multi-resolution mode the sweep bakes exactly the sizes that are
    asked for -- the presets whose flag is set and, when custom
    resolutions are enabled, the custom sizes in use -- and the single
    size [resolution] when nothing is asked for. *)
Theorem determine_resolutions_content (self : resolution_settings) (r : Z * Z) :
  enable_multi_resolution self = true ->
  (In r (determine_resolutions self) <->
   requested self r \/
   ((forall r', ~ requested self r') /\ r = (resolution self, resolution self))).
Proof. apply determine_resolutions_in. Qed.

Lemma primary_fold_spec (rest : list (Z * Z)) (best : Z * Z) :
  let p := fold_left (fun best x => if fst best * snd best <? fst x * snd x then x else best)
                     rest best in
  (p = best \/ In p rest) /\
  fst best * snd best <= fst p * snd p /\
  forall r, In r rest -> fst r * snd r <= fst p * snd p.
Proof.
  revert best. induction rest as [| x rest IH]; intros best; cbn [fold_left].
  - cbn. split; [auto |]. split; [lia | intros r []].
  - cbv zeta. destruct (Z.ltb_spec (fst best * snd best) (fst x * snd x)).
    + destruct (IH x) as (H1 & H2 & H3). split; [| split].
      * destruct H1 as [-> | H1]; right; [left; reflexivity | right; exact H1].
      * lia.
      * intros r [<- | Hr]; [exact H2 | apply H3, Hr].
    + destruct (IH best) as (H1 & H2 & H3). split; [| split].
      * destruct H1 as [-> | H1]; [left; reflexivity | right; right; exact H1].
      * exact H2.
      * intros r [<- | Hr]; [lia | apply H3, Hr].
Qed.

(** X21. The primary resolution, the one the rebuilt material uses, is one
    of the resolutions the sweep bakes, and none of them has a larger
    area. *)
Theorem primary_resolution_largest (self : resolution_settings) :
  let resolutions := determine_resolutions self in
  let primary := primary_resolution_of resolutions in
  In primary resolutions /\
  forall r, In r resolutions -> fst r * snd r <= fst primary * snd primary.
Proof.
  cbv zeta. pose proof (determine_resolutions_ordered self) as [Hne _].
  destruct (determine_resolutions self) as [| r0 rest]; [contradiction |].
  unfold primary_resolution_of.
  destruct (primary_fold_spec rest r0) as (H1 & H2 & H3). cbv zeta in *.
  split.
  - destruct H1 as [-> | H1]; [left; reflexivity | right; exact H1].
  - intros r [<- | Hr]; [exact H2 | apply H3, Hr].
Qed.

Lemma set_custom_size_in (width height : Z) (replaced : nat)
  (scene : resolution_settings) :
  enable_multi_resolution scene = true ->
  enable_custom_resolution scene = true ->
  In (width, height) (determine_resolutions (set_custom_size width height replaced scene)).
Proof.
  intros Hm Hc. destruct scene as [r m a b c d e ec w1 h1 w2 h2 w3 h3 u1 u2 u3].
  cbn in Hm, Hc. subst m ec.
  apply determine_resolutions_in.
  - unfold set_custom_size. destruct u1, u2, u3; cbn; try reflexivity;
      destruct replaced as [| [| [| ?]]]; reflexivity.
  - left. unfold requested, set_custom_size.
    destruct u1, u2, u3; cbn; try (destruct replaced as [| [| [| ?]]]; cbn); tauto.
Qed.

(** X22. After one of the four size buttons, its size is among the
    resolutions the sweep bakes (with multi-resolution and custom
    resolutions enabled), whichever custom slots were in use before. *)
Theorem set_custom_size_is_baked (scene : resolution_settings) :
  enable_multi_resolution scene = true ->
  enable_custom_resolution scene = true ->
  In (1920, 1080) (determine_resolutions (set_custom_1920x1080 scene)) /\
  In (1280, 720) (determine_resolutions (set_custom_1280x720 scene)) /\
  In (2560, 1440) (determine_resolutions (set_custom_2560x1440 scene)) /\
  In (3840, 2160) (determine_resolutions (set_custom_3840x2160 scene)).
Proof.
  intros Hm Hc. repeat split; apply set_custom_size_in; assumption.
Qed.

Lemma set_custom_size_is_baked_witness :
  let scene := ResolutionSettings 2048 true false true true false false true
                 1536 1536 1920 1080 1280 720 true true true in
  enable_multi_resolution scene = true /\
  enable_custom_resolution scene = true /\
  In (1920, 1080) (determine_resolutions (set_custom_1920x1080 scene)) /\
  In (1280, 720) (determine_resolutions (set_custom_1280x720 scene)) /\
  In (2560, 1440) (determine_resolutions (set_custom_2560x1440 scene)) /\
  In (3840, 2160) (determine_resolutions (set_custom_3840x2160 scene)).
Proof.
  cbv zeta. split; [reflexivity |]. split; [reflexivity |].
  apply set_custom_size_is_baked; reflexivity.
Defined.

(** With the presets and the custom sizes cleared, the sweep bakes the
    single size [resolution], in multi-resolution mode as well. *)
Theorem cleared_resolutions_fall_back (scene : resolution_settings) :
  determine_resolutions (clear_custom_res (select_res_none scene)) =
  [(resolution scene, resolution scene)].
Proof.
  destruct scene as [r m a b c d e ec w1 h1 w2 h2 w3 h3 u1 u2 u3].
  unfold determine_resolutions. cbn. destruct m, ec; reflexivity.
Qed.

Lemma determine_resolutions_content_witness :
  let self := ResolutionSettings 2048 true true false true false false true
                1536 1536 1920 1080 1536 1536 true false true in
  enable_multi_resolution self = true /\
  (In (1536, 1536) (determine_resolutions self) <->
   requested self (1536, 1536) \/
   ((forall r', ~ requested self r') /\ (1536, 1536) = (resolution self, resolution self))).
Proof.
  cbv zeta. split; [reflexivity |].
  apply (determine_resolutions_content
           (ResolutionSettings 2048 true true false true false false true
              1536 1536 1920 1080 1536 1536 true false true) (1536, 1536)).
  reflexivity.
Defined.

End ResolutionList.

(* ===================================================================== *)
(** * Properties of the pass list and the outcomes of the sweep *)
(* ===================================================================== *)

Section PassList.

Lemma sublist_opt {A : Type} (b : bool) (x : A) (l k : list A) :
  sublist l k -> sublist ((if b then [x] else []) ++ l) (x :: k).
Proof.
  intros H. destruct b; cbn; [apply sublist_skip | apply sublist_cons]; exact H.
Qed.

Lemma build_passes_shape (st : settings) (a : analysis)
  (input_mapping : list (string * string)) (s : bake_state) :
  match build_passes st a input_mapping s with
  | (Ok passes, s') => s' = s /\ sublist (map suffix passes) pass_suffixes
  | (Raise _, s') => s' = s
  end.
Proof.
  unfold build_passes. cbv zeta.
  match goal with
  | |- context [if include_custom_shader st then ?m else ret ?b] => set (basic := b)
  end.
  assert (sublist (map suffix basic ++ [ "CustomShader" ]) pass_suffixes /\
          sublist (map suffix basic) pass_suffixes) as [Hc Hb].
  { subst basic. unfold pass_suffixes.
    destruct (include_lighting st), (mem_string (material_type a) _ && _);
      rewrite !map_app;
      repeat match goal with
             | |- context [map suffix (if ?b then ?x else [])] =>
                 replace (map suffix (if b then x else []))
                   with (if b then map suffix x else []) by (destruct b; reflexivity)
             end; cbn [map suffix];
      split;
      rewrite <- ?app_assoc;
      repeat apply sublist_opt;
      try match goal with |- sublist (if ?b then _ else _) _ => destruct b end;
      repeat constructor. }
  destruct (include_custom_shader st); [| cbn; auto].
  destruct (output_node a) as [oid |]; [| cbn; auto].
  unfold deref, get_state. unfold bind. cbv beta iota.
  destruct (get_node (tree s) oid) as [out |]; cbn; [| reflexivity].
  destruct (index_of_input "Surface" (inputs out)); cbn; [| reflexivity].
  destruct (is_linked (tree s) (oid, n)); cbn; [| auto].
  rewrite map_app. auto.
Qed.

(** X24. No two passes of a pass list carry the same channel name, so no
    channel is baked twice and no buffer of [all_baked_images] is
    overwritten by another channel; there are fifteen passes at most,
    and building the list leaves the state as it is. *)
Theorem build_passes_distinct (st : settings) (a : analysis)
  (input_mapping : list (string * string)) (s : bake_state) :
  match build_passes st a input_mapping s with
  | (Ok passes, s') =>
      s' = s /\ NoDup (map suffix passes) /\ (length passes <= 15)%nat
  | (Raise _, s') => s' = s
  end.
Proof.
  pose proof (build_passes_shape st a input_mapping s) as H.
  destruct (build_passes st a input_mapping s) as [[passes | e] s']; [| exact H].
  destruct H as [-> Hsub]. split; [reflexivity |]. split.
  - eapply sublist_NoDup; [| exact Hsub].
    apply (bool_decide_eq_true_1 (NoDup pass_suffixes)). reflexivity.
  - apply sublist_length in Hsub. rewrite length_map in Hsub. exact Hsub.
Qed.


End PassList.

Section NeverRaises.

Variable render : bake_call -> bool.
Variable available_inputs : list string.
Variable rebuild_nodes : gmap string nat -> M node_tree unit.
Variable restore_basic_nodes : M node_tree unit.








Lemma get_node_unique (nt : node_tree) (n : node) :
  NoDup (map node_id (nodes nt)) -> In n (nodes nt) -> get_node nt (node_id n) = Some n.
Proof.
  unfold get_node. induction (nodes nt) as [| m l IH]; intros Hnd Hin; [destruct Hin |].
  cbn [map] in Hnd. apply NoDup_cons in Hnd as [Hm Hnd]. cbn [find].
  destruct Hin as [-> | Hin].
  - rewrite Nat.eqb_refl. reflexivity.
  - destruct (Nat.eqb_spec (node_id m) (node_id n)) as [E | _]; [| apply IH; assumption].
    exfalso. apply Hm. rewrite E. apply list_elem_of_In. apply in_map. exact Hin.
Qed.

Lemma first_node_of_type_in (nt : node_tree) (t : string) (n : node) :
  first_node_of_type nt t = Some n -> In n (nodes nt) /\ bl_idname n = t.
Proof.
  unfold first_node_of_type. intros H. apply find_some in H as [H1 H2].
  apply String.eqb_eq in H2. auto.
Qed.


End NeverRaises.

Section NothingSelected.

Variable render : bake_call -> bool.
Variable available_inputs : list string.
Variable rebuild_nodes : gmap string nat -> M node_tree unit.
Variable restore_basic_nodes : M node_tree unit.

Lemma tile_block_no_passes (st : settings) (a : analysis) (bake_node : nat)
  (udim_tiles : list Z) (key : Z * Z) (udim_tile : Z) (s : bake_state) :
  exists s', tile_block render st a bake_node [] udim_tiles key udim_tile s = (Ok tt, s') /\
             same_outcome s s' /\ all_baked_images s' = all_baked_images s.
Proof.
  unfold tile_block, bind, try_finally, try_except. cbn [for_each].
  destruct (enable_udim st && Nat.ltb 1 (length udim_tiles));
    [destruct (negb (udim_tile =? 1001)) |]; cbn [ret];
    try destruct (normalize_udim_uvs_for_baking udim_tile (uvs s)) as [original_uvs bm];
    eexists; (split; [reflexivity |]); repeat split.
Qed.

Lemma tiles_no_passes (st : settings) (a : analysis) (bake_node : nat)
  (udim_tiles tiles : list Z) (key : Z * Z) (s : bake_state) :
  exists s', for_each tiles (tile_block render st a bake_node [] udim_tiles key) s
             = (Ok tt, s') /\
             same_outcome s s' /\ all_baked_images s' = all_baked_images s.
Proof.
  revert s. induction tiles as [| t tiles IH]; intros s; cbn [for_each].
  - exists s. repeat split.
  - unfold bind.
    destruct (tile_block_no_passes st a bake_node udim_tiles key t s)
      as (s1 & -> & (A1 & A2 & A3 & A4) & A5).
    destruct (IH s1) as (s2 & E & (B1 & B2 & B3 & B4) & B5).
    exists s2. split; [exact E |]. repeat split; congruence.
Qed.

Lemma resolution_block_no_passes (st : settings) (a : analysis) (bake_node : nat)
  (udim_tiles : list Z) (primary key : Z * Z) (s : bake_state) :
  no_images s ->
  exists s', resolution_block render rebuild_nodes restore_basic_nodes st a bake_node []
               udim_tiles primary key s = (Ok tt, s') /\
             no_images s' /\
             tree s' = without_bake_node bake_node (tree s) /\
             saved s' = saved s /\ bakes s' = bakes s /\ rebuilds s' = rebuilds s.
Proof.
  intros Hno. unfold resolution_block.
  unfold bind at 1. unfold try_except. unfold bind at 1.
  set (s0 := match all_baked_images s !! key with
             | Some _ => s
             | None => BakeState (tree s) (uvs s) (images_created s) (saved s) (bakes s)
                                 (<[key := ∅]> (all_baked_images s)) (rebuilds s)
             end).
  assert ((match all_baked_images s !! key with
           | Some _ => (Ok tt, s)
           | None => (Ok tt, BakeState (tree s) (uvs s) (images_created s) (saved s) (bakes s)
                                       (<[key := ∅]> (all_baked_images s)) (rebuilds s))
           end) = (Ok tt, s0)) as E0
    by (subst s0; destruct (all_baked_images s !! key); reflexivity).
  rewrite E0.
  assert (no_images s0 /\ same_outcome s s0) as [Hno0 (C1 & C2 & C3 & C4)].
  { subst s0. destruct (all_baked_images s !! key) eqn:Ek.
    - split; [exact Hno | repeat split].
    - split; [| repeat split]. intros k imgs. cbn [all_baked_images].
      destruct (decide (key = k)) as [<- | Hne].
      + rewrite lookup_insert_eq. intros [= <-]. reflexivity.
      + rewrite lookup_insert_ne by exact Hne. apply Hno. }
  destruct (tiles_no_passes st a bake_node udim_tiles udim_tiles key s0)
    as (s1 & -> & (A1 & A2 & A3 & A4) & A5).
  assert (no_images s1) as Hno1 by (unfold no_images; rewrite A5; exact Hno0).
  unfold bind at 1. unfold rebuild_material. unfold bind at 1. unfold get_state at 1.
  assert (default ∅ (all_baked_images s1 !! primary) = (∅ : gmap string nat)) as Ed.
  { destruct (all_baked_images s1 !! primary) as [imgs |] eqn:Ep; [| reflexivity].
    cbn. apply (Hno1 _ _ Ep). }
  rewrite Ed. rewrite bool_decide_eq_true_2 by reflexivity.
  rewrite andb_false_r. cbn [negb ret].
  unfold cleanup_bake_node. unfold bind, get_state, without_bake_node.
  rewrite <- C1, <- A1.
  destruct (get_node (tree s1) bake_node) as [n |].
  - destruct (String.eqb (bl_idname n) "ShaderNodeTexImage").
    + unfold on_tree. cbn [nodes_remove snd].
      eexists. split; [reflexivity |]. cbn. repeat split; try congruence. exact Hno1.
    + exists s1. repeat split; try congruence. exact Hno1.
  - exists s1. repeat split; try congruence. exact Hno1.
Qed.

Lemma resolutions_no_passes (st : settings) (a : analysis) (bake_node : nat)
  (udim_tiles : list Z) (primary : Z * Z) (resolutions : list (Z * Z)) (s : bake_state) :
  no_images s ->
  without_bake_node bake_node (without_bake_node bake_node (tree s)) =
  without_bake_node bake_node (tree s) ->
  exists s', for_each resolutions
               (resolution_block render rebuild_nodes restore_basic_nodes st a bake_node []
                  udim_tiles primary) s = (Ok tt, s') /\
             tree s' = match resolutions with
                       | [] => tree s
                       | _ :: _ => without_bake_node bake_node (tree s)
                       end /\
             saved s' = saved s /\ bakes s' = bakes s /\ rebuilds s' = rebuilds s.
Proof.
  revert s. induction resolutions as [| r rest IH]; intros s Hno Hidem; cbn [for_each].
  - exists s. repeat split.
  - unfold bind.
    destruct (resolution_block_no_passes st a bake_node udim_tiles primary r s Hno)
      as (s1 & -> & Hno1 & T1 & A2 & A3 & A4).
    destruct (IH s1 Hno1) as (s2 & E & T2 & B2 & B3 & B4).
    { rewrite T1, Hidem. exact Hidem. }
    exists s2. split; [exact E |]. split; [| repeat split; congruence].
    rewrite T2. destruct rest; [exact T1 |]. rewrite T1. exact Hidem.
Qed.

Lemma find_app_r {A : Type} (f : A -> bool) (l1 l2 : list A) :
  (forall x, In x l1 -> f x = false) -> find f (l1 ++ l2) = find f l2.
Proof.
  induction l1 as [| y l1 IH]; intros H; [reflexivity |].
  cbn [find app]. rewrite (H y (or_introl eq_refl)). apply IH.
  intros x Hx. apply H. right. exact Hx.
Qed.

(** X27. With no channel selected, the sweep of a material calls the
    evaluation engine for nothing, saves nothing and rebuilds nothing,
    and it leaves the nodes and the links of the tree as they were:
    the bake node it creates is removed again. *)
Theorem nothing_selected_sweep (scene : settings) (udim_tiles : list Z)
  (resolutions : list (Z * Z)) (s : bake_state) :
  resolutions <> [] ->
  links_resolved (tree s) -> ids_below (tree s) ->
  exists s', bake_material render available_inputs rebuild_nodes restore_basic_nodes
               (select_none scene) udim_tiles resolutions s = (Ok tt, s') /\
             nodes (tree s') = nodes (tree s) /\ links (tree s') = links (tree s) /\
             bakes s' = bakes s /\ saved s' = saved s /\ rebuilds s' = rebuilds s.
Proof.
  intros Hne Hres Hids. unfold bake_material.
  unfold bind at 1. unfold get_state at 1. cbv beta iota.
  set (a := analyze_material (Some (Material true (Some (tree s))))).
  unfold bind at 1. unfold on_tree at 1. unfold nodes_new.
  change (new_node_sockets "ShaderNodeTexImage")
    with ([InSocket "Vector" (VVector 0 0 0)],
          [OutSocket "Color" (VColor 0 0 0 1); OutSocket "Alpha" (VFloat 1)]).
  cbv beta iota zeta.
  set (bn := Node (next_id (tree s)) "ShaderNodeTexImage" "ShaderNodeTexImage" "" _ _ false).
  unfold bind at 1. cbv beta iota.
  set (s1 := BakeState _ _ _ _ _ ∅ _).
  unfold bind at 1.
  change (build_passes (select_none scene) a (create_input_mapping available_inputs) s1)
    with (Ok (@nil bake_pass), s1).
  cbv beta iota.
  assert (get_node (tree s1) (next_id (tree s)) = Some bn) as Eg.
  { subst s1. cbn [tree set_tree]. unfold get_node. cbn [nodes].
    rewrite find_app_r; [cbn; rewrite Nat.eqb_refl; reflexivity |].
    intros x Hx. pose proof (Hids x Hx). apply Nat.eqb_neq. lia. }
  assert (without_bake_node (next_id (tree s)) (tree s1) =
          NodeTree (nodes (tree s)) (links (tree s)) (S (next_id (tree s)))) as Ew.
  { unfold without_bake_node. rewrite Eg. cbn [bl_idname bn].
    change (String.eqb "ShaderNodeTexImage" "ShaderNodeTexImage") with true. cbv iota.
    subst s1. cbn [tree set_tree nodes_remove snd nodes links next_id]. f_equal.
    - rewrite List.filter_app. cbn [List.filter node_id bn].
      rewrite Nat.eqb_refl. cbn [negb]. rewrite app_nil_r.
      apply filter_id. intros x Hx. pose proof (Hids x Hx).
      apply negb_true_iff, Nat.eqb_neq. lia.
    - apply filter_id. intros l Hl.
      destruct (old_endpoints (tree s) Hres Hids l Hl) as [Hf Ht].
      unfold touches. apply negb_true_iff, orb_false_iff.
      split; apply Nat.eqb_neq; lia. }
  destruct (resolutions_no_passes (select_none scene) a (next_id (tree s)) udim_tiles
              (primary_resolution_of resolutions) resolutions s1) as (s' & E & T & A2 & A3 & A4).
  { intros k imgs. subst s1. cbn [all_baked_images]. rewrite lookup_empty. discriminate. }
  { rewrite Ew. unfold without_bake_node.
    assert (get_node (NodeTree (nodes (tree s)) (links (tree s)) (S (next_id (tree s))))
                     (next_id (tree s)) = None) as ->; [| reflexivity].
    unfold get_node. cbn [nodes].
    rewrite <- (app_nil_r (nodes (tree s))). rewrite find_app_r; [reflexivity |].
    intros x Hx. pose proof (Hids x Hx). apply Nat.eqb_neq. lia. }
  exists s'. split; [exact E |].
  destruct resolutions as [| r rest]; [contradiction |].
  rewrite T, Ew. cbn [nodes links]. repeat split; assumption.
Qed.

End NothingSelected.


Lemma nothing_selected_sweep_witness :
  [(512, 512); (1024, 1024)] <> [] /\
  links_resolved (tree (initial_bake_state textured_graph [])) /\
  ids_below (tree (initial_bake_state textured_graph [])) /\
  exists s', bake_material render_ok sample_inputs (fun _ => basic_nodes) basic_nodes
               (select_none two_channel_settings) [1001] [(512, 512); (1024, 1024)]
               (initial_bake_state textured_graph []) = (Ok tt, s') /\
             nodes (tree s') = nodes (tree (initial_bake_state textured_graph [])) /\
             links (tree s') = links (tree (initial_bake_state textured_graph [])) /\
             bakes s' = bakes (initial_bake_state textured_graph []) /\
             saved s' = saved (initial_bake_state textured_graph []) /\
             rebuilds s' = rebuilds (initial_bake_state textured_graph []).
Proof.
  assert (well_formed textured_graph) as (Hres & Hids & _)
    by (apply check_well_formed_sound; reflexivity).
  split; [discriminate |]. split; [exact Hres |]. split; [exact Hids |].
  apply (nothing_selected_sweep render_ok sample_inputs (fun _ => basic_nodes) basic_nodes
           two_channel_settings [1001] [(512, 512); (1024, 1024)]
           (initial_bake_state textured_graph [])); [discriminate | exact Hres | exact Hids].
Defined.

(* ===================================================================== *)
(** * The single-input probe on an unshared source *)
(* ===================================================================== *)

Section SingleInputProbe.

Variable nt : node_tree.
Variable surface : socket_ref.
Hypothesis Hwf : well_formed nt.
Hypothesis Hsurface : has_input nt surface = true.

Local Abbreviation emit := (next_id nt).
Local Abbreviation base := (detached surface nt).
Local Abbreviation Hresolved := (proj1 Hwf).
Local Abbreviation Hids := (proj1 (proj2 Hwf)).

Lemma get_node_fresh (l added : list node) (id : nat) :
  (forall n, In n l -> (node_id n < id)%nat) ->
  find (fun n => Nat.eqb (node_id n) id) (l ++ added) =
  find (fun n => Nat.eqb (node_id n) id) added.
Proof.
  intros H. apply find_app_r. intros n Hn. specialize (H n Hn).
  destruct (Nat.eqb_spec (node_id n) id); [lia | reflexivity].
Qed.

Lemma get_node_update (t : list node) (id id' : nat) (f : node -> node) :
  (forall n, node_id (f n) = node_id n) ->
  find (fun n => Nat.eqb (node_id n) id')
       (map (fun n => if Nat.eqb (node_id n) id then f n else n) t) =
  option_map (fun n => if Nat.eqb (node_id n) id then f n else n)
             (find (fun n => Nat.eqb (node_id n) id') t).
Proof.
  intros Hf. induction t as [| n t IH]; [reflexivity |].
  cbn [map find].
  assert (node_id (if Nat.eqb (node_id n) id then f n else n) = node_id n) as ->
    by (destruct (Nat.eqb (node_id n) id); [apply Hf | reflexivity]).
  destruct (Nat.eqb (node_id n) id'); [reflexivity | exact IH].
Qed.

Lemma probing_start :
  probing nt base
    (NodeTree
       (nodes nt ++ [Node emit "ShaderNodeEmission" "ShaderNodeEmission" ""
                          [InSocket "Color" (VColor 1 1 1 1); InSocket "Strength" (VFloat 1)]
                          [OutSocket "Emission" VNoValue] false])
       base (S emit)).
Proof.
  split; [| split; [| split]].
  - split; [cbn; lia |]. split.
    + eexists. cbn [nodes]. split; [reflexivity |].
      constructor; [cbn; lia | constructor].
    + exists []. cbn [links]. rewrite app_nil_r. split; [reflexivity | constructor].
  - intros n Hn. cbn [nodes next_id] in *. apply in_app_iff in Hn as [Hn | [<- | []]].
    + pose proof (Hids n Hn). lia.
    + cbn. lia.
  - unfold has_input, get_node. cbn [nodes fst snd emit_color].
    rewrite get_node_fresh by exact Hids. cbn. rewrite Nat.eqb_refl. reflexivity.
  - unfold has_output, get_node. cbn [nodes fst snd emit_emission].
    rewrite get_node_fresh by exact Hids. cbn. rewrite Nat.eqb_refl. reflexivity.
Qed.

Lemma probing_nodes_new (t : string) (E : node_tree -> Prop) :
  hoare (probing nt base) (nodes_new t)
        (fun id s => probing nt base s /\ (emit < id)%nat /\
                     get_node s id =
                     Some (Node id t t "" (fst (new_node_sockets t))
                                (snd (new_node_sockets t)) false)) E.
Proof.
  intros s (Hs & Hb & Hi & Ho).
  pose proof (synthetic_nodes_new nt base t E s Hs) as Hnew.
  unfold nodes_new in *. destruct (new_node_sockets t) as [ins outs].
  destruct Hnew as [Hnew _].
  assert (emit < next_id s)%nat as Hlt by (destruct Hs as (H & _); exact H).
  split; [| split; [exact Hlt |]].
  - split; [exact Hnew |]. split; [| split].
    + intros n Hn. cbn [nodes next_id] in *. apply in_app_iff in Hn as [Hn | [<- | []]].
      * pose proof (Hb n Hn). lia.
      * cbn. lia.
    + unfold has_input, get_node in *. cbn [nodes].
      destruct (find _ (nodes s)) as [n |] eqn:F; [| discriminate].
      rewrite (find_app_l _ _ _ _ F). exact Hi.
    + unfold has_output, get_node in *. cbn [nodes].
      destruct (find _ (nodes s)) as [n |] eqn:F; [| discriminate].
      rewrite (find_app_l _ _ _ _ F). exact Ho.
  - unfold get_node. cbn [nodes fst snd].
    rewrite get_node_fresh by exact Hb. cbn. rewrite Nat.eqb_refl. reflexivity.
Qed.

Lemma probing_set_output_default (rgb : nat) (v : socket_value) (E : node_tree -> Prop) :
  (emit < rgb)%nat ->
  hoare (fun s => probing nt base s /\ has_output s (rgb, 0%nat) = true)
        (set_output_default rgb v)
        (fun _ s => probing nt base s /\ has_output s (rgb, 0%nat) = true) E.
Proof.
  intros Hrgb s ((Hs & Hb & Hi & Ho) & Hr).
  pose proof (synthetic_update_node nt base Hids rgb
                (fun n => Node (node_id n) (bl_idname n) (name n) (label n) (inputs n)
                               (map (fun o => OutSocket (out_name o) v) (outputs n))
                               (image n))
                E ltac:(lia) ltac:(reflexivity) s Hs) as Hup.
  unfold set_output_default, update_node in Hup |- *.
  split; [split; [exact Hup | split; [| split]] |].
  - intros n Hn. cbn [nodes next_id] in *. apply in_map_iff in Hn as (m & <- & Hm).
    pose proof (Hb m Hm). destruct (Nat.eqb (node_id m) rgb); exact H.
  - clear Ho Hr Hup. unfold has_input, get_node in Hi |- *.
    cbn [nodes fst snd emit_color] in Hi |- *.
    rewrite get_node_update by reflexivity.
    destruct (find _ (nodes s)) as [n |] eqn:F; [| discriminate]. cbn [option_map].
    apply find_some in F as [_ F]. apply Nat.eqb_eq in F.
    destruct (Nat.eqb_spec (node_id n) rgb); [lia | exact Hi].
  - clear Hi Hr Hup. unfold has_output, get_node in Ho |- *.
    cbn [nodes fst snd emit_emission] in Ho |- *.
    rewrite get_node_update by reflexivity.
    destruct (find _ (nodes s)) as [n |] eqn:F; [| discriminate]. cbn [option_map].
    apply find_some in F as [_ F]. apply Nat.eqb_eq in F.
    destruct (Nat.eqb_spec (node_id n) rgb); [lia | exact Ho].
  - clear Hi Ho Hup. unfold has_output, get_node in Hr |- *.
    cbn [nodes fst snd] in Hr |- *.
    rewrite get_node_update by reflexivity.
    destruct (find _ (nodes s)) as [n |] eqn:F; [| discriminate]. cbn [option_map].
    destruct (Nat.eqb (node_id n) rgb); [| exact Hr].
    cbn [outputs]. rewrite length_map. exact Hr.
Qed.

(** A link into the Color input of the Emission node from a socket of
    the tree is accepted. *)
Lemma probing_link_to_emit (x : socket_ref) :
  hoare (fun s => probing nt base s /\ has_output s x = true)
        (links_new x (emit_color emit))
        (fun _ => probing nt base) (fun _ => False).
Proof.
  intros s ((Hs & Hb & Hi & Ho) & Hx).
  pose proof (pieces_link_to_emit nt surface Hwf x s Hs) as Hl.
  unfold links_new in Hl |- *. rewrite Hx, Hi in Hl |- *. cbn [andb] in Hl |- *.
  split; [exact Hl |]. split; [exact Hb |]. split; [exact Hi | exact Ho].
Qed.

Lemma probing_link_surface :
  hoare (probing nt base) (links_new (emit_emission emit) surface)
        (fun _ => probing nt base) (fun _ => False).
Proof.
  intros s (Hs & Hb & Hi & Ho).
  pose proof (pieces_link_surface nt surface Hwf s Hs) as Hl.
  unfold links_new in Hl |- *.
  rewrite Ho, (has_input_old nt base s surface Hs Hsurface) in Hl |- *.
  cbn [andb] in Hl |- *.
  split; [exact Hl |]. split; [exact Hb |]. split; [exact Hi | exact Ho].
Qed.

Lemma hoare_try_except_caught {A : Type} (caught : exn -> bool) (P : node_tree -> Prop)
  (m h : M node_tree A) (R : node_tree -> Prop)
  (Q : A -> node_tree -> Prop) (E : node_tree -> Prop) :
  (forall s, P s -> match m s with
                    | (Ok a, s') => Q a s'
                    | (Raise e, s') => caught e = true /\ R s'
                    end) ->
  hoare R h Q E -> hoare P (try_except_of caught m h) Q E.
Proof.
  intros Hm Hh s Hs. unfold try_except_of. specialize (Hm s Hs).
  destruct (m s) as [[a | e] s1]; [exact Hm |].
  destruct Hm as [-> Hm]. apply (Hh s1 Hm).
Qed.

Lemma has_output_new_rgb (s : node_tree) (rgb : nat) :
  get_node s rgb =
  Some (Node rgb "ShaderNodeRGB" "ShaderNodeRGB" ""
             (fst (new_node_sockets "ShaderNodeRGB"))
             (snd (new_node_sockets "ShaderNodeRGB")) false) ->
  has_output s (rgb, 0%nat) = true.
Proof. intros H. unfold has_output. cbn [fst snd]. rewrite H. reflexivity. Qed.

Local Abbreviation yields_tmp_nodes := (yields_tmp_nodes nt base).

(** An RGB node with a colour, linked to the Emission node. *)
Lemma probing_rgb_colour (v : socket_value) :
  hoare (probing nt base)
        (rgb <- nodes_new "ShaderNodeRGB" ;;
         set_output_default rgb v ;;;
         links_new (rgb, 0%nat) (emit_color emit) ;;;
         ret [emit; rgb])
        yields_tmp_nodes (fun _ => False).
Proof.
  eapply hoare_bind; [apply probing_nodes_new |]. intros rgb.
  intros s (Hs & Hlt & Hget). revert s Hs Hget.
  assert (hoare (fun s => probing nt base s /\ has_output s (rgb, 0%nat) = true)
                (set_output_default rgb v ;;;
                 links_new (rgb, 0%nat) (emit_color emit) ;;;
                 ret [emit; rgb])
                yields_tmp_nodes (fun _ => False)) as H.
  { eapply hoare_bind; [apply probing_set_output_default; exact Hlt |]. intros u.
    eapply hoare_bind; [apply probing_link_to_emit |]. intros u'.
    apply hoare_ret. intros s Hs. split; [exact Hs |].
    exists [rgb]. split; [reflexivity |]. constructor; [lia | constructor]. }
  intros s Hs Hget. apply H. split; [exact Hs |]. apply has_output_new_rgb, Hget.
Qed.

(** The first [try] block of the single-input probe and its handler:
    they never raise when the probed input is linked or holds no
    vector. *)
Lemma probing_try_block (target : socket_ref) (value : option socket_value)
  (default : Q) :
  (input_links (NodeTree (nodes nt) base (next_id nt)) target = [] ->
   forall x y z, value <> Some (VVector x y z)) ->
  hoare (fun s => probing nt base s /\ links s = base)
        (try_except_of
           (fun e => match e with
                     | KeyError | AttributeError | TypeError => true
                     | _ => false
                     end)
           (nt1 <- get_state ;;
            match input_links nt1 target with
            | l0 :: _ =>
                links_new (link_from l0) (emit_color emit) ;;;
                ret [emit]
            | [] =>
                rgb <- nodes_new "ShaderNodeRGB" ;;
                match value with
                | Some (VColor r g b a) =>
                    set_output_default rgb (VColor r g b a) ;;;
                    links_new (rgb, 0%nat) (emit_color emit) ;;;
                    ret [emit; rgb]
                | Some (VFloat val) =>
                    set_output_default rgb (VColor val val val 1) ;;;
                    links_new (rgb, 0%nat) (emit_color emit) ;;;
                    ret [emit; rgb]
                | Some (VVector _ _ _) => raise ValueError
                | Some VNoValue | None => raise AttributeError
                end
            end)
           (rgb <- nodes_new "ShaderNodeRGB" ;;
            set_output_default rgb (VColor default default default 1) ;;;
            links_new (rgb, 0%nat) (emit_color emit) ;;;
            ret [emit; rgb]))
        yields_tmp_nodes (fun _ => False).
Proof.
  intros Hvalue.
  apply hoare_try_except_caught with (R := probing nt base);
    [| apply probing_rgb_colour].
  intros s [Hs Hl]. unfold bind at 1. unfold get_state.
  assert (input_links s target = input_links (NodeTree (nodes nt) base (next_id nt)) target)
    as -> by (unfold input_links; cbn [links]; rewrite Hl; reflexivity).
  destruct (input_links _ target) as [| l0 rest] eqn:Hin.
  - specialize (Hvalue eq_refl).
    destruct value as [[val | r g b a | x y z |] |].
    + pose proof (probing_rgb_colour (VColor val val val 1) s Hs) as H.
      match type of H with
      | match ?m s with _ => _ end => destruct (m s) as [[tmp | e] s']
      end; [exact H | destruct H].
    + pose proof (probing_rgb_colour (VColor r g b a) s Hs) as H.
      match type of H with
      | match ?m s with _ => _ end => destruct (m s) as [[tmp | e] s']
      end; [exact H | destruct H].
    + exfalso. apply (Hvalue x y z). reflexivity.
    + pose proof (probing_nodes_new "ShaderNodeRGB" (fun _ => False) s Hs) as H.
      unfold bind. destruct (nodes_new "ShaderNodeRGB" s) as [[rgb | e] s']; [| destruct H].
      cbn [raise]. split; [reflexivity | apply H].
    + pose proof (probing_nodes_new "ShaderNodeRGB" (fun _ => False) s Hs) as H.
      unfold bind. destruct (nodes_new "ShaderNodeRGB" s) as [[rgb | e] s']; [| destruct H].
      cbn [raise]. split; [reflexivity | apply H].
  - assert (In l0 (links nt)) as Hl0.
    { apply (base_in_links nt surface).
      assert (In l0 (input_links (NodeTree (nodes nt) base (next_id nt)) target)) as H
        by (rewrite Hin; left; reflexivity).
      apply input_links_in in H as [H _]. exact H. }
    assert (hoare (fun s => probing nt base s /\ has_output s (link_from l0) = true)
                  (links_new (link_from l0) (emit_color emit) ;;; ret [emit])
                  yields_tmp_nodes (fun _ => False)) as H.
    { eapply hoare_bind; [apply probing_link_to_emit |]. intros u.
      apply hoare_ret. intros s' Hs'. split; [exact Hs' |].
      exists []. split; [reflexivity | constructor]. }
    specialize (H s (conj Hs (has_output_old nt base s _ (proj1 Hs)
                                (proj1 (Hresolved l0 Hl0))))).
    destruct ((links_new (link_from l0) (emit_color emit) ;;; ret [emit]) s)
      as [[tmp | e] s']; [exact H | destruct H].
Qed.

(** The clean-up of the single-input probe removes the nodes it yielded
    and leaves the links without the one into the sink. *)
Lemma probing_remove_tmp_nodes (rest : list nat) :
  Forall (fun n => (emit <= n)%nat) rest ->
  hoare (synthetic nt base) (remove_tmp_nodes (emit :: rest))
        (fun _ s => synthetic nt base s /\ links s = base) (fun _ => False).
Proof.
  intros Hrest. unfold remove_tmp_nodes. cbn [for_each].
  eapply hoare_bind with (R := fun _ s => synthetic nt base s /\ links s = base).
  - apply hoare_get. intros s1 _.
    eapply hoare_bind with (R := fun _ => synthetic nt base).
    + destruct (output_links s1 (emit, 0%nat)) as [| first others] eqn:Hout;
        [apply hoare_ret; auto |].
      apply (synthetic_links_remove nt base Hresolved Hids (base_in_links nt surface)).
      left. rewrite (output_links_from s1 (emit, 0%nat) first)
        by (rewrite Hout; left; reflexivity).
      cbn. lia.
    + intros u.
      apply (synthetic_remove_emit nt base Hresolved Hids (base_in_links nt surface)).
  - intros u. apply hoare_for_each. intros n Hn.
    rewrite List.Forall_forall in Hrest. specialize (Hrest n Hn).
    apply hoare_get. intros s1 _.
    eapply hoare_bind with (R := fun _ s => synthetic nt base s /\ links s = base).
    + destruct (output_links s1 (n, 0%nat)) as [| first others] eqn:Hout;
        [apply hoare_ret; auto |].
      assert (from_node first = n) as Hfrom
        by (apply (output_links_from s1 (n, 0%nat) first); rewrite Hout; left; reflexivity).
      intros s [Hs Hl].
      pose proof (synthetic_links_remove nt base Hresolved Hids (base_in_links nt surface)
                    first (fun _ => False) ltac:(left; lia) s Hs) as H.
      unfold links_remove in H |- *. split; [exact H |]. cbn [links]. rewrite Hl.
      apply (base_not_equal nt base Hresolved Hids (base_in_links nt surface)).
      left. lia.
    + intros u'. intros s [Hs Hl].
      pose proof (synthetic_nodes_remove nt base Hresolved Hids (base_in_links nt surface)
                    n (fun _ => False) Hrest s Hs) as H.
      unfold nodes_remove in H |- *. split; [exact H |]. cbn [links]. rewrite Hl.
      apply (base_not_touched nt base Hresolved Hids (base_in_links nt surface)).
      exact Hrest.
Qed.

Lemma probing_finally (rest : list nat) :
  Forall (fun n => (emit <= n)%nat) rest ->
  hoare (synthetic nt base)
        (remove_tmp_nodes (emit :: rest) ;;;
         restore_links (map (fun l => (link_from l, link_to l))
                            (input_links nt surface)))
        (fun _ s => same_links s nt) (fun _ => False).
Proof.
  intros Hrest.
  eapply hoare_bind; [apply probing_remove_tmp_nodes, Hrest | intros u].
  destruct (input_links nt surface) as [| l0 others] eqn:H.
  - cbn [map restore_links for_each]. apply hoare_ret.
    intros s [_ Hs] l. rewrite Hs, (detached_unlinked nt surface H). reflexivity.
  - destruct (single_input_link nt Hwf _ _ _ H) as (-> & Hin & Hto & _).
    cbn [map restore_links for_each fst snd].
    eapply hoare_bind; [apply (pieces_restore_link nt surface Hwf l0 Hin Hto) |].
    intros u3. apply hoare_ret. intros s Hs.
    apply (same_links_restored nt Hwf surface l0 s H Hs).
Qed.

(** Dropping the first link of the source of each saved link drops the
    link into the sink, when that link is the first one of its source
    socket. *)
Lemma remove_first_link_of_sources_spec :
  Forall (fun l => hd_error (output_links nt (link_from l)) = Some l)
         (input_links nt surface) ->
  remove_first_link_of_sources
    (map (fun l => (link_from l, link_to l)) (input_links nt surface)) nt =
  (Ok tt, NodeTree (nodes nt) base (next_id nt)).
Proof.
  clear Hsurface. intros Hfirst. unfold remove_first_link_of_sources.
  destruct (input_links nt surface) as [| l0 others] eqn:H.
  - cbn. rewrite (detached_unlinked nt surface H). destruct nt; reflexivity.
  - destruct (single_input_link nt Hwf _ _ _ H) as (-> & _).
    apply Forall_inv in Hfirst.
    cbn [map for_each fst]. unfold bind at 1. unfold bind at 1. unfold get_state.
    destruct (output_links nt (link_from l0)) as [| first others]; [discriminate |].
    cbn [hd_error] in Hfirst. injection Hfirst as ->.
    cbn. rewrite (remove_single_link nt Hwf surface l0 H). reflexivity.
Qed.

End SingleInputProbe.

Section SingleInputRestores.

Variable nt : node_tree.
Hypothesis Hwf : well_formed nt.
Hypothesis Hnd : NoDup (map node_id (nodes nt)).

Lemma nodes_apart (a b : node) :
  In a (nodes nt) -> In b (nodes nt) -> node_id a = node_id b -> a = b.
Proof.
  intros Ha Hb E. pose proof (get_node_unique nt a Hnd Ha) as H1.
  pose proof (get_node_unique nt b Hnd Hb) as H2. rewrite E in H1. congruence.
Qed.

Lemma index_of_input_lt (nm : string) (l : list in_socket) (i : nat) :
  index_of_input nm l = Some i -> (i < length l)%nat.
Proof.
  revert i. induction l as [| x l IH]; intros i H; [discriminate |].
  cbn [index_of_input] in H. destruct (String.eqb (in_name x) nm).
  - injection H as <-. cbn. lia.
  - destruct (index_of_input nm l) as [j |]; [| discriminate].
    injection H as <-. specialize (IH j eq_refl). cbn. lia.
Qed.

(** X15. The single-input probe gives back the link set of a well-formed
    tree with distinct node identities, whether the body returns or
    raises, when the link into the sink is the first link of the socket
    it comes from and the probed input is linked or holds no vector. *)
Theorem single_input_probe_restores (input_name : string) (default : Q)
  (A : Type) (body : option (list nat) -> M node_tree A) :
  Forall (fun l => hd_error (output_links nt (link_from l)) = Some l) (surface_links nt) ->
  (forall principled ti,
     first_node_of_type nt "ShaderNodeBsdfPrincipled" = Some principled ->
     index_of_input input_name (inputs principled) = Some ti ->
     is_linked nt (node_id principled, ti) = true \/
     forall x y z, option_map default_value (nth_error (inputs principled) ti)
                   <> Some (VVector x y z)) ->
  keeps_tree body ->
  same_links (snd (with_ (temporary_emission_input input_name default) body nt)) nt.
Proof.
  intros Hfirst Hvalue Hbody. unfold temporary_emission_input, surface_links in *.
  rewrite with_get.
  destruct (first_node_of_type nt "ShaderNodeOutputMaterial") as [output |] eqn:Hout;
    [| rewrite with_ret_state by exact Hbody; intros l; reflexivity].
  destruct (first_node_of_type nt "ShaderNodeBsdfPrincipled") as [principled |] eqn:Hpri;
    [| rewrite with_ret_state by exact Hbody; intros l; reflexivity].
  destruct (index_of_input input_name (inputs principled)) as [ti |] eqn:Hti;
    [| rewrite with_ret_state by exact Hbody; intros l; reflexivity].
  destruct (index_of_input "Surface" (inputs output)) as [si |] eqn:Hsi;
    [| intros l; reflexivity].
  specialize (Hvalue principled ti eq_refl Hti).
  apply first_node_of_type_in in Hout as [Hout Hout'].
  apply first_node_of_type_in in Hpri as [Hpri Hpri'].
  set (surface := (node_id output, si)) in *.
  assert (has_input nt surface = true) as Hsurface.
  { unfold has_input, surface. cbn [fst snd]. rewrite (get_node_unique nt output Hnd Hout).
    apply Nat.ltb_lt, (index_of_input_lt _ _ _ Hsi). }
  assert (node_id principled <> node_id output) as Hne.
  { intros E. apply (nodes_apart _ _ Hpri Hout) in E. subst principled.
    rewrite Hout' in Hpri'. discriminate. }
  erewrite with_bind_ok by (apply (remove_first_link_of_sources_spec nt surface Hwf Hfirst)).
  erewrite with_bind_ok by reflexivity.
  cbn [nodes links next_id new_node_sockets String.eqb Ascii.eqb Bool.eqb].
  match goal with
  | |- same_links (snd (with_ _ _ ?s)) _ =>
      assert (probing nt (detached surface nt) s /\ links s = detached surface nt) as Hs1
        by (split; [apply (probing_start nt surface Hwf) | reflexivity]);
      revert Hs1; generalize s
  end.
  intros s1 Hs1.
  pose proof (probing_try_block nt surface Hwf (node_id principled, ti)
                (option_map default_value (nth_error (inputs principled) ti)) default)
    as Htry.
  match type of Htry with
  | ?H -> _ => assert H as Hv
  end.
  { intros Hempty. destruct Hvalue as [Hlinked | Hvalue]; [| exact Hvalue].
    exfalso. unfold is_linked in Hlinked.
    destruct (input_links nt (node_id principled, ti)) as [| l0 others] eqn:Hin;
      [discriminate |].
    assert (In l0 (input_links nt (node_id principled, ti))) as Hl0
      by (rewrite Hin; left; reflexivity).
    apply input_links_in in Hl0 as [Hl0 Hinto].
    assert (In l0 (input_links (NodeTree (nodes nt) (detached surface nt) (next_id nt))
                               (node_id principled, ti))) as Hc.
    { apply input_links_in. split; [| exact Hinto]. cbn [links].
      unfold detached. apply filter_In. split; [exact Hl0 |].
      apply into_link_to in Hinto. unfold into, surface. cbn [fst snd].
      unfold link_to in Hinto. injection Hinto as -> _.
      destruct (Nat.eqb_spec (node_id principled) (node_id output)); [contradiction |].
      reflexivity. }
    rewrite Hempty in Hc. destruct Hc. }
  specialize (Htry Hv s1 Hs1).
  match type of Htry with
  | match ?m s1 with _ => _ end =>
      destruct (m s1) as [[tmp_nodes | e] s2] eqn:Em; [| destruct Htry]
  end.
  erewrite with_bind_ok by exact Em.
  destruct Htry as (Hs2 & rest & -> & Hrest).
  pose proof (probing_link_surface nt surface Hwf Hsurface s2 Hs2) as Hlink.
  destruct (links_new (emit_emission (next_id nt)) surface s2) as [[u | e] s3] eqn:El;
    [| destruct Hlink].
  erewrite with_bind_ok by exact El.
  rewrite with_ret_state by exact Hbody.
  pose proof (probing_finally nt surface Hwf rest Hrest s3 (proj1 Hlink)) as Hfin.
  match goal with
  | |- same_links (snd ?r) _ => destruct r as [[u' | e'] sf] end;
    cbn [snd]; [exact Hfin | destruct Hfin].
Qed.

End SingleInputRestores.

Lemma single_input_probe_restores_witness :
  well_formed textured_graph /\
  NoDup (map node_id (nodes textured_graph)) /\
  Forall (fun l => hd_error (output_links textured_graph (link_from l)) = Some l)
         (surface_links textured_graph) /\
  (forall principled ti,
     first_node_of_type textured_graph "ShaderNodeBsdfPrincipled" = Some principled ->
     index_of_input "Base Color" (inputs principled) = Some ti ->
     is_linked textured_graph (node_id principled, ti) = true \/
     forall x y z, option_map default_value (nth_error (inputs principled) ti)
                   <> Some (VVector x y z)) /\
  keeps_tree (fun _ : option (list nat) => raise RuntimeError : M node_tree unit) /\
  same_links (snd (with_ (temporary_emission_input "Base Color" 0)
                         (fun _ : option (list nat) => raise RuntimeError : M node_tree unit)
                         textured_graph))
             textured_graph.
Proof.
  assert (well_formed textured_graph) as Hwf
    by (apply check_well_formed_sound; reflexivity).
  assert (NoDup (map node_id (nodes textured_graph))) as Hnd
    by (apply (bool_decide_eq_true_1 (NoDup [0%nat; 1%nat; 2%nat])); reflexivity).
  assert (Forall (fun l => hd_error (output_links textured_graph (link_from l)) = Some l)
                 (surface_links textured_graph)) as Hfirst
    by (repeat constructor).
  assert (forall principled ti,
            first_node_of_type textured_graph "ShaderNodeBsdfPrincipled" = Some principled ->
            index_of_input "Base Color" (inputs principled) = Some ti ->
            is_linked textured_graph (node_id principled, ti) = true \/
            forall x y z, option_map default_value (nth_error (inputs principled) ti)
                          <> Some (VVector x y z)) as Hvalue.
  { intros principled ti Hp Hi. cbn in Hp. injection Hp as <-.
    cbn in Hi. injection Hi as <-. left. reflexivity. }
  assert (keeps_tree (fun _ : option (list nat) => raise RuntimeError : M node_tree unit))
    as Hbody by (intros y s; reflexivity).
  split; [exact Hwf |]. split; [exact Hnd |]. split; [exact Hfirst |].
  split; [exact Hvalue |]. split; [exact Hbody |].
  exact (single_input_probe_restores textured_graph Hwf Hnd "Base Color" 0 unit _
           Hfirst Hvalue Hbody).
Defined.
